(** * View-graph construction and pose-graph initialisation of dbarf

    A shallow embedding of the combinatorial core of the repository:

    - [dbarf/utils/union_find.py]    : the size-bounded union-find,
    - [dbarf/geometry/track.py]      : the track builder and its text file,
    - [dbarf/pose_util.py]           : edge classification, view-graph
                                       construction and MST propagation,
    - [dbarf/data_loaders/data_utils.py] : nearby-view selection.

    Python exceptions are values of [exn]; a computation that may raise or
    recurse returns an [outcome].  Recursion of the source that is not
    structural takes a [fuel] argument, and the theorems give a bound on the
    fuel above which [OutOfFuel] is never the answer. *)

From Stdlib Require Import ZArith Ascii Floats.SpecFloat DecimalString DecimalZ DecimalPos.
From stdpp Require Import gmap strings list fin_maps sorting.

(** ** Exceptions and outcomes *)

Inductive exn : Type :=
  | KeyError | IndexError | AssertionError | TypeError
  | ZeroDivisionError | ValueError | OverflowError | NetworkXError.

Inductive outcome (A : Type) : Type :=
  | Ret (a : A)
  | Raise (e : exn)
  | OutOfFuel.
Arguments Ret {A} a.
Arguments Raise {A} e.
Arguments OutOfFuel {A}.

#[global] Instance outcome_ret : MRet outcome := @Ret.
#[global] Instance outcome_bind : MBind outcome := λ A B f m,
  match m with
  | Ret a => f a
  | Raise e => Raise e
  | OutOfFuel => OutOfFuel
  end.

Definition is_Ret {A} (o : outcome A) : Prop := ∃ a, o = Ret a.

(** [l[i]] on a Python list, for a non-negative index. *)
Definition list_get {A} (l : list A) (i : nat) : outcome A :=
  match l !! i with
  | Some a => Ret a
  | None => Raise IndexError
  end.

(** [l[i] = a] on a Python list, for a non-negative index. *)
Definition list_set {A} (l : list A) (i : nat) (a : A) : outcome (list A) :=
  if decide (i < length l) then Ret (<[i := a]> l) else Raise IndexError.

(** [d[k]] on a Python dict held as a finite map. *)
Definition map_get `{Countable K} {V} (d : gmap K V) (k : K) : outcome V :=
  match d !! k with
  | Some v => Ret v
  | None => Raise KeyError
  end.

(** ** Insertion-ordered dictionaries

  Python dicts iterate in insertion order; where that order is observable
  (the order of the lines of a track file, the order in which assertions are
  tried) the dict is an association list with unique keys. *)

Module OrdDict.
Section ord_dict.
Context {K V : Type} `{EqDecision K}.

Definition t := list (K * V).

Fixpoint get (k : K) (d : list (K * V)) : option V :=
  match d with
  | [] => None
  | (k', v) :: d' => if decide (k = k') then Some v else get k d'
  end.

(** [d[k] = v]: an existing key keeps its position. *)
Fixpoint set (k : K) (v : V) (d : list (K * V)) : list (K * V) :=
  match d with
  | [] => [(k, v)]
  | (k', v') :: d' =>
      if decide (k = k') then (k, v) :: d' else (k', v') :: set k v d'
  end.

(** [d.pop(k)] for a key that may be absent (the caller checks). *)
Fixpoint pop (k : K) (d : list (K * V)) : list (K * V) :=
  match d with
  | [] => []
  | (k', v') :: d' => if decide (k = k') then d' else (k', v') :: pop k d'
  end.

Definition keys (d : list (K * V)) : list K := d.*1.

Definition wf (d : list (K * V)) : Prop := NoDup (keys d).
End ord_dict.
End OrdDict.

(** ** The size-bounded union-find ([dbarf/utils/union_find.py]) *)

Module UnionFind.

(** The object's attributes.  [max_num_per_set] is [None] or an integer;
    [ranks] and [parents] are lists indexed by the sequential index of a node;
    [node_mapper] and [component_size] are dicts. *)
Record t : Type := mk {
  max_num_per_set : option Z;
  ranks : list nat;
  parents : list nat;
  nodes : list nat;
  node_mapper : gmap nat nat;
  component_size : gmap nat nat
}.

Definition set_parents (s : t) (ps : list nat) : t :=
  mk (max_num_per_set s) (ranks s) ps (nodes s) (node_mapper s)
     (component_size s).

Definition set_ranks (s : t) (rs : list nat) : t :=
  mk (max_num_per_set s) rs (parents s) (nodes s) (node_mapper s)
     (component_size s).

Definition set_component_size (s : t) (cs : gmap nat nat) : t :=
  mk (max_num_per_set s) (ranks s) (parents s) (nodes s) (node_mapper s) cs.

(** [__init__(size, max_num_per_set)] *)
Definition init (size : nat) (cap : option Z) : t :=
  {| max_num_per_set := cap;
     ranks := replicate size 0;
     parents := seq 0 size;
     nodes := seq 0 size;
     node_mapper := list_to_map ((λ i, (i, i)) <$> seq 0 size);
     component_size := list_to_map ((λ i, (i, 1)) <$> seq 0 size) |}.

(** The loop of [init_with_nodes]: [node_mapper[node_idx] = i] for the
    pairs of [enumerate(nodes)], from index [i] on. *)
Fixpoint enumerate_into (i : nat) (l : list nat) (m : gmap nat nat)
  : gmap nat nat :=
  match l with
  | [] => m
  | node_idx :: l' => enumerate_into (S i) l' (<[node_idx := i]> m)
  end.

(** [init_with_nodes(nodes)] *)
Definition init_with_nodes (s : t) (new_nodes : list nat) : t :=
  mk (max_num_per_set s) (ranks s) (parents s) new_nodes
     (enumerate_into 0 new_nodes ∅) (component_size s).

(** [find_root(x)].  The recursion of the source follows parent links; [fuel]
    bounds its depth.  The call on the right of the assignment is evaluated
    first, then [parents[idx]] is overwritten in the state it returned. *)
Fixpoint find_root (fuel : nat) (s : t) (x : nat) : outcome (t * nat) :=
  match fuel with
  | 0 => OutOfFuel
  | S fuel' =>
      idx ← map_get (node_mapper s) x;
      p ← list_get (parents s) idx;
      if decide (p = idx) then Ret (s, idx)
      else
        nx ← list_get (nodes s) p;
        '(s1, r) ← find_root fuel' s nx;
        ps ← list_set (parents s1) idx r;
        Ret (set_parents s1 ps, r)
  end.

(** The two branches at the end of [union], for roots [x] and [y]. *)
Definition link (s : t) (x y : nat) : outcome t :=
  rx ← list_get (ranks s) x;
  ry ← list_get (ranks s) y;
  if decide (rx < ry) then
    cy ← map_get (component_size s) y;
    cx ← map_get (component_size s) x;
    let s1 := set_component_size s (<[y := cy + cx]> (component_size s)) in
    ps ← list_set (parents s1) x y;
    Ret (set_parents s1 ps)
  else
    cx ← map_get (component_size s) x;
    cy ← map_get (component_size s) y;
    let s1 := set_component_size s (<[x := cx + cy]> (component_size s)) in
    ps ← list_set (parents s1) y x;
    let s2 := set_parents s1 ps in
    rx' ← list_get (ranks s2) x;
    ry' ← list_get (ranks s2) y;
    if decide (rx' = ry') then
      rs ← list_set (ranks s2) x (rx' + 1);
      Ret (set_ranks s2 rs)
    else Ret s2.

(** [union(x, y)] *)
Definition union (fuel : nat) (s : t) (x y : nat) : outcome t :=
  '(s1, x) ← find_root fuel s x;
  '(s2, y) ← find_root fuel s1 y;
  if decide (x = y) then Ret s2
  else
    match max_num_per_set s2 with
    | Some m =>
        cx ← map_get (component_size s2) x;
        cy ← map_get (component_size s2) y;
        if decide (m < Z.of_nat (cx + cy))%Z then Ret s2 else link s2 x y
    | None => link s2 x y
    end.

(** The first loop of [validate]: group the node ids by root.
    [union_set[root_id].append(node_id)], creating the list when absent. *)
Definition group_append (root_id node_id : nat)
    (union_set : list (nat * list nat)) : list (nat * list nat) :=
  match OrdDict.get root_id union_set with
  | None => OrdDict.set root_id [node_id] union_set
  | Some l => OrdDict.set root_id (l ++ [node_id]) union_set
  end.

Fixpoint group_by_root (fuel : nat) (s : t) (todo : list nat)
    (union_set : list (nat * list nat))
  : outcome (t * list (nat * list nat)) :=
  match todo with
  | [] => Ret (s, union_set)
  | node_id :: todo' =>
      '(s1, root_id) ← find_root fuel s node_id;
      group_by_root fuel s1 todo' (group_append root_id node_id union_set)
  end.

(** The second loop of [validate]: one assertion per key, in dict order.
    Comparing a length with [None] is a [TypeError]. *)
Fixpoint assert_sizes (cap : option Z) (union_set : list (nat * list nat))
  : outcome unit :=
  match union_set with
  | [] => Ret ()
  | (key, members) :: rest =>
      match cap with
      | None => Raise TypeError
      | Some m =>
          if decide (Z.of_nat (length members) ≤ m)%Z
          then assert_sizes cap rest
          else Raise AssertionError
      end
  end.

(** [validate()] *)
Definition validate (fuel : nat) (s : t) : outcome t :=
  '(s1, union_set) ← group_by_root fuel s (nodes s) [];
  _ ← assert_sizes (max_num_per_set s1) union_set;
  Ret s1.

(** A run of [union] calls, as in [TrackBuilder.build]. *)
Fixpoint unions (fuel : nat) (s : t) (pairs : list (nat * nat)) : outcome t :=
  match pairs with
  | [] => Ret s
  | (x, y) :: rest => s1 ← union fuel s x y; unions fuel s1 rest
  end.

(** The value [find_root(x)] returns, the state left aside. *)
Definition root_of (fuel : nat) (s : t) (x : nat) : option nat :=
  match find_root fuel s x with
  | Ret (_, r) => Some r
  | _ => None
  end.

(** The component of node [x]: the nodes with the root of [x]. *)
Definition component (fuel : nat) (s : t) (x : nat) : list nat :=
  filter (λ z, root_of fuel s z = root_of fuel s x) (nodes s).

Example union_ex :
  (s ← unions 5 (init 5 (Some 3%Z)) [(0, 1); (2, 3); (1, 2); (3, 4)];
   Ret (parents s, ranks s, root_of 5 s 4, component 5 s 0)) =
  Ret ([0; 0; 2; 2; 2], [1; 0; 1; 0; 0], Some 2, [0; 1]).
Proof. vm_compute. reflexivity. Qed.

(** Two example states: three nodes after [union(0, 1)] and [union(1, 2)]
    without cap, and three nodes after [union(0, 1)] under a cap of 2. *)
Definition chain3_capped : t :=
  match union 3 (init 3 (Some 2%Z)) 0 1 with
  | Ret s => s
  | _ => init 3 (Some 2%Z)
  end.

End UnionFind.

(** ** Tracks ([dbarf/geometry/track.py]) *)

Module Track.

Record TrackElement : Type := mkTrackElement {
  image_id : Z;
  point2D_idx : Z
}.

#[global] Instance TrackElement_eq_dec : EqDecision TrackElement.
Proof. solve_decision. Defined.

(** The attributes of a [TrackBuilder]; [consistent_tracks] maps a root id
    to the list of its elements, in insertion order. *)
Record TrackBuilder : Type := mkTrackBuilder {
  min_track_length : Z;
  max_track_length : Z;
  consistent_tracks : list (Z * list TrackElement)
}.

Definition set_tracks (tb : TrackBuilder)
    (tracks : list (Z * list TrackElement)) : TrackBuilder :=
  mkTrackBuilder (min_track_length tb) (max_track_length tb) tracks.

(** [TrackBuilder(min_track_length, max_track_length)] *)
Definition new (min_len max_len : Z) : TrackBuilder :=
  mkTrackBuilder min_len max_len [].

(** The property [mean_track_length] divides a float by the number of
    tracks.  Only whether the division raises is kept; the rounded mean is
    printed and not used otherwise. *)
Definition mean_track_length (tb : TrackBuilder) : outcome unit :=
  if decide (length (consistent_tracks tb) = 0) then Raise ZeroDivisionError
  else Ret ().

(** [tracks[root_id].append(e)], after [tracks[root_id] = []] when the key
    is new. *)
Definition tracks_append (root_id : Z) (e : TrackElement)
    (tracks : list (Z * list TrackElement)) : list (Z * list TrackElement) :=
  match OrdDict.get root_id tracks with
  | None => OrdDict.set root_id [e] tracks
  | Some l => OrdDict.set root_id (l ++ [e]) tracks
  end.

(** The grouping loop of [build], from [track_id] on: the tracks built so
    far are kept when [find_root] does not return. *)
Fixpoint group_tracks (fuel : nat) (finder : UnionFind.t) (track_id : nat)
    (elements : list TrackElement) (tracks : list (Z * list TrackElement))
  : list (Z * list TrackElement) * outcome UnionFind.t :=
  match elements with
  | [] => (tracks, Ret finder)
  | e :: rest =>
      match UnionFind.find_root fuel finder track_id with
      | Ret (finder', root_id) =>
          group_tracks fuel finder' (S track_id) rest
            (tracks_append (Z.of_nat root_id) e tracks)
      | Raise ex => (tracks, Raise ex)
      | OutOfFuel => (tracks, OutOfFuel)
      end
  end.

(** [build(track_elements, track_element_pairs)]: the object after the call
    and whether the call returned. *)
Definition build (fuel : nat) (tb : TrackBuilder)
    (track_elements : list TrackElement)
    (track_element_pairs : list (nat * nat)) : TrackBuilder * outcome unit :=
  let num_track_elements := length track_elements in
  let finder :=
    UnionFind.init num_track_elements (Some (max_track_length tb)) in
  match f1 ← UnionFind.unions fuel finder track_element_pairs;
        UnionFind.validate fuel f1 with
  | Ret f2 =>
      let '(tracks, o) :=
        group_tracks fuel f2 0 track_elements (consistent_tracks tb) in
      let tb' := set_tracks tb tracks in
      (tb', _ ← o; mean_track_length tb')
  | Raise ex => (tb, Raise ex)
  | OutOfFuel => (tb, OutOfFuel)
  end.

(** The inner loop of [filter]: keep the first element of each image.
    [seen] is the dict [image_ids], used as a set. *)
Fixpoint dedup (seen : gset Z) (candidate_tracks : list TrackElement)
  : list TrackElement :=
  match candidate_tracks with
  | [] => []
  | e :: rest =>
      if decide (image_id e ∈ seen) then dedup seen rest
      else e :: dedup ({[image_id e]} ∪ seen) rest
  end.

(** One iteration of the loop of [filter]. *)
Definition filter_step (min_len : Z) (tracks : list (Z * list TrackElement))
    (root_id : Z) : outcome (list (Z * list TrackElement)) :=
  match OrdDict.get root_id tracks with
  | None => Raise KeyError
  | Some candidate_tracks =>
      if decide (Z.of_nat (length candidate_tracks) < min_len)%Z
      then Ret (OrdDict.pop root_id tracks)
      else
        let consistent := dedup ∅ candidate_tracks in
        if decide (length candidate_tracks ≠ length consistent) then
          let tracks1 := OrdDict.pop root_id tracks in
          if decide (min_len ≤ Z.of_nat (length consistent))%Z
          then Ret (OrdDict.set root_id consistent tracks1)
          else Ret tracks1
        else Ret tracks
  end.

Fixpoint filter_loop (min_len : Z) (track_root_ids : list Z)
    (tracks : list (Z * list TrackElement))
  : list (Z * list TrackElement) * outcome unit :=
  match track_root_ids with
  | [] => (tracks, Ret ())
  | root_id :: rest =>
      match filter_step min_len tracks root_id with
      | Ret tracks' => filter_loop min_len rest tracks'
      | Raise ex => (tracks, Raise ex)
      | OutOfFuel => (tracks, OutOfFuel)
      end
  end.

(** [filter()]: the loop runs over a copy of the keys. *)
Definition filter (tb : TrackBuilder) : TrackBuilder * outcome unit :=
  let track_root_ids := OrdDict.keys (consistent_tracks tb) in
  let '(tracks, o) :=
    filter_loop (min_track_length tb) track_root_ids (consistent_tracks tb) in
  let tb' := set_tracks tb tracks in
  (tb', _ ← o; mean_track_length tb').

(** *** The track file *)

Definition LF : ascii := "010"%char.
Definition SP : ascii := " "%char.

(** [str(z)] and [f'{z}'] for an integer. *)
Definition str (z : Z) : string := NilZero.string_of_int (Z.to_int z).

(** [int(s)] for a string: an optional sign and decimal digits.  Python also
    accepts surrounding white space and underscores between digits; no file
    written by [write_to_file] has them. *)
Definition py_int (s : string) : outcome Z :=
  match s with
  | EmptyString => Raise ValueError
  | String c s' =>
      if decide (c = "+"%char) then
        match NilZero.uint_of_string s' with
        | Some d => Ret (Z.of_uint d)
        | None => Raise ValueError
        end
      else
        match NilZero.int_of_string s with
        | Some d => Ret (Z.of_int d)
        | None => Raise ValueError
        end
  end.

(** [f.readline()]: the line with its newline, and what is left to read. *)
Fixpoint readline (s : string) : string * string :=
  match s with
  | EmptyString => (EmptyString, EmptyString)
  | String c s' =>
      if decide (c = LF) then (String c EmptyString, s')
      else let '(l, r) := readline s' in (String c l, r)
  end.

(** [s.rstrip('\n')] *)
Fixpoint rstrip_LF (s : string) : string :=
  match s with
  | EmptyString => EmptyString
  | String c s' =>
      match rstrip_LF s' with
      | EmptyString => if decide (c = LF) then EmptyString
                       else String c EmptyString
      | t => String c t
      end
  end.

(** [s.split(' ')] *)
Fixpoint split_SP (s : string) : list string :=
  match s with
  | EmptyString => [EmptyString]
  | String c s' =>
      if decide (c = SP) then EmptyString :: split_SP s'
      else match split_SP s' with
           | t :: ts => String c t :: ts
           | [] => [String c EmptyString]
           end
  end.

(** [f.readline().rstrip('\n').split(' ')] *)
Definition next_line (rest : string) : list string * string :=
  let '(l, rest') := readline rest in (split_SP (rstrip_LF l), rest').

(** What a run of [f.write] calls leaves in the file. *)
Definition join (l : list string) : string := foldr String.append "" l.

(** The text [write_to_file] writes for one track: a header line with the
    key and the number of elements, and a line with the elements. *)
Definition write_element (e : TrackElement) : string :=
  str (image_id e) +:+ String SP (str (point2D_idx e) +:+ String SP "").

Definition write_header (key : Z) (track : list TrackElement) : string :=
  str key +:+ String SP (str (Z.of_nat (length track))).

Definition write_track (key : Z) (track : list TrackElement) : string :=
  (write_header key track +:+ String LF "") +:+
  (join (write_element <$> track) +:+ String LF "").

(** [write_to_file(filename)]: the contents of the file. *)
Definition write_to_file (tb : TrackBuilder) : string :=
  join ((λ kt, write_track kt.1 kt.2) <$> consistent_tracks tb).

(** [int(line[i])] *)
Definition int_at (line : list string) (i : nat) : outcome Z :=
  tok ← list_get line i; py_int tok.

(** The [for i in range(num_track_elements)] loop of [read_from_file], with
    [count] iterations left. *)
Fixpoint read_elements (count i : nat) (line : list string)
    (image_ids : option (list Z)) (track_id : Z)
    (tracks : list (Z * list TrackElement))
  : list (Z * list TrackElement) * outcome unit :=
  match count with
  | 0 => (tracks, Ret ())
  | S count' =>
      match img ← int_at line (2 * i + 0);
            pt ← int_at line (2 * i + 1); Ret (img, pt) with
      | Ret (img, pt) =>
          let skip :=
            match image_ids with
            | Some ids => bool_decide (img ∉ ids)
            | None => false
            end in
          if skip then
            read_elements count' (S i) line image_ids track_id tracks
          else
            match OrdDict.get track_id tracks with
            | Some l =>
                read_elements count' (S i) line image_ids track_id
                  (OrdDict.set track_id (l ++ [mkTrackElement img pt]) tracks)
            | None => (tracks, Raise KeyError)
            end
      | Raise ex => (tracks, Raise ex)
      | OutOfFuel => (tracks, OutOfFuel)
      end
  end.

(** The [while] loop of [read_from_file]; each iteration reads two lines,
    [fuel] bounds the number of iterations. *)
Fixpoint read_loop (fuel : nat) (image_ids : option (list Z))
    (tracks : list (Z * list TrackElement)) (line : list string)
    (rest : string) : list (Z * list TrackElement) * outcome unit :=
  match fuel with
  | 0 => (tracks, OutOfFuel)
  | S fuel' =>
      if decide (1 < length line) then
        match track_id ← int_at line 0; num ← int_at line 1;
              Ret (track_id, num) with
        | Ret (track_id, num_track_elements) =>
            let tracks1 := OrdDict.set track_id [] tracks in
            let '(line1, rest1) := next_line rest in
            let '(tracks2, o) :=
              read_elements (Z.to_nat num_track_elements) 0 line1 image_ids
                track_id tracks1 in
            match o with
            | Ret _ =>
                let '(line2, rest2) := next_line rest1 in
                read_loop fuel' image_ids tracks2 line2 rest2
            | _ => (tracks2, o)
            end
        | Raise ex => (tracks, Raise ex)
        | OutOfFuel => (tracks, OutOfFuel)
        end
      else (tracks, Ret ())
  end.

(** [read_from_file(filename, image_ids)], on the contents of the file. *)
Definition read_from_file (fuel : nat) (tb : TrackBuilder) (contents : string)
    (image_ids : option (list Z)) : TrackBuilder * outcome unit :=
  let '(line, rest) := next_line contents in
  let '(tracks, o) :=
    read_loop fuel image_ids (consistent_tracks tb) line rest in
  (set_tracks tb tracks, o).

(** A small scene: three observations of one point in images 1, 2, 3 and a
    second observation in image 1, matched in a chain. *)
Definition example_elements : list TrackElement :=
  [mkTrackElement 1 10; mkTrackElement 2 20; mkTrackElement 3 30;
   mkTrackElement 1 11].

Definition example_pairs : list (nat * nat) := [(0, 1); (1, 2); (2, 3)].

Definition example_built : TrackBuilder :=
  (build 5 (new 3 40) example_elements example_pairs).1.

Definition example_filtered : TrackBuilder := (filter example_built).1.

Example example_built_eq :
  build 5 (new 3 40) example_elements example_pairs =
  (mkTrackBuilder 3 40 [(0%Z, example_elements)], Ret ()).
Proof. vm_compute. reflexivity. Qed.

Example example_filtered_eq :
  filter example_built =
  (mkTrackBuilder 3 40
     [(0%Z, [mkTrackElement 1 10; mkTrackElement 2 20; mkTrackElement 3 30])],
   Ret ()).
Proof. vm_compute. reflexivity. Qed.

Example example_file_eq :
  write_to_file example_filtered =
  ("0 3" +:+ String LF ("1 10 2 20 3 30 " +:+ String LF ""))%string.
Proof. vm_compute. reflexivity. Qed.

Example example_read_eq :
  read_from_file 2 (new 3 40) (write_to_file example_filtered) None =
  (example_filtered, Ret ()).
Proof. vm_compute. reflexivity. Qed.

End Track.

(** ** Python floats

    A Python [float] is an IEEE 754 binary64 number: a [spec_float] of the
    standard library with 53 bits of precision.  The operations below are its
    exact, correctly rounded operations. *)

Module Float64.

Definition prec : Z := 53.
Definition emax : Z := 1024.

(** [float(z)] for an integer [z]: the nearest float; an integer beyond the
    largest float raises. *)
Definition of_int (z : Z) : outcome spec_float :=
  match binary_normalize prec emax z 0 false with
  | S754_infinity _ => Raise OverflowError
  | x => Ret x
  end.

Definition is_zero (x : spec_float) : bool :=
  match x with S754_zero _ => true | _ => false end.

(** [x / y]: division by zero raises. *)
Definition div (x y : spec_float) : outcome spec_float :=
  if is_zero y then Raise ZeroDivisionError else Ret (SFdiv prec emax x y).

(** [x * y] *)
Definition mul (x y : spec_float) : spec_float := SFmul prec emax x y.

(** [x + y] *)
Definition add (x y : spec_float) : spec_float := SFadd prec emax x y.

(** [x < y]; false when one side is a NaN. *)
Definition ltb (x y : spec_float) : bool := SFltb x y.

(** [int(x)]: truncation toward zero; infinities and NaN raise. *)
Definition to_int (x : spec_float) : outcome Z :=
  match x with
  | S754_zero _ => Ret 0%Z
  | S754_infinity _ => Raise OverflowError
  | S754_nan => Raise ValueError
  | S754_finite s m e =>
      let a := match e with
               | Zneg p => Z.shiftr (Zpos m) (Zpos p)
               | _ => Z.shiftl (Zpos m) e
               end in
      Ret (if s then - a else a)%Z
  end.

(** The literals of the source. *)
Definition f1_0 : spec_float := S754_finite false 4503599627370496 (-52).
Definition f5_0 : spec_float := S754_finite false 5629499534213120 (-50).
Definition f15_0 : spec_float := S754_finite false 8444249301319680 (-49).
Definition f1e5 : spec_float := S754_finite false 6871947673600000 (-36).

Example f1_0_eq : of_int 1 = Ret f1_0.
Proof. reflexivity. Qed.
Example f5_0_eq : of_int 5 = Ret f5_0.
Proof. reflexivity. Qed.
Example f15_0_eq : of_int 15 = Ret f15_0.
Proof. reflexivity. Qed.
Example f1e5_eq : of_int 100000 = Ret f1e5.
Proof. reflexivity. Qed.

(** [int((1.0 / w) * 1e5)] for an integer [w]: the priority level both
    [get_nearby_view_ids] and the MST traversal give an edge, from its match
    count (the traversal stores [1.0 / float(count)] as the edge weight
    first). *)
Definition inverse (w : Z) : outcome spec_float :=
  x ← of_int w; div f1_0 x.

Definition level (weight : spec_float) : outcome Z :=
  to_int (mul weight f1e5).

Definition priority_level (w : Z) : outcome Z :=
  weight ← inverse w; level weight.

Example priority_level_50 : priority_level 50 = Ret 2000%Z.
Proof. vm_compute. reflexivity. Qed.
Example priority_level_700 : priority_level 700 = Ret 142%Z.
Proof. vm_compute. reflexivity. Qed.
Example priority_level_701 : priority_level 701 = Ret 142%Z.
Proof. vm_compute. reflexivity. Qed.
Example priority_level_0 : priority_level 0 = Raise ZeroDivisionError.
Proof. vm_compute. reflexivity. Qed.

End Float64.

(** The values of an [inlier_mask], a float32 array. *)
Module Float32.
Definition f0_0 : spec_float := S754_zero false.
Definition f0_5 : spec_float := S754_finite false 8388608 (-24).
Definition f1_0 : spec_float := S754_finite false 8388608 (-23).
End Float32.

(** ** Undirected weighted graphs ([networkx.Graph])

    The library is not part of the repository; the model keeps what the
    repository uses of it: the adjacency structure, a dict of dicts in
    insertion order, with the methods [add_edge], [neighbors], [G[u][v]] and
    [edges], and [minimum_spanning_tree] (Kruskal's algorithm on the edges
    sorted by weight). *)

Module Graph.
Section graph.
Context {W : Type}.

Definition empty : list (nat * list (nat * W)) := [].

Definition add_node (u : nat) (g : list (nat * list (nat * W)))
  : list (nat * list (nat * W)) :=
  match OrdDict.get u g with
  | Some _ => g
  | None => OrdDict.set u [] g
  end.

(** [adj[u][v] = w] for a node [u] of the graph. *)
Definition set_adj (u v : nat) (w : W) (g : list (nat * list (nat * W)))
  : list (nat * list (nat * W)) :=
  match OrdDict.get u g with
  | Some nbrs => OrdDict.set u (OrdDict.set v w nbrs) g
  | None => g
  end.

(** [G.add_edge(u, v, weight=w)] *)
Definition add_edge (u v : nat) (w : W) (g : list (nat * list (nat * W)))
  : list (nat * list (nat * W)) :=
  set_adj v u w (set_adj u v w (add_node v (add_node u g))).

(** [list(G.neighbors(n))] *)
Definition neighbors (g : list (nat * list (nat * W))) (n : nat)
  : outcome (list nat) :=
  match OrdDict.get n g with
  | Some nbrs => Ret (OrdDict.keys nbrs)
  | None => Raise NetworkXError
  end.

(** [G[u][v]['weight']] *)
Definition weight (g : list (nat * list (nat * W))) (u v : nat) : outcome W :=
  match OrdDict.get u g with
  | Some nbrs =>
      match OrdDict.get v nbrs with
      | Some w => Ret w
      | None => Raise KeyError
      end
  | None => Raise KeyError
  end.

(** [G.edges(data=True)]: each edge once, from the endpoint met first. *)
Fixpoint edges_from (seen : list nat) (g : list (nat * list (nat * W)))
  : list (nat * nat * W) :=
  match g with
  | [] => []
  | (n, nbrs) :: g' =>
      ((λ nw, (n, nw.1, nw.2)) <$> filter (λ nw, nw.1 ∉ seen) nbrs)
      ++ edges_from (n :: seen) g'
  end.

Definition edges (g : list (nat * list (nat * W))) : list (nat * nat * W) :=
  edges_from [] g.

(** The graph with the nodes of [g] and no edge. *)
Definition nodes_only (g : list (nat * list (nat * W)))
  : list (nat * list (nat * W)) :=
  (λ nn, (nn.1, [])) <$> g.

Definition add_edges_from (es : list (nat * nat * W))
    (g : list (nat * list (nat * W))) : list (nat * list (nat * W)) :=
  foldl (λ g e, add_edge e.1.1 e.1.2 e.2 g) g es.

End graph.

(** *** Kruskal's algorithm, on float weights *)

Definition is_nan (x : spec_float) : bool :=
  match x with S754_nan => true | _ => false end.

(** [sorted(edges, key=weight)]: a stable sort. *)
Fixpoint insert_by_weight (e : nat * nat * spec_float)
    (l : list (nat * nat * spec_float)) : list (nat * nat * spec_float) :=
  match l with
  | [] => [e]
  | e' :: l' =>
      if Float64.ltb e'.2 e.2 then e' :: insert_by_weight e l' else e :: l
  end.

Definition sort_by_weight (l : list (nat * nat * spec_float))
  : list (nat * nat * spec_float) :=
  foldr insert_by_weight [] l.

(** The disjoint sets of the algorithm, as a labelling of the nodes; a node
    without label is alone in its set. *)
Definition subtree (labels : gmap nat nat) (u : nat) : nat :=
  default u (labels !! u).

Definition join_subtrees (labels : gmap nat nat) (u v : nat) : gmap nat nat :=
  let lu := subtree labels u in
  let lv := subtree labels v in
  (λ l, if decide (l = lv) then lu else l) <$>
    (<[u := lu]> (<[v := lv]> labels)).

Fixpoint kruskal (labels : gmap nat nat)
    (sorted_edges : list (nat * nat * spec_float))
  : list (nat * nat * spec_float) :=
  match sorted_edges with
  | [] => []
  | (u, v, w) :: rest =>
      if decide (subtree labels u ≠ subtree labels v)
      then (u, v, w) :: kruskal (join_subtrees labels u v) rest
      else kruskal labels rest
  end.

Definition kruskal_mst_edges (g : list (nat * list (nat * spec_float)))
  : outcome (list (nat * nat * spec_float)) :=
  let es := edges g in
  if existsb (λ e, is_nan e.2) es then Raise ValueError
  else Ret (kruskal ∅ (sort_by_weight es)).

(** [networkx.minimum_spanning_tree(G)] *)
Definition minimum_spanning_tree (g : list (nat * list (nat * spec_float)))
  : outcome (list (nat * list (nat * spec_float))) :=
  es ← kruskal_mst_edges g;
  Ret (add_edges_from es (nodes_only g)).

End Graph.

(** ** Priority queues ([queue.PriorityQueue])

    Entries are retrieved lowest first; the queue is kept as the sorted list
    of its entries.  The entries of the source are lists [[level, x]],
    compared first on the level, then on [x]. *)

Module PriorityQueue.
Section queue.
Context {A : Type} (lt : A → A → bool).

(** [qu.put(x)] *)
Fixpoint put (x : A) (qu : list A) : list A :=
  match qu with
  | [] => [x]
  | y :: qu' => if lt x y then x :: qu else y :: put x qu'
  end.

(** [qu.get()], on a queue that is not empty. *)
Definition get (qu : list A) : option (A * list A) :=
  match qu with
  | [] => None
  | x :: qu' => Some (x, qu')
  end.

End queue.

(** [[p1, j1] < [p2, j2]] *)
Definition lt_node (x y : Z * nat) : bool :=
  bool_decide (x.1 < y.1)%Z || (bool_decide (x.1 = y.1) && bool_decide (x.2 < y.2)).

(** [[p1, (i1, j1)] < [p2, (i2, j2)]] *)
Definition lt_edge (x y : Z * (nat * nat)) : bool :=
  bool_decide (x.1 < y.1)%Z ||
  (bool_decide (x.1 = y.1) &&
   (bool_decide (x.2.1 < y.2.1) ||
    (bool_decide (x.2.1 = y.2.1) && bool_decide (x.2.2 < y.2.2)))).

End PriorityQueue.

(** ** View graph and rotations ([dbarf/pose_util.py]) *)

Module ViewGraph.

(** Lines 594-599 of [_load_view_graph]: [np.full] with 0.5, then the two
    assignments through boolean masks. *)
Definition thresh_rot_low : spec_float := Float64.f5_0.
Definition thresh_rot_high : spec_float := Float64.f15_0.

(** [a[mask] = v] *)
Definition mask_assign (a : list spec_float) (mask : list bool)
    (v : spec_float) : list spec_float :=
  zip_with (λ x (m : bool), if m then v else x) a mask.

Definition classify_edges (rot_deg : list spec_float) : list spec_float :=
  let edge_inliers := replicate (length rot_deg) Float32.f0_5 in
  let inliers := (λ x, Float64.ltb x thresh_rot_low) <$> rot_deg in
  let outliers := (λ x, Float64.ltb thresh_rot_high x) <$> rot_deg in
  let edge_inliers := mask_assign edge_inliers inliers Float32.f1_0 in
  mask_assign edge_inliers outliers Float32.f0_0.

Section load.
(** The relative poses and their comparison with the pseudo ground truth are
    floating-point geometry; the model keeps a pose as an opaque value and
    the rotation error of the pose measured for a pair as a function. *)
Context {Pose : Type} (rot_deg_of : nat * nat → Pose → spec_float).

Record TwoViewGeometry : Type := mkTwoViewGeometry {
  rel_pose : Pose;
  num_matches : Z;
  inlier_mask : spec_float
}.

(** The loop of lines 604-614, from index [i] on. *)
Fixpoint insert_edges (i : nat) (all_edge_indices : list (nat * nat))
    (relative_poses : list Pose) (edge_inliers : list spec_float)
    (image_pair_to_matches_num : gmap (nat * nat) Z)
    (two_view_geometries : list ((nat * nat) * TwoViewGeometry))
    (graph : list (nat * list (nat * Z)))
  : outcome (list ((nat * nat) * TwoViewGeometry) *
             list (nat * list (nat * Z))) :=
  match all_edge_indices with
  | [] => Ret (two_view_geometries, graph)
  | image_pair :: rest =>
      match image_pair_to_matches_num !! image_pair with
      | None =>
          insert_edges (S i) rest relative_poses edge_inliers
            image_pair_to_matches_num two_view_geometries graph
      | Some count =>
          pose ← list_get relative_poses i;
          mask ← list_get edge_inliers i;
          insert_edges (S i) rest relative_poses edge_inliers
            image_pair_to_matches_num
            (OrdDict.set image_pair (mkTwoViewGeometry pose count mask)
               two_view_geometries)
            (Graph.add_edge image_pair.1 image_pair.2 count graph)
      end
  end.

(** [_load_view_graph] from line 580 on: one direction of each edge is kept,
    the kept edges are classified, and those with a match count enter the
    dict and the graph. *)
Definition load_view_graph (edge_index : list (nat * nat))
    (relative_poses : list Pose)
    (image_pair_to_matches_num : gmap (nat * nat) Z)
  : outcome (list ((nat * nat) * TwoViewGeometry) *
             list (nat * list (nat * Z))) :=
  let kept := filter (λ ep, ep.1.1 < ep.1.2) (zip edge_index relative_poses) in
  let rot_deg := (λ ep, rot_deg_of ep.1 ep.2) <$> kept in
  let edge_inliers := classify_edges rot_deg in
  insert_edges 0 (kept.*1) (kept.*2) edge_inliers image_pair_to_matches_num
    [] Graph.empty.

End load.
End ViewGraph.

(** ** Nearby views ([dbarf/data_loaders/data_utils.py]) *)

Module NearbyViews.

(** The first loop of [get_nearby_view_ids]. *)
Fixpoint enqueue_neighbors (graph : list (nat * list (nat * Z)))
    (target_node_id : nat) (node_id_to_idx : gmap nat nat)
    (neighbors : list nat) (qu : list (Z * nat)) : outcome (list (Z * nat)) :=
  match neighbors with
  | [] => Ret qu
  | j :: rest =>
      match node_id_to_idx !! j with
      | None =>
          enqueue_neighbors graph target_node_id node_id_to_idx rest qu
      | Some _ =>
          w ← Graph.weight graph target_node_id j;
          priority_level ← Float64.priority_level w;
          enqueue_neighbors graph target_node_id node_id_to_idx rest
            (PriorityQueue.put PriorityQueue.lt_node (priority_level, j) qu)
      end
  end.

(** The second loop: [k] entries are selected already. *)
Fixpoint select (node_id_to_idx : gmap nat nat) (num_select : Z) (k : nat)
    (qu : list (Z * nat)) : outcome (list nat) :=
  match qu with
  | [] => Ret []
  | ele :: qu' =>
      if decide (Z.of_nat k < num_select)%Z then
        select_idx ← map_get node_id_to_idx ele.2;
        rest ← select node_id_to_idx num_select (S k) qu';
        Ret (select_idx :: rest)
      else Ret []
  end.

(** [get_nearby_view_ids(target_id, graph, idx_to_node_id, node_id_to_idx,
    num_select)] *)
Definition get_nearby_view_ids (target_id : nat)
    (graph : list (nat * list (nat * Z)))
    (idx_to_node_id node_id_to_idx : gmap nat nat) (num_select : Z)
  : outcome (list nat) :=
  target_node_id ← map_get idx_to_node_id target_id;
  neighbors ← Graph.neighbors graph target_node_id;
  qu ← enqueue_neighbors graph target_node_id node_id_to_idx neighbors [];
  select node_id_to_idx num_select 0 qu.

End NearbyViews.

(** ** Rotations from the minimum spanning tree *)

Module Propagation.
Section propagation.
(** A rotation is a 3x3 float tensor; the model keeps the type and its
    operations as parameters: the identity [eye], the product [R1 @ R2] and
    the transpose. *)
Context {Rot : Type} (eye : Rot) (matmul : Rot → Rot → Rot)
  (transpose : Rot → Rot).

(** The loop that builds the weighted graph: the edge of key [(a, b)] gets
    the weight [1.0 / float(count)]. *)
Fixpoint build_graph (two_view_geometries : list ((nat * nat) * (Rot * Z)))
    (graph : list (nat * list (nat * spec_float)))
  : outcome (list (nat * list (nat * spec_float))) :=
  match two_view_geometries with
  | [] => Ret graph
  | (edge, data) :: rest =>
      weight ← Float64.inverse data.2;
      build_graph rest (Graph.add_edge edge.1 edge.2 weight graph)
  end.

(** [compute_rotation(i, j)] *)
Definition compute_rotation
    (two_view_geometries : list ((nat * nat) * (Rot * Z)))
    (init_global_rotations : list Rot) (i j : nat) : outcome (list Rot) :=
  R_ij ← (if decide (i < j) then
            match OrdDict.get (i, j) two_view_geometries with
            | Some data => Ret data.1
            | None => Raise KeyError
            end
          else
            match OrdDict.get (j, i) two_view_geometries with
            | Some data => Ret (transpose data.1)
            | None => Raise KeyError
            end);
  R_i ← list_get init_global_rotations i;
  list_set init_global_rotations j (matmul R_ij R_i).

(** The loop of [add_edges_to_heap(image_id)] over the neighbours. *)
Fixpoint push_edges (mst : list (nat * list (nat * spec_float)))
    (visited : list bool) (image_id : nat) (neighbors : list nat)
    (qu : list (Z * (nat * nat))) : outcome (list (Z * (nat * nat))) :=
  match neighbors with
  | [] => Ret qu
  | j :: rest =>
      seen ← list_get visited j;
      if (seen : bool) then push_edges mst visited image_id rest qu
      else
        weight ← Graph.weight mst image_id j;
        priority_level ← Float64.level weight;
        push_edges mst visited image_id rest
          (PriorityQueue.put PriorityQueue.lt_edge
             (priority_level, (image_id, j)) qu)
  end.

(** [add_edges_to_heap(image_id)] *)
Definition add_edges_to_heap (mst : list (nat * list (nat * spec_float)))
    (visited : list bool) (image_id : nat) (qu : list (Z * (nat * nat)))
  : outcome (list (Z * (nat * nat))) :=
  neighbors ← Graph.neighbors mst image_id;
  push_edges mst visited image_id neighbors qu.

(** The [while not qu.empty()] loop; [fuel] bounds its iterations. *)
Fixpoint traverse (fuel : nat)
    (two_view_geometries : list ((nat * nat) * (Rot * Z)))
    (mst : list (nat * list (nat * spec_float)))
    (init_global_rotations : list Rot) (visited : list bool)
    (qu : list (Z * (nat * nat))) : outcome (list Rot) :=
  match fuel with
  | 0 => OutOfFuel
  | S fuel' =>
      match PriorityQueue.get qu with
      | None => Ret init_global_rotations
      | Some (edge, qu') =>
          let i := edge.2.1 in
          let j := edge.2.2 in
          seen ← list_get visited j;
          if (seen : bool) then
            traverse fuel' two_view_geometries mst init_global_rotations
              visited qu'
          else
            rotations ← compute_rotation two_view_geometries
                          init_global_rotations i j;
            visited' ← list_set visited j true;
            qu'' ← add_edges_to_heap mst visited' j qu';
            traverse fuel' two_view_geometries mst rotations visited' qu''
      end
  end.

(** [init_global_rotations_from_mst(two_view_geometries, num_rotations)],
    with the attributes [ref_image_id] and [ref_image_rotation] it reads;
    the result is the attribute [init_global_rotations] it sets. *)
Definition init_global_rotations_from_mst (fuel : nat)
    (ref_image_id : nat) (ref_image_rotation : Rot)
    (two_view_geometries : list ((nat * nat) * (Rot * Z)))
    (num_rotations : nat) : outcome (list Rot) :=
  rotations ← list_set (replicate num_rotations eye) ref_image_id
                ref_image_rotation;
  graph ← build_graph two_view_geometries Graph.empty;
  mst ← Graph.minimum_spanning_tree graph;
  visited ← list_set (replicate num_rotations false) ref_image_id true;
  qu ← add_edges_to_heap mst visited ref_image_id [];
  traverse fuel two_view_geometries mst rotations visited qu.

End propagation.
End Propagation.

(** ** Relative poses of the nearby views
    ([get_relative_poses], [dbarf/data_loaders/data_utils.py]) *)

Module RelativePoses.
Section relative_poses.
(** A stored pose is a 4x4 float matrix and an entry of the result the
    6-vector of its rotation vector and translation; the model keeps the two
    types and the conversion as parameters. *)
Context {Pose Vec : Type} (zeros6 : Vec) (to_vec : Pose → Vec).

(** The key under which the pair of two views is looked up. *)
Definition view_pair (target_node_id nearby_node_id : nat) : nat * nat :=
  if decide (target_node_id < nearby_node_id)
  then (target_node_id, nearby_node_id)
  else (nearby_node_id, target_node_id).

(** The body of the loop, once [nearby_node_id] is known. *)
Definition rel_pose_of (target_node_id : nat)
    (two_view_geometries :
       list ((nat * nat) * @ViewGraph.TwoViewGeometry Pose))
    (nearby_node_id : nat) : outcome Vec :=
  if decide (nearby_node_id = target_node_id) then Ret zeros6
  else
    match OrdDict.get (view_pair target_node_id nearby_node_id)
            two_view_geometries with
    | Some g => Ret (to_vec (ViewGraph.rel_pose g))
    | None => Raise AssertionError
    end.

(** The loop over [selected_ids]. *)
Fixpoint collect (target_node_id : nat)
    (two_view_geometries :
       list ((nat * nat) * @ViewGraph.TwoViewGeometry Pose))
    (idx_to_node_id : gmap nat nat) (selected_ids : list nat)
  : outcome (list Vec) :=
  match selected_ids with
  | [] => Ret []
  | nearby_id :: rest =>
      nearby_node_id ← map_get idx_to_node_id nearby_id;
      rel_pose ← rel_pose_of target_node_id two_view_geometries
                   nearby_node_id;
      rel_poses ← collect target_node_id two_view_geometries idx_to_node_id
                    rest;
      Ret (rel_pose :: rel_poses)
  end.

(** [get_relative_poses(target_id, two_view_geometries, idx_to_node_id,
    selected_ids)]; [np.stack] of an empty list raises [ValueError]. *)
Definition get_relative_poses (target_id : nat)
    (two_view_geometries :
       list ((nat * nat) * @ViewGraph.TwoViewGeometry Pose))
    (idx_to_node_id : gmap nat nat) (selected_ids : list nat)
  : outcome (list Vec) :=
  target_node_id ← map_get idx_to_node_id target_id;
  rel_poses ← collect target_node_id two_view_geometries idx_to_node_id
                selected_ids;
  match rel_poses with
  | [] => Raise ValueError
  | _ => Ret rel_poses
  end.

End relative_poses.
End RelativePoses.

(** ** [PoseInitializer.total_track_elements] ([dbarf/pose_util.py]) *)

Module PoseInitializer.

Definition total_track_elements {A : Type} (tracks : list (Z * list A))
  : nat :=
  foldl (λ num_track_elements kt, num_track_elements + length kt.2) 0 tracks.

End PoseInitializer.

(** ** [load_track_elements] ([dbarf/geometry/track.py])

  The rows of the table [two_view_geometries] are read from a COLMAP
  database; the model starts from the rows, each with the two image ids
  decoded from its pair id and its matches, if any, as a list of pairs of
  keypoint indices. *)

Module TrackLoading.
Section load_track_elements.
(** [str(image_id) + '_' + str(point2d_idx)]: the image ids come from
    [pair_id_to_image_ids] of another package, so the text of a key is left
    open. *)
Context (track_key : Z → Z → string).

Record Row : Type := mkRow {
  row_image_id1 : Z;
  row_image_id2 : Z;
  row_matches : option (list (Z * Z))
}.

(** The three variables the loop updates. *)
Record State : Type := mkState {
  track_key_to_id : list (string * nat);
  track_elements : list Track.TrackElement;
  track_element_pairs : list (nat * nat)
}.

(** The [if track_key in track_key_to_id.keys(): ... else: ...] block: the
    id used for the pair, and the state after it. *)
Definition track_id (key : string) (track_element : Track.TrackElement)
    (st : State) : nat * State :=
  match OrdDict.get key (track_key_to_id st) with
  | Some id => (id, st)
  | None =>
      (length (track_key_to_id st),
       mkState
         (OrdDict.set key (length (track_key_to_id st) + 1)
            (track_key_to_id st))
         (track_elements st ++ [track_element])
         (track_element_pairs st))
  end.

(** The body of [for match_indices in matches]. *)
Definition add_match (image_id1 image_id2 : Z) (st : State)
    (match_indices : Z * Z) : State :=
  let point2d_idx1 := match_indices.1 in
  let point2d_idx2 := match_indices.2 in
  let '(track_id1, st1) :=
    track_id (track_key image_id1 point2d_idx1)
      (Track.mkTrackElement image_id1 point2d_idx1) st in
  let '(track_id2, st2) :=
    track_id (track_key image_id2 point2d_idx2)
      (Track.mkTrackElement image_id2 point2d_idx2) st1 in
  mkState (track_key_to_id st2) (track_elements st2)
    (track_element_pairs st2 ++ [(track_id1, track_id2)]).

(** The body of [for rows in cursor]. *)
Definition add_row (st : State) (row : Row) : State :=
  match row_matches row with
  | None => st
  | Some matches =>
      foldl (add_match (row_image_id1 row - 1) (row_image_id2 row - 1))
        st matches
  end.

(** The state when the loop over the rows ends. *)
Definition load (rows : list Row) : State :=
  foldl add_row (mkState [] [] []) rows.

(** [load_track_elements(database_path)], on the rows of the database. *)
Definition load_track_elements (rows : list Row)
  : list Track.TrackElement * list (nat * nat) :=
  (track_elements (load rows), track_element_pairs (load rows)).

End load_track_elements.
End TrackLoading.
(** ** Facts on insertion-ordered dictionaries *)

Module OrdDictFacts.
Import OrdDict.
Section ord_dict.
Context {K V : Type} `{EqDecision K}.
Implicit Types (d : list (K * V)) (k : K) (v : V).

Lemma get_Some_elem k v d : get k d = Some v → (k, v) ∈ d.
Proof.
  induction d as [|[k' v'] d IH]; simpl; [done|].
  case_decide; intros ?; simplify_eq; [left | right; auto].
Qed.

Lemma elem_get k v d : wf d → (k, v) ∈ d → get k d = Some v.
Proof.
  unfold wf, keys. induction d as [|[k' v'] d IH]; simpl.
  - by intros _ ?%elem_of_nil.
  - intros [Hni Hnd]%NoDup_cons [?|Hin]%elem_of_cons; simplify_eq.
    + by rewrite decide_True.
    + rewrite decide_False; [auto|].
      intros ->. apply Hni. apply list_elem_of_fmap. by exists (k', v).
Qed.

Lemma get_None k d : get k d = None ↔ k ∉ keys d.
Proof.
  unfold keys. induction d as [|[k' v'] d IH]; simpl.
  - split; [intros _; apply not_elem_of_nil | done].
  - rewrite not_elem_of_cons. case_decide; subst.
    + split; [done | by intros [? _]].
    + rewrite IH. naive_solver.
Qed.

Lemma get_is_Some k d : is_Some (get k d) ↔ k ∈ keys d.
Proof.
  destruct (get k d) eqn:E.
  - split; [intros _ | eauto].
    apply get_Some_elem in E. apply list_elem_of_fmap. by exists (k, v).
  - apply get_None in E. split; [by intros [? ?] | done].
Qed.

Lemma get_set k k' v d :
  get k' (set k v d) = if decide (k' = k) then Some v else get k' d.
Proof.
  induction d as [|[k0 v0] d IH]; simpl.
  - by repeat case_decide.
  - destruct (decide (k = k0)) as [->|Hk]; simpl.
    + by destruct (decide (k' = k0)).
    + rewrite IH. destruct (decide (k' = k0)) as [->|]; [|done].
      by rewrite decide_False.
Qed.

Lemma keys_set_in k v d : k ∈ keys d → keys (set k v d) = keys d.
Proof.
  unfold keys. induction d as [|[k0 v0] d IH]; simpl.
  - by intros ?%elem_of_nil.
  - intros Hin. case_decide; simplify_eq; simpl; [done|].
    f_equal. apply IH. by apply elem_of_cons in Hin as [?|?].
Qed.

Lemma keys_set_notin k v d : k ∉ keys d → keys (set k v d) = keys d ++ [k].
Proof.
  unfold keys. induction d as [|[k0 v0] d IH]; simpl; [done|].
  intros [? ?]%not_elem_of_cons. rewrite decide_False by done.
  simpl. f_equal. auto.
Qed.

Lemma wf_set k v d : wf d → wf (set k v d).
Proof.
  unfold wf. intros Hd. destruct (decide (k ∈ keys d)) as [Hin|Hni].
  - by rewrite keys_set_in.
  - rewrite keys_set_notin by done. apply NoDup_app. split_and!; [done| |].
    + intros x Hx ->%list_elem_of_singleton. done.
    + apply NoDup_singleton.
Qed.

Lemma elem_pop k0 x d : x ∈ pop k0 d → x ∈ d.
Proof.
  induction d as [|[k' v'] d IH]; simpl; [done|].
  case_decide; [by right|].
  intros [?|?]%elem_of_cons; [subst; left | right; auto].
Qed.

Lemma keys_pop_subseteq k0 d : keys (pop k0 d) ⊆ keys d.
Proof.
  intros k [[k1 v1] [-> Hin]]%list_elem_of_fmap.
  apply list_elem_of_fmap. exists (k1, v1). eauto using elem_pop.
Qed.

Lemma wf_pop k d : wf d → wf (pop k d).
Proof.
  unfold wf, keys. induction d as [|[k' v'] d IH]; simpl; [done|].
  intros [Hni Hnd]%NoDup_cons. case_decide; [done|].
  simpl. apply NoDup_cons. split; [|auto].
  intros Hin. apply Hni. by apply (keys_pop_subseteq k).
Qed.

Lemma get_pop k k' d :
  wf d → get k' (pop k d) = if decide (k' = k) then None else get k' d.
Proof.
  unfold wf, keys. induction d as [|[k0 v0] d IH]; simpl.
  - by case_decide.
  - intros [Hni Hnd]%NoDup_cons.
    destruct (decide (k = k0)) as [->|Hk]; simpl.
    + destruct (decide (k' = k0)) as [->|]; [|done]. by apply get_None.
    + rewrite IH by done. destruct (decide (k' = k0)) as [->|]; [|done].
      by rewrite decide_False.
Qed.
Lemma elem_set k v d e :
  wf d → e ∈ set k v d → e = (k, v) ∨ (e ∈ d ∧ e.1 ≠ k).
Proof.
  unfold wf, keys. induction d as [|[k0 v0] d IH]; simpl.
  - intros _ ?%list_elem_of_singleton. by left.
  - intros [Hni Hnd]%NoDup_cons. destruct (decide (k = k0)) as [->|Hk].
    + intros [->|Hin]%elem_of_cons; [by left|right].
      split; [by right|]. intros <-. apply Hni.
      apply list_elem_of_fmap. by exists e.
    + intros [->|Hin]%elem_of_cons.
      * right. split; [by left|]. simpl. congruence.
      * destruct (IH Hnd Hin) as [->|[? ?]]; [by left|right].
        split; [by right|done].
Qed.

Lemma keys_set_subseteq k v d : keys d ⊆ keys (set k v d).
Proof.
  intros k' Hk'. destruct (decide (k ∈ keys d)).
  - by rewrite keys_set_in.
  - rewrite keys_set_notin by done. apply elem_of_app. by left.
Qed.

Lemma keys_set_key k v d : k ∈ keys (set k v d).
Proof.
  destruct (decide (k ∈ keys d)).
  - by rewrite keys_set_in.
  - rewrite keys_set_notin by done. apply elem_of_app. right. by left.
Qed.

Lemma set_set k v v' d : set k v (set k v' d) = set k v d.
Proof.
  induction d as [|[k0 v0] d IH]; simpl.
  - by rewrite decide_True.
  - destruct (decide (k = k0)) as [->|Hne]; simpl.
    + by rewrite decide_True.
    + rewrite decide_False by done. by rewrite IH.
Qed.

Lemma set_fresh k v d : k ∉ keys d → set k v d = d ++ [(k, v)].
Proof.
  unfold keys. induction d as [|[k0 v0] d IH]; simpl; [done|].
  intros [? ?]%not_elem_of_cons. rewrite decide_False by done.
  by rewrite IH.
Qed.

Lemma set_get_id k v d : get k d = Some v → set k v d = d.
Proof.
  induction d as [|[k0 v0] d IH]; simpl; [done|].
  destruct (decide (k = k0)) as [->|Hne].
  - by intros [= ->].
  - intros Hg. by rewrite IH.
Qed.

End ord_dict.
End OrdDictFacts.


(** ** Facts on lists *)

Module ListFacts.

Lemma filter_none {A} (P : A → Prop) `{∀ x, Decision (P x)} (l : list A) :
  (∀ x, x ∈ l → ¬ P x) → filter P l = [].
Proof.
  induction l as [|a l IH]; intros Hl; [done|].
  rewrite filter_cons_False by (apply Hl; left).
  apply IH. intros x Hx. apply Hl. by right.
Qed.

End ListFacts.

(** ** Facts on graphs *)

Module GraphFacts.
Import Graph.
Section graph.
Context {W : Type}.
Implicit Types (g : list (nat * list (nat * W))) (w : W) (a b u v : nat).

(** The weight recorded for [b] among the neighbours of [a]. *)
Definition adj g a b : option W := OrdDict.get a g ≫= OrdDict.get b.

Definition is_node g a : Prop := is_Some (OrdDict.get a g).

(** Every neighbour is a node. *)
Definition closed g : Prop := ∀ a b, is_Some (adj g a b) → is_node g b.

Lemma get_add_node g u a :
  OrdDict.get a (add_node u g) =
  if decide (a = u) then Some (default [] (OrdDict.get u g))
  else OrdDict.get a g.
Proof.
  unfold add_node. destruct (OrdDict.get u g) as [nbrs|] eqn:Hu.
  - case_decide; by subst.
  - rewrite OrdDictFacts.get_set. by case_decide.
Qed.

Lemma get_set_adj g u v w a :
  OrdDict.get a (set_adj u v w g) =
  if decide (a = u) then OrdDict.set v w <$> OrdDict.get u g
  else OrdDict.get a g.
Proof.
  unfold set_adj. destruct (OrdDict.get u g) as [nbrs|] eqn:Hu.
  - rewrite OrdDictFacts.get_set. by case_decide.
  - case_decide; by subst.
Qed.

Lemma adj_add_node g u a b : adj (add_node u g) a b = adj g a b.
Proof.
  unfold adj. rewrite get_add_node. case_decide; [subst|done].
  by destruct (OrdDict.get u g).
Qed.

Lemma is_node_add_node g u a : is_node (add_node u g) a ↔ a = u ∨ is_node g a.
Proof.
  unfold is_node. rewrite get_add_node. case_decide; subst.
  - split; [by left|eauto].
  - split; [by right|]. by intros [?|?].
Qed.

Lemma is_node_set_adj g u v w a : is_node (set_adj u v w g) a ↔ is_node g a.
Proof.
  unfold is_node. rewrite get_set_adj. case_decide; subst; [|done].
  by rewrite fmap_is_Some.
Qed.

Lemma adj_set_adj g u v w a b :
  is_node g u →
  adj (set_adj u v w g) a b =
  if decide (a = u ∧ b = v) then Some w else adj g a b.
Proof.
  intros [nbrs Hu]. unfold adj. rewrite get_set_adj.
  destruct (decide (a = u)) as [->|Hne].
  - rewrite Hu. simpl. rewrite OrdDictFacts.get_set.
    destruct (decide (b = v)) as [->|?].
    + by rewrite decide_True.
    + by rewrite decide_False by naive_solver.
  - by rewrite decide_False by naive_solver.
Qed.

Lemma is_node_add_edge g u v w a :
  is_node (add_edge u v w g) a ↔ a = u ∨ a = v ∨ is_node g a.
Proof.
  unfold add_edge. rewrite !is_node_set_adj, !is_node_add_node. tauto.
Qed.

Lemma adj_add_edge g u v w a b :
  adj (add_edge u v w g) a b =
  if decide ((a = u ∧ b = v) ∨ (a = v ∧ b = u)) then Some w else adj g a b.
Proof.
  unfold add_edge.
  rewrite adj_set_adj
    by (rewrite is_node_set_adj, !is_node_add_node; tauto).
  rewrite adj_set_adj by (rewrite !is_node_add_node; tauto).
  rewrite !adj_add_node.
  repeat case_decide; try done; naive_solver.
Qed.

Lemma wf_add_node g u : OrdDict.wf g → OrdDict.wf (add_node u g).
Proof.
  unfold add_node. destruct (OrdDict.get u g); [done|].
  apply OrdDictFacts.wf_set.
Qed.

Lemma wf_set_adj g u v w : OrdDict.wf g → OrdDict.wf (set_adj u v w g).
Proof.
  unfold set_adj. destruct (OrdDict.get u g); [|done].
  apply OrdDictFacts.wf_set.
Qed.

Lemma wf_add_edge g u v w : OrdDict.wf g → OrdDict.wf (add_edge u v w g).
Proof.
  intros. unfold add_edge. by do 2 apply wf_set_adj; do 2 apply wf_add_node.
Qed.

Lemma closed_add_edge g u v w : closed g → closed (add_edge u v w g).
Proof.
  intros Hc a b. rewrite adj_add_edge, is_node_add_edge.
  case_decide as H; [naive_solver|]. intros ?%Hc. tauto.
Qed.

Lemma closed_empty : closed (@empty W).
Proof. by intros a b [? ?]. Qed.

Lemma weight_adj g a b : weight g a b =
  match adj g a b with Some w => Ret w | None => Raise KeyError end.
Proof.
  unfold weight, adj. destruct (OrdDict.get a g); [|done]. simpl.
  by destruct (OrdDict.get b _).
Qed.

Lemma neighbors_adj g a nbrs b :
  neighbors g a = Ret nbrs → b ∈ nbrs → is_Some (adj g a b).
Proof.
  unfold neighbors, adj. destruct (OrdDict.get a g) as [l|]; [|done].
  intros [= <-] Hb. simpl. by apply OrdDictFacts.get_is_Some.
Qed.

Lemma neighbors_is_node g a : is_node g a → is_Ret (neighbors g a).
Proof. intros [l Hl]. unfold neighbors. rewrite Hl. by eexists. Qed.

(** The edges [edges] lists are in the adjacency structure. *)
Lemma elem_of_edges_from seen g a b w :
  (a, b, w) ∈ edges_from seen g →
  ∃ nbrs, (a, nbrs) ∈ g ∧ (b, w) ∈ nbrs.
Proof.
  revert seen. induction g as [|[n nbrs] g IH]; intros seen; simpl.
  - by intros ?%elem_of_nil.
  - intros [Hin|Hin]%elem_of_app.
    + apply list_elem_of_fmap in Hin as [[b' w'] [[= -> -> ->] Hin]].
      apply list_elem_of_filter in Hin as [_ Hin].
      exists nbrs. split; [left|done].
    + destruct (IH _ Hin) as (nbrs'&?&?). exists nbrs'. split; [by right|done].
Qed.

Lemma elem_of_edges g a b w :
  OrdDict.wf g → (a, b, w) ∈ edges g → is_Some (adj g a b).
Proof.
  intros Hwf (nbrs&Ha&Hb)%elem_of_edges_from.
  unfold adj. rewrite (OrdDictFacts.elem_get _ _ _ Hwf Ha). simpl.
  apply OrdDictFacts.get_is_Some, list_elem_of_fmap. by exists (b, w).
Qed.

Lemma keys_nodes_only g : OrdDict.keys (nodes_only g) = OrdDict.keys g.
Proof.
  unfold nodes_only, OrdDict.keys. rewrite <-list_fmap_compose.
  by apply list_fmap_ext.
Qed.

Lemma is_node_nodes_only g a : is_node (nodes_only g) a ↔ is_node g a.
Proof.
  unfold is_node. by rewrite !OrdDictFacts.get_is_Some, keys_nodes_only.
Qed.

Lemma adj_nodes_only g a b : adj (nodes_only g) a b = None.
Proof.
  unfold adj. destruct (OrdDict.get a (nodes_only g)) as [l|] eqn:Hl; [|done].
  apply OrdDictFacts.get_Some_elem in Hl.
  apply list_elem_of_fmap in Hl as [[n nbrs] [[= -> ->] _]]. done.
Qed.

Lemma add_edges_from_spec es : ∀ g,
  OrdDict.wf g → closed g →
  let g' := add_edges_from es g in
  OrdDict.wf g' ∧ closed g' ∧
  (∀ a, is_node g a → is_node g' a) ∧
  (∀ a b, is_Some (adj g' a b) →
     is_Some (adj g a b) ∨ ∃ w, (a, b, w) ∈ es ∨ (b, a, w) ∈ es).
Proof.
  induction es as [|[[u v] w] es IH]; intros g Hwf Hc; simpl.
  - split_and!; [done..|]. intros a b ?. by left.
  - destruct (IH (add_edge u v w g) (wf_add_edge _ _ _ _ Hwf)
                (closed_add_edge _ _ _ _ Hc)) as (Hwf'&Hc'&Hn&Ha).
    split_and!; [done..| |].
    + intros a Hna. apply Hn, is_node_add_edge. tauto.
    + intros a b Hab. destruct (Ha a b Hab) as [Hs|(w'&Hin)].
      * rewrite adj_add_edge in Hs. case_decide as Hd; [|by left].
        right. exists w. destruct Hd as [[-> ->]|[-> ->]]; [left|right]; left.
      * right. exists w'. destruct Hin; [left|right]; by right.
Qed.

End graph.

(** *** Kruskal's algorithm keeps edges of the graph *)

Lemma elem_of_insert_by_weight e e0 l :
  e ∈ insert_by_weight e0 l ↔ e = e0 ∨ e ∈ l.
Proof.
  induction l as [|e' l IH]; simpl.
  - rewrite list_elem_of_singleton, elem_of_nil. tauto.
  - destruct (Float64.ltb _ _).
    + rewrite !elem_of_cons, IH. tauto.
    + rewrite !elem_of_cons. tauto.
Qed.

Lemma elem_of_sort_by_weight e l : e ∈ sort_by_weight l ↔ e ∈ l.
Proof.
  induction l as [|e' l IH]; simpl; [done|].
  rewrite elem_of_insert_by_weight, IH, elem_of_cons. tauto.
Qed.

Lemma length_insert_by_weight e0 l :
  length (insert_by_weight e0 l) = S (length l).
Proof.
  induction l as [|e' l IH]; simpl; [done|].
  destruct (Float64.ltb _ _); simpl; by rewrite ?IH.
Qed.

Lemma length_sort_by_weight l : length (sort_by_weight l) = length l.
Proof.
  induction l as [|e' l IH]; simpl; [done|].
  by rewrite length_insert_by_weight, IH.
Qed.

Lemma elem_of_kruskal e l : ∀ labels, e ∈ kruskal labels l → e ∈ l.
Proof.
  induction l as [|[[u v] w] l IH]; intros labels; simpl; [done|].
  case_decide.
  - intros [->|?]%elem_of_cons; [left|right; eauto].
  - intros ?. right. eauto.
Qed.

Lemma length_kruskal l : ∀ labels, length (kruskal labels l) ≤ length l.
Proof.
  induction l as [|[[u v] w] l IH]; intros labels; simpl; [done|].
  case_decide; simpl.
  - specialize (IH (join_subtrees labels u v)). lia.
  - specialize (IH labels). lia.
Qed.

(** The minimum spanning tree has the nodes of the graph and some of its
    edges. *)
Lemma minimum_spanning_tree_spec g mst :
  OrdDict.wf g →
  minimum_spanning_tree g = Ret mst →
  OrdDict.wf mst ∧ closed mst ∧
  (∀ a, is_node g a → is_node mst a) ∧
  (∀ a b, is_Some (adj mst a b) → is_Some (adj g a b) ∨ is_Some (adj g b a)).
Proof.
  intros Hwf. unfold minimum_spanning_tree, kruskal_mst_edges.
  destruct (existsb _ _); [done|]. cbn. intros [= <-].
  assert (Hwf0 : OrdDict.wf (nodes_only g)).
  { unfold OrdDict.wf. by rewrite keys_nodes_only. }
  assert (Hc0 : closed (nodes_only g)).
  { intros a b. rewrite adj_nodes_only. by intros [? ?]. }
  destruct (add_edges_from_spec (kruskal ∅ (sort_by_weight (edges g)))
              (nodes_only g) Hwf0 Hc0) as (Hwf'&Hc'&Hn&Ha).
  split_and!; [done..| |].
  - intros a Hna. by apply Hn, is_node_nodes_only.
  - intros a b Hab. destruct (Ha a b Hab) as [Hs|(w&Hin)].
    + rewrite adj_nodes_only in Hs. by destruct Hs.
    + destruct Hin as [Hin|Hin];
        apply elem_of_kruskal in Hin;
        rewrite elem_of_sort_by_weight in Hin;
        apply (elem_of_edges _ _ _ _ Hwf) in Hin; tauto.
Qed.

End GraphFacts.

(** ** Facts on priority queues *)

Module PriorityQueueFacts.
Import PriorityQueue.

Section queue.
Context {A : Type} (lt : A → A → bool).

(** [x] is not above [y]. *)
Definition le (x y : A) : Prop := lt y x = false.

Hypothesis lt_asym : ∀ x y, lt x y = true → lt y x = false.
Hypothesis le_trans : ∀ x y z, le x y → le y z → le x z.

Lemma put_perm x qu : put lt x qu ≡ₚ x :: qu.
Proof.
  induction qu as [|y qu IH]; simpl; [done|].
  destruct (lt x y); [done|]. rewrite IH. apply Permutation_swap.
Qed.

Lemma put_sorted x qu :
  StronglySorted le qu → StronglySorted le (put lt x qu).
Proof.
  induction 1 as [|y qu Hs IH Hall]; simpl.
  - repeat constructor.
  - destruct (lt x y) eqn:Hxy.
    + constructor; [by constructor|]. constructor; [by apply lt_asym|].
      eapply Forall_impl; [done|]. intros z Hz.
      eapply le_trans; [|done]. by apply lt_asym.
    + constructor; [done|]. rewrite put_perm. by constructor.
Qed.

Lemma length_put x qu : length (put lt x qu) = S (length qu).
Proof. by rewrite put_perm. Qed.

End queue.

Lemma lt_node_spec x y :
  lt_node x y = true ↔ (x.1 < y.1)%Z ∨ (x.1 = y.1 ∧ x.2 < y.2).
Proof.
  unfold lt_node.
  by rewrite orb_true_iff, andb_true_iff, !bool_decide_eq_true.
Qed.

Lemma lt_node_asym x y : lt_node x y = true → lt_node y x = false.
Proof.
  intros H%lt_node_spec. apply not_true_iff_false. rewrite lt_node_spec. lia.
Qed.

Lemma le_node_spec x y :
  le lt_node x y ↔ (x.1 < y.1)%Z ∨ (x.1 = y.1 ∧ x.2 ≤ y.2).
Proof. unfold le. rewrite <-not_true_iff_false, lt_node_spec. lia. Qed.

Lemma le_node_trans x y z :
  le lt_node x y → le lt_node y z → le lt_node x z.
Proof. rewrite !le_node_spec. lia. Qed.

Lemma lt_edge_spec x y :
  lt_edge x y = true ↔
  (x.1 < y.1)%Z ∨
  (x.1 = y.1 ∧ (x.2.1 < y.2.1 ∨ (x.2.1 = y.2.1 ∧ x.2.2 < y.2.2))).
Proof.
  unfold lt_edge.
  by rewrite !orb_true_iff, !andb_true_iff, !orb_true_iff, !andb_true_iff,
    !bool_decide_eq_true.
Qed.

End PriorityQueueFacts.

(** ** Correctness of the size-bounded union-find *)

Module UnionFindProofs.
Import UnionFind.

(** [ranks[i]], 0 out of range. *)
Definition rank (s : t) (i : nat) : nat := default 0 (ranks s !! i).

(** The indices a representative function [R] sends to [r]. *)
Definition members (n : nat) (R : nat → nat) (r : nat) : list nat :=
  filter (λ i, R i = r) (seq 0 n).

Definition count (n : nat) (R : nat → nat) (r : nat) : nat :=
  length (members n R r).

(** The state invariant, for [n] nodes, relative to the function [R] that
    sends an index to the root of its tree. *)
Record Inv (n : nat) (s : t) (R : nat → nat) : Prop := {
  inv_parents_len : length (parents s) = n;
  inv_ranks_len : length (ranks s) = n;
  inv_nodes :
    Forall2 (λ i x, node_mapper s !! x = Some i) (seq 0 n) (nodes s);
  inv_mapper : ∀ x i, node_mapper s !! x = Some i → i < n;
  inv_R_lt : ∀ i, i < n → R i < n;
  inv_R_root : ∀ i, i < n → parents s !! R i = Some (R i);
  inv_parent : ∀ i p, parents s !! i = Some p → p < n ∧ R p = R i;
  inv_root : ∀ i, parents s !! i = Some i → R i = i;
  inv_rank : ∀ i p, parents s !! i = Some p → p ≠ i →
    rank s i < rank s p ∧ rank s i < rank s (R i);
  inv_size : ∀ r, r < n → R r = r →
    component_size s !! r = Some (count n R r);
  inv_rank_size : ∀ r, r < n → R r = r → rank s r < count n R r
}.
Arguments inv_parents_len {n s R} _.
Arguments inv_ranks_len {n s R} _.
Arguments inv_nodes {n s R} _.
Arguments inv_mapper {n s R} _ x i _.
Arguments inv_R_lt {n s R} _ i _.
Arguments inv_R_root {n s R} _ i _.
Arguments inv_parent {n s R} _ i p _.
Arguments inv_root {n s R} _ i _.
Arguments inv_rank {n s R} _ i p _ _.
Arguments inv_size {n s R} _ r _ _.
Arguments inv_rank_size {n s R} _ r _ _.

(** Every tree respects the configured cap. *)
Definition Capped (n : nat) (s : t) (R : nat → nat) : Prop :=
  ∀ m r, max_num_per_set s = Some m → r < n → R r = r →
    (Z.of_nat (count n R r) ≤ m)%Z.

(** What [find_root] leaves untouched. *)
Definition frame (s s' : t) : Prop :=
  max_num_per_set s' = max_num_per_set s ∧ ranks s' = ranks s ∧
  nodes s' = nodes s ∧ node_mapper s' = node_mapper s ∧
  component_size s' = component_size s.

Lemma frame_refl s : frame s s.
Proof. by repeat split. Qed.

Lemma frame_trans s1 s2 s3 : frame s1 s2 → frame s2 s3 → frame s1 s3.
Proof. unfold frame. intros (?&?&?&?&?) (?&?&?&?&?). split_and!; congruence. Qed.

Lemma frame_rank s s' i : frame s s' → rank s' i = rank s i.
Proof. intros (_&Hr&_). unfold rank. by rewrite Hr. Qed.

Lemma count_le n R r : count n R r ≤ n.
Proof.
  unfold count, members. etrans; [apply length_filter|]. by rewrite length_seq.
Qed.

Section invariant.
Context (n : nat) (R : nat → nat).

Lemma Inv_R_idem s i : Inv n s R → i < n → R (R i) = R i.
Proof. intros HI Hi. apply (inv_root HI). by apply (inv_R_root HI). Qed.

Lemma Inv_lookup_parent s i : Inv n s R → i < n → ∃ p, parents s !! i = Some p.
Proof.
  intros HI Hi. apply lookup_lt_is_Some. by rewrite (inv_parents_len HI).
Qed.

Lemma Inv_rank_le_root s i : Inv n s R → i < n → rank s i ≤ rank s (R i).
Proof.
  intros HI Hi. destruct (Inv_lookup_parent s i HI Hi) as [p Hp].
  destruct (decide (p = i)) as [->|Hne].
  - by rewrite (inv_root HI _ Hp).
  - destruct (inv_rank HI _ _ Hp Hne). lia.
Qed.

Lemma Inv_rank_lt s i : Inv n s R → i < n → rank s i < n.
Proof.
  intros HI Hi. pose proof (Inv_rank_le_root s i HI Hi).
  pose proof (inv_rank_size HI (R i) (inv_R_lt HI _ Hi)
                (Inv_R_idem s i HI Hi)).
  pose proof (count_le n R (R i)). lia.
Qed.

Lemma Inv_node s p :
  Inv n s R → p < n → ∃ nx, nodes s !! p = Some nx ∧ node_mapper s !! nx = Some p.
Proof.
  intros HI Hp.
  destruct (Forall2_lookup_l _ _ _ p p (inv_nodes HI)) as (nx&?&?).
  - by apply lookup_seq_lt.
  - eauto.
Qed.

(** Path compression: pointing a non-root at its root keeps the invariant,
    with the same representative function. *)
Lemma Inv_compress s idx :
  Inv n s R → idx < n → rank s idx < rank s (R idx) →
  Inv n (set_parents s (<[idx := R idx]> (parents s))) R.
Proof.
  intros HI Hidx Hrk.
  assert (Hnr : ∀ i, i < n → R i ≠ idx).
  { intros i Hi Heq. pose proof (Inv_R_idem s i HI Hi) as Hid.
    rewrite Heq in Hid. rewrite Hid in Hrk. lia. }
  assert (Hlen : idx < length (parents s)) by by rewrite (inv_parents_len HI).
  destruct HI as [H1 H2 H3 H4 H5 H6 H7 H8 H9 H10 H11].
  split; simpl; try done.
  - by rewrite length_insert.
  - intros i Hi. rewrite list_lookup_insert_ne by (intros ?; by eapply Hnr).
    auto.
  - intros i p. destruct (decide (i = idx)) as [->|Hne].
    + rewrite list_lookup_insert_eq by done. intros [= <-].
      split; [auto|]. apply H8. auto.
    + rewrite list_lookup_insert_ne by done. auto.
  - intros i. destruct (decide (i = idx)) as [->|Hne].
    + rewrite list_lookup_insert_eq by done. by intros [= ?].
    + rewrite list_lookup_insert_ne by done. auto.
  - intros i p. destruct (decide (i = idx)) as [->|Hne].
    + rewrite list_lookup_insert_eq by done. intros [= <-] _. done.
    + rewrite list_lookup_insert_ne by done. apply H9.
Qed.

(** [find_root] on a valid id returns the representative of its index and
    keeps the invariant; it runs out of fuel only below [n - rank]. *)
Lemma find_root_spec fuel : ∀ s x idx,
  Inv n s R → node_mapper s !! x = Some idx →
  match find_root fuel s x with
  | Ret (s', r) => r = R idx ∧ Inv n s' R ∧ frame s s'
  | Raise _ => False
  | OutOfFuel => fuel + rank s idx < n
  end.
Proof.
  induction fuel as [|fuel IH]; intros s x idx HI Hx.
  - simpl. eapply Inv_rank_lt; [done|]. by eapply (inv_mapper HI).
  - pose proof (inv_mapper HI _ _ Hx) as Hidx.
    destruct (Inv_lookup_parent s idx HI Hidx) as [p Hp].
    cbn [find_root]. unfold map_get, list_get. rewrite Hx. cbn. rewrite Hp. cbn.
    destruct (decide (p = idx)) as [->|Hne].
    { split_and!; [|done|apply frame_refl].
      symmetry. by eapply (inv_root HI). }
    destruct (inv_parent HI _ _ Hp) as [Hpn HRp].
    destruct (inv_rank HI _ _ Hp Hne) as [Hr1 Hr2].
    destruct (Inv_node s p HI Hpn) as (nx&Hnx&Hmx).
    rewrite Hnx. cbn.
    specialize (IH s nx p HI Hmx).
    destruct (find_root fuel s nx) as [[s1 r]| |]; cbn; [|done|lia].
    destruct IH as (->&HI1&Hfr).
    unfold list_set. rewrite decide_True
      by by rewrite (inv_parents_len HI1).
    cbn. rewrite HRp. split_and!; [done| |].
    + apply Inv_compress; [done..|]. by rewrite !(frame_rank s s1).
    + destruct Hfr as (?&?&?&?&?). by repeat split.
Qed.

Lemma find_root_total fuel s x idx :
  Inv n s R → node_mapper s !! x = Some idx → n ≤ fuel →
  ∃ s', find_root fuel s x = Ret (s', R idx) ∧ Inv n s' R ∧ frame s s'.
Proof.
  intros HI Hx Hfuel. pose proof (find_root_spec fuel s x idx HI Hx) as H.
  destruct (find_root fuel s x) as [[s' r]| |]; [|done|lia].
  destruct H as (->&?&?). eauto.
Qed.

Lemma root_of_total fuel s x idx :
  Inv n s R → node_mapper s !! x = Some idx → n ≤ fuel →
  root_of fuel s x = Some (R idx).
Proof.
  intros HI Hx Hfuel. unfold root_of.
  by destruct (find_root_total fuel s x idx HI Hx Hfuel) as (s'&->&_).
Qed.

End invariant.

(** *** Linking two roots *)

(** The representative function after the tree of root [a] is hung under
    root [b]. *)
Definition merge (R : nat → nat) (a b : nat) : nat → nat :=
  λ i, if decide (R i = a) then b else R i.

Lemma filter_merge_root (R : nat → nat) (a b : nat) (l : list nat) :
  a ≠ b →
  length (filter (λ i, merge R a b i = b) l) =
  length (filter (λ i, R i = a) l) + length (filter (λ i, R i = b) l).
Proof.
  intros Hab. induction l as [|i l IH]; [done|].
  destruct (decide (R i = a)) as [Ha|Ha].
  - rewrite (filter_cons_True (λ i, merge R a b i = b))
      by (unfold merge; by rewrite decide_True).
    rewrite (filter_cons_True (λ i, R i = a)) by done.
    rewrite (filter_cons_False (λ i, R i = b)) by congruence.
    simpl. by rewrite IH.
  - rewrite (filter_cons_False (λ i, R i = a)) by done.
    destruct (decide (R i = b)) as [Hb|Hb].
    + rewrite (filter_cons_True (λ i, merge R a b i = b))
        by (unfold merge; by rewrite decide_False).
      rewrite (filter_cons_True (λ i, R i = b)) by done.
      simpl. rewrite IH. lia.
    + rewrite (filter_cons_False (λ i, merge R a b i = b))
        by (unfold merge; by rewrite decide_False).
      by rewrite (filter_cons_False (λ i, R i = b)) by done.
Qed.

Lemma filter_merge_other (R : nat → nat) (a b r : nat) (l : list nat) :
  r ≠ a → r ≠ b →
  filter (λ i, merge R a b i = r) l = filter (λ i, R i = r) l.
Proof.
  intros Hra Hrb. apply list_filter_iff. intros i. unfold merge.
  case_decide; naive_solver.
Qed.

Lemma count_merge_root n R a b :
  a ≠ b → count n (merge R a b) b = count n R a + count n R b.
Proof. intros. by apply filter_merge_root. Qed.

Lemma count_merge_other n R a b r :
  r ≠ a → r ≠ b → count n (merge R a b) r = count n R r.
Proof. intros. unfold count, members. by rewrite filter_merge_other. Qed.

Lemma Inv_link n R s a b rs' v :
  Inv n s R → a < n → b < n → R a = a → R b = b → a ≠ b →
  length rs' = n →
  (∀ i, i ≠ b → default 0 (rs' !! i) = rank s i) →
  rank s b ≤ default 0 (rs' !! b) →
  rank s a < default 0 (rs' !! b) →
  default 0 (rs' !! b) < count n R a + count n R b →
  v = count n R a + count n R b →
  Inv n (mk (max_num_per_set s) rs' (<[a := b]> (parents s)) (nodes s)
            (node_mapper s) (<[b := v]> (component_size s)))
        (merge R a b).
Proof.
  intros HI Ha Hb HRa HRb Hab Hlen Hrs Hrb1 Hrb2 Hrb3 ->.
  assert (Hla : a < length (parents s)) by by rewrite (inv_parents_len HI).
  assert (Hpb : parents s !! b = Some b).
  { rewrite <-HRb at 1 2. by apply (inv_R_root HI). }
  assert (Hmono : ∀ i, rank s i ≤ default 0 (rs' !! i)).
  { intros i. destruct (decide (i = b)) as [->|?]; [done|]. by rewrite Hrs. }
  assert (Hne : ∀ i, i < n → merge R a b i ≠ a).
  { intros i Hi. unfold merge. case_decide; congruence. }
  assert (Hroot : ∀ r, r < n → merge R a b r = r →
            r ≠ a ∧ (r = b ∨ (r ≠ b ∧ R r = r))).
  { intros r Hr. unfold merge. case_decide as Hra.
    - intros <-. split; [done|by left].
    - intros Hrr. split; [congruence|].
      destruct (decide (r = b)); [by left|by right]. }
  split; simpl; unfold rank; simpl.
  - by rewrite length_insert, (inv_parents_len HI).
  - done.
  - apply (inv_nodes HI).
  - apply (inv_mapper HI).
  - intros i Hi. unfold merge. case_decide; [done|]. by apply (inv_R_lt HI).
  - intros i Hi. rewrite list_lookup_insert_ne by (symmetry; by apply Hne).
    unfold merge. case_decide; [done|]. by apply (inv_R_root HI).
  - intros i p. destruct (decide (i = a)) as [->|Hia].
    + rewrite list_lookup_insert_eq by done. intros [= <-]. split; [done|].
      unfold merge. rewrite HRa, HRb.
      rewrite (decide_False (P := b = a)) by done. by rewrite decide_True.
    + rewrite list_lookup_insert_ne by done. intros Hp.
      destruct (inv_parent HI _ _ Hp) as [? HR]. split; [done|].
      unfold merge. by rewrite HR.
  - intros i. destruct (decide (i = a)) as [->|Hia].
    + rewrite list_lookup_insert_eq by done. intros [= ?]. by subst.
    + rewrite list_lookup_insert_ne by done. intros Hp.
      unfold merge. rewrite (inv_root HI _ Hp). by rewrite decide_False.
  - intros i p. destruct (decide (i = a)) as [->|Hia].
    + rewrite list_lookup_insert_eq by done. intros [= <-] _.
      rewrite (Hrs a) by done. unfold merge. by rewrite HRa, decide_True.
    + rewrite list_lookup_insert_ne by done. intros Hp Hpi.
      destruct (inv_rank HI _ _ Hp Hpi) as [Hr1 Hr2].
      assert (i ≠ b) by (intros ->; congruence).
      rewrite (Hrs i) by done. split.
      * pose proof (Hmono p). unfold rank in *. lia.
      * unfold merge. case_decide as HRi.
        -- rewrite HRi in Hr2. lia.
        -- pose proof (Hmono (R i)). unfold rank in *. lia.
  - intros r Hr Hrr. destruct (Hroot r Hr Hrr) as [Hra [->|[Hrb HRr]]].
    + rewrite lookup_insert_eq. by rewrite count_merge_root.
    + rewrite lookup_insert_ne by done. rewrite count_merge_other by done.
      by apply (inv_size HI).
  - intros r Hr Hrr. destruct (Hroot r Hr Hrr) as [Hra [->|[Hrb HRr]]].
    + by rewrite count_merge_root.
    + rewrite count_merge_other by done. rewrite Hrs by done.
      by apply (inv_rank_size HI).
Qed.

(** [link] on two distinct roots succeeds; each new tree has the size of an
    old one or the sum of the two linked. *)
Lemma link_merge n R s x y :
  Inv n s R → x < n → y < n → R x = x → R y = y → x ≠ y →
  ∃ s' R', link s x y = Ret s' ∧ Inv n s' R' ∧
    max_num_per_set s' = max_num_per_set s ∧
    node_mapper s' = node_mapper s ∧ nodes s' = nodes s ∧
    (∀ r, r < n → R' r = r →
      (count n R' r = count n R r ∧ R r = r) ∨
      count n R' r = count n R x + count n R y) ∧
    (R' = merge R x y ∨ R' = merge R y x).
Proof.
  intros HI Hx Hy HRx HRy Hxy.
  assert (Hlx : x < length (ranks s)) by by rewrite (inv_ranks_len HI).
  assert (Hly : y < length (ranks s)) by by rewrite (inv_ranks_len HI).
  destruct (lookup_lt_is_Some_2 _ _ Hlx) as [rx Hrx].
  destruct (lookup_lt_is_Some_2 _ _ Hly) as [ry Hry].
  pose proof (inv_size HI x Hx HRx) as Hcx.
  pose proof (inv_size HI y Hy HRy) as Hcy.
  pose proof (inv_rank_size HI x Hx HRx) as Hsx.
  pose proof (inv_rank_size HI y Hy HRy) as Hsy.
  assert (Hrkx : rank s x = rx) by (unfold rank; by rewrite Hrx).
  assert (Hrky : rank s y = ry) by (unfold rank; by rewrite Hry).
  assert (Hother : ∀ a b r, r < n → merge R a b r = r → r ≠ b → R r = r).
  { intros a b r _. unfold merge. case_decide; congruence. }
  unfold link, list_get, map_get, list_set. rewrite Hrx, Hry. cbn.
  destruct (decide (rx < ry)) as [Hlt|Hge].
  - rewrite Hcy, Hcx. cbn.
    rewrite decide_True by by rewrite (inv_parents_len HI).
    cbn. eexists _, (merge R x y). split; [done|].
    unfold set_ranks, set_parents, set_component_size. simpl.
    split_and!; try done.
    + apply Inv_link; try done; try lia;
        [apply (inv_ranks_len HI) | fold (rank s y); lia..].
    + intros r Hr Hrr. destruct (decide (r = y)) as [->|Hne].
      * right. by apply count_merge_root.
      * left. split; [|by eapply Hother].
        apply count_merge_other; [|done].
        intros ->. unfold merge in Hrr. rewrite HRx in Hrr.
        by rewrite decide_True in Hrr.
    + by left.
  - rewrite Hcx, Hcy. cbn.
    rewrite decide_True by by rewrite (inv_parents_len HI).
    cbn. rewrite Hrx, Hry. cbn.
    assert (Hcnt : ∀ r, r < n → merge R y x r = r →
      (count n (merge R y x) r = count n R r ∧ R r = r) ∨
      count n (merge R y x) r = count n R x + count n R y).
    { intros r Hr Hrr. destruct (decide (r = x)) as [->|Hne].
      * right. rewrite count_merge_root by done. lia.
      * left. split; [|by eapply Hother].
        apply count_merge_other; [|done].
        intros ->. unfold merge in Hrr. rewrite HRy in Hrr.
        by rewrite decide_True in Hrr. }
    destruct (decide (rx = ry)) as [Heq|Hneq].
    + rewrite decide_True by by rewrite (inv_ranks_len HI).
      cbn. eexists _, (merge R y x). split; [done|].
      unfold set_ranks, set_parents, set_component_size. simpl.
      split_and!; try done; [|by right].
      apply Inv_link; try done; try lia;
        try (by rewrite length_insert, (inv_ranks_len HI));
        try (intros i Hi; by rewrite list_lookup_insert_ne);
        rewrite list_lookup_insert_eq by done; simpl; lia.
    + eexists _, (merge R y x). split; [done|].
      unfold set_ranks, set_parents, set_component_size. simpl.
      split_and!; try done; [|by right].
      apply Inv_link; try done; try lia;
        [apply (inv_ranks_len HI) | fold (rank s x); lia..].
Qed.

Lemma link_spec n R s x y :
  Inv n s R → x < n → y < n → R x = x → R y = y → x ≠ y →
  ∃ s' R', link s x y = Ret s' ∧ Inv n s' R' ∧
    max_num_per_set s' = max_num_per_set s ∧
    node_mapper s' = node_mapper s ∧ nodes s' = nodes s ∧
    ∀ r, r < n → R' r = r →
      (count n R' r = count n R r ∧ R r = r) ∨
      count n R' r = count n R x + count n R y.
Proof.
  intros HI Hx Hy HRx HRy Hxy.
  destruct (link_merge n R s x y HI Hx Hy HRx HRy Hxy)
    as (s'&R'&?&?&?&?&?&?&_).
  exists s', R'. by split_and!.
Qed.

(** [union] on valid ids keeps the invariant (for a new representative
    function) and the cap. *)
Lemma union_spec n R fuel s x y ix iy :
  Inv n s R → node_mapper s !! x = Some ix → node_mapper s !! y = Some iy →
  match union fuel s x y with
  | Ret s' => ∃ R', Inv n s' R' ∧ (Capped n s R → Capped n s' R') ∧
      max_num_per_set s' = max_num_per_set s ∧
      node_mapper s' = node_mapper s ∧ nodes s' = nodes s
  | Raise _ => False
  | OutOfFuel => fuel < n
  end.
Proof.
  intros HI Hx Hy. unfold union.
  pose proof (find_root_spec n R fuel s x ix HI Hx) as H1.
  destruct (find_root fuel s x) as [[s1 rx]| |]; cbn; [|done|lia].
  destruct H1 as (->&HI1&Hf1).
  assert (Hy1 : node_mapper s1 !! y = Some iy).
  { destruct Hf1 as (_&_&_&->&_). done. }
  pose proof (find_root_spec n R fuel s1 y iy HI1 Hy1) as H2.
  destruct (find_root fuel s1 y) as [[s2 ry]| |]; cbn; [|done|lia].
  destruct H2 as (->&HI2&Hf2).
  pose proof (frame_trans _ _ _ Hf1 Hf2) as (Hmax&_&Hnodes&Hmap&_).
  pose proof (inv_mapper HI _ _ Hx) as Hix.
  pose proof (inv_mapper HI _ _ Hy) as Hiy.
  assert (Hcap_same : Capped n s R → Capped n s2 R).
  { intros HC m r Hm. apply HC. by rewrite <-Hmax. }
  destruct (decide (R ix = R iy)) as [Heq|Hne].
  { exists R. by split_and!. }
  pose proof (inv_R_lt HI2 _ Hix) as Hrx.
  pose proof (inv_R_lt HI2 _ Hiy) as Hry.
  pose proof (Inv_R_idem n R s2 ix HI2 Hix) as Hidx.
  pose proof (Inv_R_idem n R s2 iy HI2 Hiy) as Hidy.
  destruct (link_spec n R s2 (R ix) (R iy) HI2 Hrx Hry Hidx Hidy Hne)
    as (s'&R'&Hlink&HI'&Hmax'&Hmap'&Hnodes'&Hcnt).
  destruct (max_num_per_set s2) as [m|] eqn:Hm.
  - unfold map_get. rewrite (inv_size HI2 _ Hrx Hidx), (inv_size HI2 _ Hry Hidy).
    cbn. destruct (decide (m < Z.of_nat _)%Z) as [Hbig|Hok].
    + exists R. split_and!; [exact HI2 | exact Hcap_same | congruence..].
    + rewrite Hlink. exists R'. split_and!; try congruence.
      intros HC m' r Hm' Hr HRr. rewrite Hmax' in Hm'. simplify_eq.
      destruct (Hcnt r Hr HRr) as [[-> HR]| ->]; [|lia].
      by apply (Hcap_same HC).
  - rewrite Hlink. exists R'. split_and!; congruence.
Qed.

(** A pair of valid node ids, for a given [node_mapper]. *)
Definition valid_pair (mapper : gmap nat nat) (p : nat * nat) : Prop :=
  is_Some (mapper !! p.1) ∧ is_Some (mapper !! p.2).

Lemma unions_spec n fuel pairs : ∀ R s,
  Inv n s R → Forall (valid_pair (node_mapper s)) pairs →
  match unions fuel s pairs with
  | Ret s' => ∃ R', Inv n s' R' ∧ (Capped n s R → Capped n s' R') ∧
      max_num_per_set s' = max_num_per_set s ∧
      node_mapper s' = node_mapper s ∧ nodes s' = nodes s
  | Raise _ => False
  | OutOfFuel => fuel < n
  end.
Proof.
  induction pairs as [|[x y] pairs IH]; intros R s HI Hv; simpl.
  - exists R. by split_and!.
  - apply Forall_cons in Hv as [[[ix Hx] [iy Hy]] Hv]. simpl in *.
    pose proof (union_spec n R fuel s x y ix iy HI Hx Hy) as Hu.
    destruct (union fuel s x y) as [s1| |]; cbn; [|done..].
    destruct Hu as (R1&HI1&HC1&Hmax1&Hmap1&Hnodes1).
    rewrite <-Hmap1 in Hv. specialize (IH R1 s1 HI1 Hv).
    destruct (unions fuel s1 pairs) as [s2| |]; [|done..].
    destruct IH as (R2&HI2&HC2&Hmax2&Hmap2&Hnodes2).
    exists R2. split_and!; [done|tauto|congruence..].
Qed.

(** The same on ids that may be invalid: the call may raise, and runs out of
    fuel only when given no more than [n]. *)
Lemma find_root_spec_any n R fuel s x :
  Inv n s R →
  match find_root fuel s x with
  | Ret (s', r) => Inv n s' R ∧ frame s s' ∧
      ∃ idx, node_mapper s !! x = Some idx ∧ r = R idx
  | Raise _ => True
  | OutOfFuel => fuel ≤ n
  end.
Proof.
  intros HI. destruct (node_mapper s !! x) as [idx|] eqn:Hx.
  - pose proof (find_root_spec n R fuel s x idx HI Hx) as H.
    destruct (find_root fuel s x) as [[s' r]| |]; [|done|lia].
    destruct H as (->&?&?). eauto.
  - destruct fuel as [|fuel]; simpl; [lia|].
    unfold map_get. by rewrite Hx.
Qed.

Lemma union_spec_any n R fuel s x y :
  Inv n s R →
  match union fuel s x y with
  | Ret s' => ∃ R', Inv n s' R' ∧ (Capped n s R → Capped n s' R') ∧
      max_num_per_set s' = max_num_per_set s ∧
      node_mapper s' = node_mapper s ∧ nodes s' = nodes s
  | Raise _ => True
  | OutOfFuel => fuel ≤ n
  end.
Proof.
  intros HI.
  destruct (node_mapper s !! x) as [ix|] eqn:Hx;
    [destruct (node_mapper s !! y) as [iy|] eqn:Hy|].
  - pose proof (union_spec n R fuel s x y ix iy HI Hx Hy) as H.
    destruct (union fuel s x y); [done..|lia].
  - unfold union. pose proof (find_root_spec_any n R fuel s x HI) as H1.
    destruct (find_root fuel s x) as [[s1 rx]| |]; cbn; [|done..].
    destruct H1 as (HI1&Hf&_).
    pose proof (find_root_spec_any n R fuel s1 y HI1) as H2.
    destruct (find_root fuel s1 y) as [[s2 ry]| |]; cbn; [|done..].
    destruct H2 as (_&_&idx&Hy'&_). destruct Hf as (_&_&_&Hm&_).
    rewrite Hm in Hy'. congruence.
  - unfold union. pose proof (find_root_spec_any n R fuel s x HI) as H1.
    destruct (find_root fuel s x) as [[s1 rx]| |]; cbn; [|done..].
    destruct H1 as (_&_&idx&?&_). congruence.
Qed.

Lemma unions_spec_any n fuel pairs : ∀ R s,
  Inv n s R →
  match unions fuel s pairs with
  | Ret s' => ∃ R', Inv n s' R' ∧ (Capped n s R → Capped n s' R') ∧
      max_num_per_set s' = max_num_per_set s ∧
      node_mapper s' = node_mapper s ∧ nodes s' = nodes s
  | Raise _ => True
  | OutOfFuel => fuel ≤ n
  end.
Proof.
  induction pairs as [|[x y] pairs IH]; intros R s HI; simpl.
  - exists R. by split_and!.
  - pose proof (union_spec_any n R fuel s x y HI) as Hu.
    destruct (union fuel s x y) as [s1| |]; cbn; [|done..].
    destruct Hu as (R1&HI1&HC1&Hmax1&Hmap1&Hnodes1).
    specialize (IH R1 s1 HI1).
    destruct (unions fuel s1 pairs) as [s2| |]; [|done..].
    destruct IH as (R2&HI2&HC2&Hmax2&Hmap2&Hnodes2).
    exists R2. split_and!; [done|tauto|congruence..].
Qed.

(** *** The constructor *)

Lemma lookup_tabulate {V} (f : nat → V) (n i : nat) :
  (list_to_map ((λ i, (i, f i)) <$> seq 0 n) : gmap nat V) !! i =
  if decide (i < n) then Some (f i) else None.
Proof.
  assert (Hfst : ((λ i, (i, f i)) <$> seq 0 n).*1 = seq 0 n).
  { rewrite <-list_fmap_compose. rewrite <-(list_fmap_id (seq 0 n)) at 2.
    by apply list_fmap_ext. }
  case_decide as Hi.
  - apply elem_of_list_to_map; [rewrite Hfst; apply NoDup_seq|].
    apply list_elem_of_fmap. exists i. split; [done|].
    apply elem_of_seq. lia.
  - apply not_elem_of_list_to_map. rewrite Hfst, elem_of_seq. lia.
Qed.

Lemma filter_eq_seq (r a k : nat) :
  length (filter (λ i, i = r) (seq a k)) =
  if decide (a ≤ r < a + k) then 1 else 0.
Proof.
  revert a. induction k as [|k IH]; intros a; simpl.
  - case_decide; [lia|done].
  - destruct (decide (a = r)) as [->|Hne].
    + rewrite filter_cons_True by done. simpl. rewrite IH.
      rewrite decide_False by lia. by rewrite decide_True by lia.
    + rewrite filter_cons_False by done. rewrite IH.
      repeat case_decide; lia.
Qed.

Lemma count_id n r : r < n → count n (λ i, i) r = 1.
Proof.
  intros Hr. unfold count, members. rewrite filter_eq_seq.
  by rewrite decide_True by lia.
Qed.

Lemma init_Inv n cap : Inv n (init n cap) (λ i, i).
Proof.
  split; simpl.
  - by rewrite length_seq.
  - by rewrite length_replicate.
  - apply Forall2_same_length_lookup. split; [done|].
    intros i a b [-> ?]%lookup_seq [-> ?]%lookup_seq. simpl.
    rewrite lookup_tabulate. by rewrite decide_True.
  - intros x i. rewrite lookup_tabulate. case_decide; naive_solver.
  - done.
  - intros i Hi. by apply lookup_seq_lt.
  - by intros i p [-> ?]%lookup_seq.
  - done.
  - intros i p [-> ?]%lookup_seq. done.
  - intros r Hr _. rewrite lookup_tabulate, decide_True by done.
    by rewrite count_id.
  - intros r Hr _. rewrite count_id by done. unfold rank. simpl.
    rewrite lookup_replicate_2 by done. simpl. lia.
Qed.

Lemma init_Capped n m :
  (0 < n → (1 ≤ m)%Z) → Capped n (init n (Some m)) (λ i, i).
Proof.
  intros Hm m' r [= <-] Hr _. rewrite count_id by done. lia.
Qed.

Lemma init_mapper n cap x :
  node_mapper (init n cap) !! x = if decide (x < n) then Some x else None.
Proof. apply lookup_tabulate. Qed.

(** *** [validate] *)

Section validate.
Context (n : nat) (R : nat → nat).

(** The root of the tree of an external id. *)
Definition Rx (mapper : gmap nat nat) (x : nat) : nat :=
  R (default 0 (mapper !! x)).

(** The dict built by the first loop of [validate], once the ids [seen] have
    been visited. *)
Record Grouped (mapper : gmap nat nat) (seen : list nat)
    (union_set : list (nat * list nat)) : Prop := {
  grouped_wf : OrdDict.wf union_set;
  grouped_entries : ∀ key l, (key, l) ∈ union_set →
    key < n ∧ R key = key ∧ l = filter (λ x, Rx mapper x = key) seen;
  grouped_keys : ∀ z, z ∈ seen → Rx mapper z ∈ OrdDict.keys union_set
}.

Lemma Grouped_nil mapper : Grouped mapper [] [].
Proof.
  split; [apply NoDup_nil_2|by intros ?? ?%elem_of_nil|by intros ? ?%elem_of_nil].
Qed.

Lemma Grouped_append mapper seen us x :
  Grouped mapper seen us → Rx mapper x < n →
  R (Rx mapper x) = Rx mapper x →
  Grouped mapper (seen ++ [x]) (group_append (Rx mapper x) x us).
Proof.
  intros [Hwf Hent Hkeys] Hlt Hroot. unfold group_append.
  set (r := Rx mapper x) in *.
  assert (Hown : filter (λ z, Rx mapper z = r) (seen ++ [x]) =
                 filter (λ z, Rx mapper z = r) seen ++ [x]).
  { rewrite filter_app. f_equal. by rewrite filter_cons_True. }
  assert (Hoth : ∀ key, key ≠ r →
            filter (λ z, Rx mapper z = key) (seen ++ [x]) =
            filter (λ z, Rx mapper z = key) seen).
  { intros key Hk. rewrite filter_app.
    rewrite (filter_cons_False _ x) by (fold r; congruence).
    by rewrite filter_nil, app_nil_r. }
  assert (Hk' : ∀ v z, z ∈ seen ++ [x] →
            Rx mapper z ∈ OrdDict.keys (OrdDict.set r v us)).
  { intros v z [Hz| ->%list_elem_of_singleton]%elem_of_app.
    - apply OrdDictFacts.keys_set_subseteq. auto.
    - apply OrdDictFacts.keys_set_key. }
  destruct (OrdDict.get r us) as [l|] eqn:Hget.
  - apply OrdDictFacts.get_Some_elem in Hget as Hin.
    destruct (Hent _ _ Hin) as (_&_&->).
    split; [by apply OrdDictFacts.wf_set| |by apply Hk'].
    intros key l' Hin'.
    destruct (OrdDictFacts.elem_set _ _ _ _ Hwf Hin') as [Heq|[Hin'' Hne]].
    + injection Heq as -> ->. by rewrite Hown.
    + simpl in Hne. rewrite Hoth by done. auto.
  - apply OrdDictFacts.get_None in Hget.
    split; [by apply OrdDictFacts.wf_set| |by apply Hk'].
    intros key l' Hin'.
    destruct (OrdDictFacts.elem_set _ _ _ _ Hwf Hin') as [Heq|[Hin'' Hne]].
    + injection Heq as -> ->. split_and!; [done..|]. rewrite Hown.
      rewrite ListFacts.filter_none; [done|]. intros z Hz Hzr.
      apply Hget. rewrite <-Hzr. auto.
    + simpl in Hne. rewrite Hoth by done. auto.
Qed.

Lemma group_by_root_spec fuel todo : ∀ s us seen,
  Inv n s R → Forall (λ x, is_Some (node_mapper s !! x)) todo →
  Grouped (node_mapper s) seen us →
  match group_by_root fuel s todo us with
  | Ret (s', us') =>
      Inv n s' R ∧ frame s s' ∧ Grouped (node_mapper s) (seen ++ todo) us'
  | Raise _ => False
  | OutOfFuel => fuel < n
  end.
Proof.
  induction todo as [|x todo IH]; intros s us seen HI Hv HG; simpl.
  - rewrite app_nil_r. split_and!; [done|apply frame_refl|done].
  - apply Forall_cons in Hv as [[ix Hx] Hv].
    pose proof (find_root_spec n R fuel s x ix HI Hx) as H1.
    destruct (find_root fuel s x) as [[s1 r]| |]; cbn; [|done|lia].
    destruct H1 as (->&HI1&Hf1).
    assert (Hmap : node_mapper s1 = node_mapper s) by apply Hf1.
    pose proof (inv_mapper HI _ _ Hx) as Hix.
    assert (HRx : Rx (node_mapper s) x = R ix) by (unfold Rx; by rewrite Hx).
    assert (HGa : Grouped (node_mapper s) (seen ++ [x])
                    (group_append (R ix) x us)).
    { rewrite <-HRx. apply Grouped_append; [done|rewrite HRx..].
      - by apply (inv_R_lt HI).
      - by apply (Inv_R_idem n R s). }
    specialize (IH s1 (group_append (R ix) x us) (seen ++ [x]) HI1).
    rewrite Hmap in IH. specialize (IH Hv HGa).
    destruct (group_by_root fuel s1 todo _) as [[s2 us2]| |]; [|done..].
    destruct IH as (HI2&Hf2&HG2). split_and!; [done| |].
    + by eapply frame_trans.
    + by rewrite <-app_assoc in HG2.
Qed.

Lemma assert_sizes_ok m us :
  (∀ key l, (key, l) ∈ us → (Z.of_nat (length l) ≤ m)%Z) →
  assert_sizes (Some m) us = Ret ().
Proof.
  induction us as [|[key l] us IH]; intros H; simpl; [done|].
  rewrite decide_True by (apply (H key); by left).
  apply IH. intros ???. eapply H. by right.
Qed.

Lemma Inv_nodes_valid s :
  Inv n s R → Forall (λ x, is_Some (node_mapper s !! x)) (nodes s).
Proof.
  intros HI. pose proof (inv_nodes HI) as HF.
  induction HF; constructor; eauto.
Qed.

Lemma filter_nodes_count s key :
  Inv n s R →
  length (filter (λ x, Rx (node_mapper s) x = key) (nodes s)) = count n R key.
Proof.
  intros HI. unfold count, members. pose proof (inv_nodes HI) as HF.
  induction HF as [|i x li lx Hix HF IH]; [done|].
  assert (Rx (node_mapper s) x = R i) as HRx by (unfold Rx; by rewrite Hix).
  destruct (decide (R i = key)).
  - rewrite !filter_cons_True by congruence. simpl. by rewrite IH.
  - rewrite !filter_cons_False by congruence. done.
Qed.

Lemma assert_sizes_spec cap us :
  match assert_sizes cap us with
  | Ret _ => us = [] ∨ ∃ m, cap = Some m ∧
      ∀ key l, (key, l) ∈ us → (Z.of_nat (length l) ≤ m)%Z
  | Raise e =>
      (cap = None ∧ e = TypeError) ∨
      (∃ m key l, cap = Some m ∧ (key, l) ∈ us ∧
         ¬ (Z.of_nat (length l) ≤ m)%Z ∧ e = AssertionError)
  | OutOfFuel => False
  end.
Proof.
  induction us as [|[key l] us IH]; simpl; [by left|].
  destruct cap as [m|]; [|by left].
  case_decide as Hle.
  - destruct (assert_sizes (Some m) us) as [[]|e|]; [| |done].
    + right. exists m. split; [done|]. intros key' l' [[= -> ->]|Hin]%elem_of_cons.
      * done.
      * destruct IH as [->|(m'&[= <-]&IH)]; [by apply elem_of_nil in Hin|eauto].
    + destruct IH as [[? _]|(m'&key'&l'&[= <-]&?&?&?)]; [done|].
      right. exists m, key', l'. split_and!; [done|by right|done..].
  - right. exists m, key, l. split_and!; [done|by left|done..].
Qed.

(** [validate] returns exactly when every tree respects the cap (with no
    cap configured it returns only when there is no node). *)
Lemma validate_spec fuel s :
  Inv n s R →
  match validate fuel s with
  | Ret s' => Inv n s' R ∧ frame s s' ∧ Capped n s R
  | Raise e =>
      (max_num_per_set s = None ∧ e = TypeError) ∨
      (¬ Capped n s R ∧ e = AssertionError)
  | OutOfFuel => fuel < n
  end.
Proof.
  intros HI. unfold validate.
  pose proof (group_by_root_spec fuel (nodes s) s [] [] HI
                (Inv_nodes_valid s HI) (Grouped_nil _)) as HG.
  destruct (group_by_root fuel s (nodes s) []) as [[s1 us]| |]; cbn; [|done..].
  destruct HG as (HI1&Hf&[Hwf Hent Hkeys]). simpl in *.
  assert (Hmax : max_num_per_set s1 = max_num_per_set s) by apply Hf.
  rewrite Hmax.
  assert (Hlen : ∀ key l, (key, l) ∈ us →
            key < n ∧ R key = key ∧ length l = count n R key).
  { intros key l Hin. destruct (Hent _ _ Hin) as (?&?&->).
    by rewrite filter_nodes_count. }
  assert (Hall : ∀ r, r < n → R r = r → ∃ l, (r, l) ∈ us).
  { intros r Hr HRr. destruct (Inv_node n R s r HI Hr) as (x&Hx&Hmx).
    assert (Hk : Rx (node_mapper s) x ∈ OrdDict.keys us).
    { apply Hkeys. by eapply list_elem_of_lookup_2. }
    unfold Rx in Hk. rewrite Hmx in Hk. simpl in Hk. rewrite HRr in Hk.
    apply list_elem_of_fmap in Hk as [[r' l] [-> Hin]]. eauto. }
  pose proof (assert_sizes_spec (max_num_per_set s) us) as Ha.
  destruct (assert_sizes (max_num_per_set s) us) as [[]|e|]; cbn; [| |done].
  - split_and!; [done..|]. intros m r Hm Hr HRr.
    destruct (Hall r Hr HRr) as [l Hin].
    destruct Ha as [->|(m'&Hm'&Ha)]; [by apply elem_of_nil in Hin|].
    rewrite Hm in Hm'. injection Hm' as <-.
    destruct (Hlen _ _ Hin) as (_&_&<-). eauto.
  - destruct Ha as [?|(m&key&l&Hm&Hin&Hnle&->)]; [by left|right].
    split; [|done]. intros HC. apply Hnle.
    destruct (Hlen _ _ Hin) as (?&?&->). by apply HC.
Qed.

Lemma component_length fuel s x ix :
  Inv n s R → n ≤ fuel → node_mapper s !! x = Some ix →
  length (component fuel s x) = count n R (R ix).
Proof.
  intros HI Hfuel Hx. unfold component, count, members.
  rewrite (root_of_total n R fuel s x ix HI Hx Hfuel).
  pose proof (inv_nodes HI) as HF.
  induction HF as [|i z li lz Hiz HF IH]; [done|].
  pose proof (root_of_total n R fuel s z i HI Hiz Hfuel) as Hz.
  destruct (decide (R i = R ix)) as [Heq|Hne].
  - rewrite (filter_cons_True _ z) by (rewrite Hz; by f_equal).
    rewrite (filter_cons_True _ i) by done. simpl. by rewrite IH.
  - rewrite (filter_cons_False _ z) by (rewrite Hz; congruence).
    by rewrite (filter_cons_False _ i) by done.
Qed.

End validate.

(** *** [init_with_nodes] *)

Lemma enumerate_into_notin l : ∀ k m x,
  x ∉ l → enumerate_into k l m !! x = m !! x.
Proof.
  induction l as [|a l IH]; intros k m x Hx; simpl; [done|].
  apply not_elem_of_cons in Hx as [Hxa Hx].
  rewrite IH by done. by rewrite lookup_insert_ne.
Qed.

Lemma enumerate_into_lookup l : ∀ k m j x,
  NoDup l → l !! j = Some x → enumerate_into k l m !! x = Some (k + j).
Proof.
  induction l as [|a l IH]; intros k m j x Hnd Hj; [done|].
  apply NoDup_cons in Hnd as [Ha Hnd]. destruct j as [|j]; simpl in *.
  - injection Hj as ->. rewrite enumerate_into_notin by done.
    rewrite lookup_insert_eq. f_equal. lia.
  - rewrite (IH (S k) _ j x Hnd Hj). f_equal. lia.
Qed.

Lemma init_with_nodes_Inv n R s l :
  Inv n s R → NoDup l → length l = n → Inv n (init_with_nodes s l) R.
Proof.
  intros [H1 H2 H3 H4 H5 H6 H7 H8 H9 H10 H11] Hnd Hlen.
  split; try done; simpl.
  - apply Forall2_same_length_lookup. split; [by rewrite length_seq|].
    intros i a x [-> ?]%lookup_seq Hx. simpl.
    by rewrite (enumerate_into_lookup l 0 ∅ i x Hnd Hx).
  - intros x i Hx. destruct (decide (x ∈ l)) as [Hin|Hni].
    + apply list_elem_of_lookup in Hin as [j Hj].
      rewrite (enumerate_into_lookup l 0 ∅ j x Hnd Hj) in Hx.
      injection Hx as <-. apply lookup_lt_Some in Hj. lia.
    + by rewrite enumerate_into_notin in Hx.
Qed.

(** *** Reachable states *)

(** The states an object can be in: constructed for [n] nodes, then renamed
    with a duplicate-free list of [n] node ids, or changed by a returning
    [union], [find_root] or [validate]. *)
Inductive reachable (n : nat) : t → Prop :=
  | reach_init cap : reachable n (init n cap)
  | reach_init_with_nodes s l :
      reachable n s → NoDup l → length l = n →
      reachable n (init_with_nodes s l)
  | reach_union s fuel x y s' :
      reachable n s → union fuel s x y = Ret s' → reachable n s'
  | reach_find_root s fuel x s' r :
      reachable n s → find_root fuel s x = Ret (s', r) → reachable n s'
  | reach_validate s fuel s' :
      reachable n s → validate fuel s = Ret s' → reachable n s'.

Lemma find_root_Ret_valid fuel s x s' r :
  find_root fuel s x = Ret (s', r) → is_Some (node_mapper s !! x).
Proof.
  destruct fuel; [done|]. cbn [find_root]. unfold map_get.
  destruct (node_mapper s !! x); [eauto|done].
Qed.

Lemma reachable_Inv n s : reachable n s → ∃ R, Inv n s R.
Proof.
  induction 1 as [cap|s l _ [R HI] Hnd Hlen|s fuel x y s' _ [R HI] Hu
                  |s fuel x s' r _ [R HI] Hf|s fuel s' _ [R HI] Hv].
  - eexists. apply init_Inv.
  - exists R. by apply init_with_nodes_Inv.
  - assert (∃ ix iy, node_mapper s !! x = Some ix ∧
                     node_mapper s !! y = Some iy) as (ix&iy&Hx&Hy).
    { unfold union in Hu.
      destruct (find_root fuel s x) as [[s1 rx]| |] eqn:E1; [|done..].
      destruct (find_root_Ret_valid _ _ _ _ _ E1) as [ix Hx].
      pose proof (find_root_spec n R fuel s x ix HI Hx) as H1.
      rewrite E1 in H1. destruct H1 as (_&_&Hf). cbn in Hu.
      destruct (find_root fuel s1 y) as [[s2 ry]| |] eqn:E2; [|done..].
      destruct (find_root_Ret_valid _ _ _ _ _ E2) as [iy Hy].
      destruct Hf as (_&_&_&Hm&_). rewrite Hm in Hy. eauto. }
    pose proof (union_spec n R fuel s x y ix iy HI Hx Hy) as H.
    rewrite Hu in H. destruct H as (R'&?&_). eauto.
  - destruct (find_root_Ret_valid _ _ _ _ _ Hf) as [ix Hx].
    pose proof (find_root_spec n R fuel s x ix HI Hx) as H.
    rewrite Hf in H. exists R. tauto.
  - pose proof (validate_spec n R fuel s HI) as H.
    rewrite Hv in H. exists R. tauto.
Qed.

(** *** The claims *)

(** C9. [find_root(x)] compresses paths but moves no node to another
    component: in every reachable state, for valid ids [x] and [z],
    [find_root(x)] returns, [find_root(z)] gives the same value in the state
    before and in the state after the call, and a second [find_root(x)]
    returns what the first returned. *)
Theorem find_root_preserves_roots (n : nat) (s : t) (x z fuel : nat) :
  reachable n s →
  is_Some (node_mapper s !! x) → is_Some (node_mapper s !! z) →
  n ≤ fuel →
  ∃ s' r rz,
    find_root fuel s x = Ret (s', r) ∧
    root_of fuel s z = Some rz ∧
    root_of fuel s' z = Some rz ∧
    root_of fuel s' x = Some r.
Proof.
  intros [R HI]%reachable_Inv [ix Hx] [iz Hz] Hfuel.
  destruct (find_root_total n R fuel s x ix HI Hx Hfuel) as (s'&Hf&HI'&Hfr).
  assert (Hmap : node_mapper s' = node_mapper s) by apply Hfr.
  exists s', (R ix), (R iz). split_and!; [done|..].
  - by apply (root_of_total n R).
  - apply (root_of_total n R); [done| |done]. by rewrite Hmap.
  - apply (root_of_total n R); [done| |done]. by rewrite Hmap.
Qed.

(** The state after [union(0, 1)] and [union(1, 2)] on three nodes. *)
Definition chain3 : t :=
  match unions 3 (init 3 None) [(0, 1); (1, 2)] with
  | Ret s => s
  | _ => init 3 None
  end.

Lemma find_root_preserves_roots_witness :
  ∃ s' r rz,
    find_root 3 chain3 2 = Ret (s', r) ∧
    root_of 3 chain3 1 = Some rz ∧
    root_of 3 s' 1 = Some rz ∧
    root_of 3 s' 2 = Some r.
Proof.
  apply (find_root_preserves_roots 3 chain3 2 1 3).
  - apply (reach_union 3 (match union 3 (init 3 None) 0 1 with
                          | Ret s => s | _ => init 3 None end) 3 1 2).
    + apply (reach_union 3 (init 3 None) 3 0 1); [apply reach_init|].
      vm_compute. reflexivity.
    + vm_compute. reflexivity.
  - vm_compute. eexists. reflexivity.
  - vm_compute. eexists. reflexivity.
  - lia.
Defined.

(** C1, as amended.  With a cap [m ≥ 1] (or no node at all), after any run
    of [union] calls on valid node ids of a freshly constructed object every
    component has at most [m] nodes and [validate()] returns. *)
Theorem cap_invariant (n : nat) (m : Z) (pairs : list (nat * nat))
    (fuel : nat) :
  (0 < n → (1 ≤ m)%Z) →
  Forall (λ p, p.1 < n ∧ p.2 < n) pairs →
  n ≤ fuel →
  ∃ s s',
    unions fuel (init n (Some m)) pairs = Ret s ∧
    (∀ x, x < n → (Z.of_nat (length (component fuel s x)) ≤ m)%Z) ∧
    validate fuel s = Ret s'.
Proof.
  intros Hm Hpairs Hfuel.
  assert (Hv : Forall (valid_pair (node_mapper (init n (Some m)))) pairs).
  { eapply Forall_impl; [done|]. intros [x y] [? ?]. unfold valid_pair.
    rewrite !init_mapper, !decide_True by done. eauto. }
  pose proof (unions_spec n fuel pairs _ _ (init_Inv n (Some m)) Hv) as H.
  destruct (unions fuel (init n (Some m)) pairs) as [s| |]; [|done|lia].
  destruct H as (R&HI&HC&Hmax&Hmap&Hnodes).
  specialize (HC (init_Capped n m Hm)).
  pose proof (validate_spec n R fuel s HI) as Hval.
  destruct (validate fuel s) as [s'|e|] eqn:Ev.
  - exists s, s'. split_and!; [done| |done].
    intros x Hx.
    assert (Hxi : node_mapper s !! x = Some x).
    { rewrite Hmap, init_mapper. by rewrite decide_True. }
    rewrite (component_length n R fuel s x x HI Hfuel Hxi).
    apply HC; [done| |].
    + by apply (inv_R_lt HI).
    + by apply (Inv_R_idem n R s).
  - destruct Hval as [[Hn _]|[Hn _]]; [|done].
    rewrite Hmax in Hn. done.
  - lia.
Qed.

Lemma cap_invariant_witness :
  ∃ s s',
    unions 5 (init 5 (Some 3%Z)) [(0, 1); (2, 3); (1, 2); (3, 4)] = Ret s ∧
    (∀ x, x < 5 → (Z.of_nat (length (component 5 s x)) ≤ 3)%Z) ∧
    validate 5 s = Ret s'.
Proof.
  apply (cap_invariant 5 3 [(0, 1); (2, 3); (1, 2); (3, 4)] 5).
  - lia.
  - repeat constructor; simpl; lia.
  - lia.
Defined.

(** C1 as stated fails for a cap below 1: a single node is already a
    component of size 1, and [validate()] raises the assertion error. *)
Lemma cap_zero_counterexample :
  unions 1 (init 1 (Some 0%Z)) [] = Ret (init 1 (Some 0%Z)) ∧
  length (component 1 (init 1 (Some 0%Z)) 0) = 1 ∧
  validate 1 (init 1 (Some 0%Z)) = Raise AssertionError.
Proof. vm_compute. done. Qed.

End UnionFindProofs.

(** ** More on the union-find: what [union], [find_root], [validate] and
    [init_with_nodes] do to the components *)

Module UnionFindMore.
Import UnionFind.
Import UnionFindProofs.

(** What a returning [union] does to the representative function: nothing
    when the two roots are equal or the cap forbids the merge, and otherwise
    one of the two roots is hung under the other. *)
Lemma union_outcome n R fuel s x y ix iy :
  Inv n s R → node_mapper s !! x = Some ix → node_mapper s !! y = Some iy →
  n ≤ fuel →
  ∃ s' R', union fuel s x y = Ret s' ∧ Inv n s' R' ∧
    max_num_per_set s' = max_num_per_set s ∧
    node_mapper s' = node_mapper s ∧ nodes s' = nodes s ∧
    ((R ix = R iy ∧ R' = R) ∨
     (R ix ≠ R iy ∧ R' = R ∧
      ∃ m, max_num_per_set s = Some m ∧
           (m < Z.of_nat (count n R (R ix) + count n R (R iy)))%Z) ∨
     (R ix ≠ R iy ∧
      (R' = merge R (R ix) (R iy) ∨ R' = merge R (R iy) (R ix)) ∧
      ∀ m, max_num_per_set s = Some m →
           (Z.of_nat (count n R (R ix) + count n R (R iy)) ≤ m)%Z)).
Proof.
  intros HI Hx Hy Hfuel. unfold union.
  destruct (find_root_total n R fuel s x ix HI Hx Hfuel) as (s1&->&HI1&Hf1).
  cbn.
  assert (Hy1 : node_mapper s1 !! y = Some iy).
  { destruct Hf1 as (_&_&_&->&_). done. }
  destruct (find_root_total n R fuel s1 y iy HI1 Hy1 Hfuel)
    as (s2&->&HI2&Hf2).
  cbn.
  pose proof (frame_trans _ _ _ Hf1 Hf2) as (Hmax&_&Hnodes&Hmap&_).
  pose proof (inv_mapper HI _ _ Hx) as Hix.
  pose proof (inv_mapper HI _ _ Hy) as Hiy.
  destruct (decide (R ix = R iy)) as [Heq|Hne].
  { exists s2, R. split_and!; [done..|]. by left. }
  pose proof (inv_R_lt HI2 _ Hix) as Hrx.
  pose proof (inv_R_lt HI2 _ Hiy) as Hry.
  pose proof (Inv_R_idem n R s2 ix HI2 Hix) as Hidx.
  pose proof (Inv_R_idem n R s2 iy HI2 Hiy) as Hidy.
  destruct (link_merge n R s2 (R ix) (R iy) HI2 Hrx Hry Hidx Hidy Hne)
    as (s'&R'&Hlink&HI'&Hmax'&Hmap'&Hnodes'&_&HR').
  rewrite Hmax. destruct (max_num_per_set s) as [m|] eqn:Hm.
  - unfold map_get.
    rewrite (inv_size HI2 _ Hrx Hidx), (inv_size HI2 _ Hry Hidy). cbn.
    destruct (decide (m < Z.of_nat _)%Z) as [Hbig|Hok].
    + exists s2, R. split_and!; [done|done|congruence|done..|].
      right. left. split_and!; [done..|]. by exists m.
    + rewrite Hlink. exists s', R'. split_and!; [done|done|congruence..|].
      right. right. split_and!; [done..|]. intros m' [= <-]. lia.
  - rewrite Hlink. exists s', R'. split_and!; [done|done|congruence..|].
    right. right. split_and!; [done..|]. by intros m' ?.
Qed.

Lemma reachable_root_of n s fuel x :
  reachable n s → is_Some (node_mapper s !! x) → n ≤ fuel →
  ∃ R ix, Inv n s R ∧ node_mapper s !! x = Some ix ∧
          root_of fuel s x = Some (R ix).
Proof.
  intros [R HI]%reachable_Inv [ix Hx] Hfuel. exists R, ix.
  split_and!; [done..|]. by apply (root_of_total n R).
Qed.

(** X1. [union(x, y)] joins: when the two nodes are in one component already, or
    no cap is configured, or the two components together have no more nodes
    than the cap, the call returns and [x] and [y] have the same root
    afterwards. *)
Theorem union_joins (n : nat) (s : t) (x y fuel : nat) :
  reachable n s →
  is_Some (node_mapper s !! x) → is_Some (node_mapper s !! y) →
  n ≤ fuel →
  (root_of fuel s x = root_of fuel s y ∨
   ∀ m, max_num_per_set s = Some m →
     (Z.of_nat (length (component fuel s x) + length (component fuel s y))
      ≤ m)%Z) →
  ∃ s' r, union fuel s x y = Ret s' ∧
          root_of fuel s' x = Some r ∧ root_of fuel s' y = Some r.
Proof.
  intros [R HI]%reachable_Inv [ix Hx] [iy Hy] Hfuel Hcond.
  destruct (union_outcome n R fuel s x y ix iy HI Hx Hy Hfuel)
    as (s'&R'&Hu&HI'&_&Hmap&_&Hcase).
  rewrite !(root_of_total n R fuel s _ _ HI) in Hcond by done.
  rewrite !(component_length n R fuel s _ _ HI) in Hcond by done.
  exists s', (R' ix). split; [done|].
  rewrite !(root_of_total n R' fuel s' _ _ HI') by (by rewrite ?Hmap).
  split; [done|]. f_equal.
  pose proof (inv_mapper HI _ _ Hx) as Hix.
  pose proof (inv_mapper HI _ _ Hy) as Hiy.
  pose proof (Inv_R_idem n R s ix HI Hix) as Hidx.
  pose proof (Inv_R_idem n R s iy HI Hiy) as Hidy.
  destruct Hcase as [[Heq ->]|[(Hne&->&m&Hm&Hbig)|(Hne&HR'&_)]].
  - done.
  - destruct Hcond as [[= ?]|Hcond]; [done|]. specialize (Hcond m Hm). lia.
  - destruct HR' as [-> | ->]; unfold merge.
    + rewrite decide_False by done. by rewrite decide_True.
    + rewrite decide_True by done. by rewrite decide_False by done.
Qed.

Lemma union_joins_witness :
  ∃ s' r, union 3 (init 3 (Some 2%Z)) 0 1 = Ret s' ∧
          root_of 3 s' 0 = Some r ∧ root_of 3 s' 1 = Some r.
Proof.
  apply (union_joins 3 (init 3 (Some 2%Z)) 0 1 3).
  - apply reach_init.
  - vm_compute. by eexists.
  - vm_compute. by eexists.
  - lia.
  - right. intros m [= <-]. vm_compute. discriminate.
Defined.

(** X2. [union(x, y)] rejects: when the nodes have different roots and their
    components together have more nodes than the cap, the call returns and
    every node keeps its root. *)
Theorem union_rejects (n : nat) (s : t) (x y fuel : nat) (m : Z) :
  reachable n s →
  is_Some (node_mapper s !! x) → is_Some (node_mapper s !! y) →
  n ≤ fuel →
  root_of fuel s x ≠ root_of fuel s y →
  max_num_per_set s = Some m →
  (m < Z.of_nat (length (component fuel s x) + length (component fuel s y)))%Z →
  ∃ s', union fuel s x y = Ret s' ∧
        ∀ z, is_Some (node_mapper s !! z) →
             root_of fuel s' z = root_of fuel s z.
Proof.
  intros [R HI]%reachable_Inv [ix Hx] [iy Hy] Hfuel Hne Hm Hbig.
  destruct (union_outcome n R fuel s x y ix iy HI Hx Hy Hfuel)
    as (s'&R'&Hu&HI'&_&Hmap&_&Hcase).
  rewrite !(root_of_total n R fuel s _ _ HI) in Hne by done.
  rewrite !(component_length n R fuel s _ _ HI) in Hbig by done.
  exists s'. split; [done|]. intros z [iz Hz].
  rewrite (root_of_total n R' fuel s' z iz HI') by (by rewrite ?Hmap).
  rewrite (root_of_total n R fuel s z iz HI) by done.
  destruct Hcase as [[Heq ->]|[(_&->&_)|(_&_&Hok)]]; [done..|].
  specialize (Hok m Hm). lia.
Qed.

Lemma union_rejects_witness :
  ∃ s', union 3 chain3_capped 0 2 = Ret s' ∧
        ∀ z, is_Some (node_mapper chain3_capped !! z) →
             root_of 3 s' z = root_of 3 chain3_capped z.
Proof.
  apply (union_rejects 3 chain3_capped 0 2 3 2).
  - apply (reach_union 3 (init 3 (Some 2%Z)) 3 0 1); [apply reach_init|].
    vm_compute. reflexivity.
  - vm_compute. by eexists.
  - vm_compute. by eexists.
  - lia.
  - vm_compute. discriminate.
  - reflexivity.
  - vm_compute. reflexivity.
Defined.

(** X3. [union] merges and never splits: two nodes with the same root before a
    returning [union(x, y)] have the same root after it, and a node whose
    root is neither the root of [x] nor that of [y] keeps its root. *)
Theorem union_preserves_components (n : nat) (s : t) (x y fuel : nat) :
  reachable n s →
  is_Some (node_mapper s !! x) → is_Some (node_mapper s !! y) →
  n ≤ fuel →
  ∃ s', union fuel s x y = Ret s' ∧
    (∀ z1 z2, is_Some (node_mapper s !! z1) → is_Some (node_mapper s !! z2) →
       root_of fuel s z1 = root_of fuel s z2 →
       root_of fuel s' z1 = root_of fuel s' z2) ∧
    (∀ z, is_Some (node_mapper s !! z) →
       root_of fuel s z ≠ root_of fuel s x →
       root_of fuel s z ≠ root_of fuel s y →
       root_of fuel s' z = root_of fuel s z).
Proof.
  intros [R HI]%reachable_Inv [ix Hx] [iy Hy] Hfuel.
  destruct (union_outcome n R fuel s x y ix iy HI Hx Hy Hfuel)
    as (s'&R'&Hu&HI'&_&Hmap&_&Hcase).
  exists s'. split; [done|].
  assert (HR' : R' = R ∨ R' = merge R (R ix) (R iy) ∨
                R' = merge R (R iy) (R ix)) by naive_solver.
  clear Hcase. split.
  - intros z1 z2 [i1 H1] [i2 H2].
    rewrite !(root_of_total n R fuel s _ _ HI) by done.
    rewrite !(root_of_total n R' fuel s' _ _ HI') by (by rewrite ?Hmap).
    intros [= Heq]. f_equal.
    destruct HR' as [->|[->| ->]]; unfold merge; by rewrite ?Heq.
  - intros z [iz Hz].
    rewrite !(root_of_total n R fuel s _ _ HI) by done.
    rewrite !(root_of_total n R' fuel s' _ _ HI') by (by rewrite ?Hmap).
    intros Hzx Hzy. f_equal.
    destruct HR' as [->|[->| ->]]; unfold merge; [done|..];
      rewrite decide_False; congruence.
Qed.

Lemma union_preserves_components_witness :
  ∃ s', union 3 (init 3 None) 0 1 = Ret s' ∧
    (∀ z1 z2, is_Some (node_mapper (init 3 None) !! z1) →
       is_Some (node_mapper (init 3 None) !! z2) →
       root_of 3 (init 3 None) z1 = root_of 3 (init 3 None) z2 →
       root_of 3 s' z1 = root_of 3 s' z2) ∧
    (∀ z, is_Some (node_mapper (init 3 None) !! z) →
       root_of 3 (init 3 None) z ≠ root_of 3 (init 3 None) 0 →
       root_of 3 (init 3 None) z ≠ root_of 3 (init 3 None) 1 →
       root_of 3 s' z = root_of 3 (init 3 None) z).
Proof.
  apply (union_preserves_components 3 (init 3 None) 0 1 3).
  - apply reach_init.
  - vm_compute. by eexists.
  - vm_compute. by eexists.
  - lia.
Defined.

(** X4. [component_size] is exact at the roots: in every reachable state the
    entry of the root of a valid node is the number of nodes of its
    component. *)
Theorem component_size_exact (n : nat) (s : t) (x fuel : nat) :
  reachable n s → is_Some (node_mapper s !! x) → n ≤ fuel →
  ∃ r, root_of fuel s x = Some r ∧
       component_size s !! r = Some (length (component fuel s x)).
Proof.
  intros [R HI]%reachable_Inv [ix Hx] Hfuel. exists (R ix).
  pose proof (inv_mapper HI _ _ Hx) as Hix.
  split; [by apply (root_of_total n R)|].
  rewrite (component_length n R fuel s x ix HI Hfuel Hx).
  apply (inv_size HI); [by apply (inv_R_lt HI)|by apply (Inv_R_idem n R s)].
Qed.

Lemma component_size_exact_witness :
  ∃ r, root_of 3 UnionFindProofs.chain3 2 = Some r ∧
       component_size UnionFindProofs.chain3 !! r =
         Some (length (component 3 UnionFindProofs.chain3 2)).
Proof.
  apply (component_size_exact 3 UnionFindProofs.chain3 2 3).
  - apply (reach_union 3 (match union 3 (init 3 None) 0 1 with
                          | Ret s => s | _ => init 3 None end) 3 1 2).
    + apply (reach_union 3 (init 3 None) 3 0 1); [apply reach_init|].
      vm_compute. reflexivity.
    + vm_compute. reflexivity.
  - vm_compute. by eexists.
  - lia.
Defined.

(** X5. Path compression: after [find_root(x)] the parent of [x] is the root
    returned, and that root is its own parent. *)
Theorem find_root_compresses (n : nat) (s : t) (x ix fuel : nat) :
  reachable n s → node_mapper s !! x = Some ix → n ≤ fuel →
  ∃ s' r, find_root fuel s x = Ret (s', r) ∧
          parents s' !! ix = Some r ∧ parents s' !! r = Some r.
Proof.
  intros [R HI]%reachable_Inv Hx Hfuel.
  destruct (find_root_total n R fuel s x ix HI Hx Hfuel) as (s'&Hf&HI'&Hfr).
  pose proof (inv_mapper HI _ _ Hx) as Hix.
  exists s', (R ix). split_and!; [done| |by apply (inv_R_root HI')].
  destruct fuel as [|fuel]; [done|]. cbn [find_root] in Hf.
  unfold map_get, list_get in Hf. rewrite Hx in Hf. cbn in Hf.
  destruct (Inv_lookup_parent n R s ix HI Hix) as [p Hp].
  rewrite Hp in Hf. cbn in Hf.
  destruct (decide (p = ix)) as [->|Hne].
  - injection Hf as <- <-. done.
  - destruct (inv_parent HI _ _ Hp) as [Hpn _].
    destruct (Inv_node n R s p HI Hpn) as (nx&Hnx&Hmx).
    rewrite Hnx in Hf. cbn in Hf.
    pose proof (find_root_spec n R fuel s nx p HI Hmx) as H1.
    destruct (find_root fuel s nx) as [[s1 r1]| |]; [|done..].
    destruct H1 as (->&HI1&_). cbn in Hf. unfold list_set in Hf.
    rewrite decide_True in Hf by by rewrite (inv_parents_len HI1).
    cbn in Hf. injection Hf as <- Hr. simpl.
    rewrite list_lookup_insert_eq by by rewrite (inv_parents_len HI1).
    by rewrite Hr.
Qed.

Lemma find_root_compresses_witness :
  ∃ s' r, find_root 3 UnionFindProofs.chain3 2 = Ret (s', r) ∧
          parents s' !! 2 = Some r ∧ parents s' !! r = Some r.
Proof.
  apply (find_root_compresses 3 UnionFindProofs.chain3 2 2 3).
  - apply (reach_union 3 (match union 3 (init 3 None) 0 1 with
                          | Ret s => s | _ => init 3 None end) 3 1 2).
    + apply (reach_union 3 (init 3 None) 3 0 1); [apply reach_init|].
      vm_compute. reflexivity.
    + vm_compute. reflexivity.
  - vm_compute. reflexivity.
  - lia.
Defined.

(** X6. [validate()] needs a cap: without one, on an object with at least one
    node, the comparison of a length with [None] raises [TypeError]. *)
Theorem validate_without_cap (n : nat) (s : t) (fuel : nat) :
  reachable n s → max_num_per_set s = None → 0 < n → n ≤ fuel →
  validate fuel s = Raise TypeError.
Proof.
  intros [R HI]%reachable_Inv Hmax Hn Hfuel. unfold validate.
  pose proof (group_by_root_spec n R fuel (nodes s) s [] [] HI
                (Inv_nodes_valid n R s HI) (Grouped_nil n R _)) as HG.
  destruct (group_by_root fuel s (nodes s) []) as [[s1 us]| |];
    [|done|lia].
  destruct HG as (_&Hf&[_ _ Hkeys]). cbn.
  destruct Hf as (->&_). rewrite Hmax.
  destruct (Inv_node n R s 0 HI Hn) as (x0&Hx0&_).
  specialize (Hkeys x0 ltac:(by eapply list_elem_of_lookup_2)).
  destruct us as [|[key l] us]; [by apply elem_of_nil in Hkeys|done].
Qed.

Lemma validate_without_cap_witness :
  validate 3 UnionFindProofs.chain3 = Raise TypeError.
Proof.
  apply (validate_without_cap 3 UnionFindProofs.chain3 3).
  - apply (reach_union 3 (match union 3 (init 3 None) 0 1 with
                          | Ret s => s | _ => init 3 None end) 3 1 2).
    + apply (reach_union 3 (init 3 None) 3 0 1); [apply reach_init|].
      vm_compute. reflexivity.
    + vm_compute. reflexivity.
  - reflexivity.
  - lia.
  - lia.
Defined.

(** X7. A cap below 1 cannot be met: after any run of [union] calls on an object
    constructed with such a cap and at least one node, [validate()] raises
    the assertion error. *)
Theorem validate_cap_below_one (n : nat) (m : Z) (pairs : list (nat * nat))
    (fuel : nat) :
  0 < n → (m < 1)%Z → n ≤ fuel →
  Forall (λ p, p.1 < n ∧ p.2 < n) pairs →
  ∃ s, unions fuel (init n (Some m)) pairs = Ret s ∧
       validate fuel s = Raise AssertionError.
Proof.
  intros Hn Hm Hfuel Hpairs.
  assert (Hv : Forall (valid_pair (node_mapper (init n (Some m)))) pairs).
  { eapply Forall_impl; [done|]. intros [x y] [? ?]. unfold valid_pair.
    rewrite !init_mapper, !decide_True by done. eauto. }
  pose proof (unions_spec n fuel pairs _ _ (init_Inv n (Some m)) Hv) as H.
  destruct (unions fuel (init n (Some m)) pairs) as [s| |]; [|done|lia].
  destruct H as (R&HI&_&Hmax&_&_). exists s. split; [done|].
  pose proof (validate_spec n R fuel s HI) as Hval.
  destruct (validate fuel s) as [s'|e|]; [| |lia].
  - destruct Hval as (_&_&HC). exfalso.
    pose proof (inv_R_lt HI 0 Hn) as Hr.
    pose proof (Inv_R_idem n R s 0 HI Hn) as Hid.
    pose proof (inv_rank_size HI _ Hr Hid).
    specialize (HC m (R 0)). rewrite Hmax in HC.
    specialize (HC eq_refl Hr Hid). lia.
  - destruct Hval as [[Hnone _]|[_ ->]]; [|done].
    rewrite Hmax in Hnone. done.
Qed.

Lemma validate_cap_below_one_witness :
  ∃ s, unions 2 (init 2 (Some 0%Z)) [(0, 1)] = Ret s ∧
       validate 2 s = Raise AssertionError.
Proof.
  apply (validate_cap_below_one 2 0 [(0, 1)] 2); [lia..|].
  repeat constructor; simpl; lia.
Defined.

(** X8. [init_with_nodes] renames the nodes: on a fresh object given [n]
    distinct ids, [find_root] of the id at position [i] returns [i], and
    every id that is not in the list, the former ids included, is a
    [KeyError]. *)
Theorem init_with_nodes_roots (n : nat) (cap : option Z) (l : list nat)
    (fuel : nat) :
  NoDup l → length l = n → 0 < fuel →
  let s := init_with_nodes (init n cap) l in
  (∀ i x, l !! i = Some x → find_root fuel s x = Ret (s, i)) ∧
  (∀ x, x ∉ l → find_root fuel s x = Raise KeyError).
Proof.
  intros Hnd Hlen Hfuel s. destruct fuel as [|fuel]; [lia|]. split.
  - intros i x Hx. cbn [find_root]. unfold map_get, list_get. simpl.
    rewrite (enumerate_into_lookup l 0 ∅ i x Hnd Hx). cbn.
    apply lookup_lt_Some in Hx as Hi.
    rewrite lookup_seq_lt by lia. cbn. by rewrite decide_True.
  - intros x Hx. cbn [find_root]. unfold map_get. simpl.
    by rewrite enumerate_into_notin.
Qed.

Lemma init_with_nodes_roots_witness :
  let s := init_with_nodes (init 3 None) [7; 5; 9] in
  (∀ i x, [7; 5; 9] !! i = Some x → find_root 1 s x = Ret (s, i)) ∧
  (∀ x, x ∉ [7; 5; 9] → find_root 1 s x = Raise KeyError).
Proof.
  apply (init_with_nodes_roots 3 None [7; 5; 9] 1).
  - repeat (constructor; [set_solver|]). constructor.
  - reflexivity.
  - lia.
Defined.

End UnionFindMore.

(** ** Correctness of the track builder *)

Module TrackProofs.
Import Track.
Import UnionFindProofs.

(** *** [build] *)

Section build.
Context (n : nat) (R : nat → nat).

(** The tracks once the elements of index below [i] are grouped: the track
    of key [r] holds as many elements as the tree of root [r] has indices
    below [i]. *)
Record Tracked (i : nat) (tracks : list (Z * list TrackElement)) : Prop := {
  tracked_wf : OrdDict.wf tracks;
  tracked_entries : ∀ key l, (key, l) ∈ tracks →
    ∃ r, key = Z.of_nat r ∧ r < n ∧ R r = r ∧
         length l = length (base.filter (λ j, R j = r) (seq 0 i));
  tracked_keys : ∀ j, j < i → Z.of_nat (R j) ∈ OrdDict.keys tracks
}.

Lemma Tracked_nil : Tracked 0 [].
Proof.
  split; [apply NoDup_nil_2|by intros ?? ?%elem_of_nil|intros; lia].
Qed.

Lemma filter_seq_S (r i : nat) :
  length (base.filter (λ j, R j = r) (seq 0 (S i))) =
  length (base.filter (λ j, R j = r) (seq 0 i)) +
  (if decide (R i = r) then 1 else 0).
Proof.
  rewrite seq_S, filter_app, length_app. f_equal. simpl.
  case_decide.
  - by rewrite filter_cons_True.
  - by rewrite filter_cons_False.
Qed.

Lemma filter_seq_prefix (r i : nat) :
  i ≤ n → length (base.filter (λ j, R j = r) (seq 0 i)) ≤ count n R r.
Proof.
  intros Hi. unfold count, members.
  replace n with (i + (n - i)) by lia.
  rewrite seq_app, filter_app, length_app. lia.
Qed.

Lemma Tracked_append i tracks e :
  Tracked i tracks → R i < n → R (R i) = R i →
  Tracked (S i) (tracks_append (Z.of_nat (R i)) e tracks).
Proof.
  intros [Hwf Hent Hkeys] Hlt Hroot. unfold tracks_append.
  assert (Hk' : ∀ v j, j < S i →
            Z.of_nat (R j) ∈ OrdDict.keys (OrdDict.set (Z.of_nat (R i)) v tracks)).
  { intros v j Hj. destruct (decide (j = i)) as [->|Hne].
    - apply OrdDictFacts.keys_set_key.
    - apply OrdDictFacts.keys_set_subseteq. apply Hkeys. lia. }
  assert (Hold : ∀ key l, (key, l) ∈ tracks → key ≠ Z.of_nat (R i) →
            ∃ r, key = Z.of_nat r ∧ r < n ∧ R r = r ∧
                 length l = length (base.filter (λ j, R j = r) (seq 0 (S i)))).
  { intros key l Hin Hne. destruct (Hent _ _ Hin) as (r&->&?&?&Hl).
    exists r. split_and!; [done..|]. rewrite filter_seq_S, Hl.
    rewrite decide_False by congruence. lia. }
  destruct (OrdDict.get (Z.of_nat (R i)) tracks) as [l|] eqn:Hget.
  - apply OrdDictFacts.get_Some_elem in Hget as Hin.
    destruct (Hent _ _ Hin) as (r&Hr&_&_&Hl).
    apply Nat2Z.inj in Hr. subst r.
    split; [by apply OrdDictFacts.wf_set| |by apply Hk'].
    intros key l' Hin'.
    destruct (OrdDictFacts.elem_set _ _ _ _ Hwf Hin') as [Heq|[Hin'' Hne]].
    + injection Heq as -> ->. exists (R i). split_and!; [done..|].
      rewrite filter_seq_S, length_app, Hl. by rewrite decide_True.
    + by apply Hold.
  - apply OrdDictFacts.get_None in Hget.
    split; [by apply OrdDictFacts.wf_set| |by apply Hk'].
    intros key l' Hin'.
    destruct (OrdDictFacts.elem_set _ _ _ _ Hwf Hin') as [Heq|[Hin'' Hne]].
    + injection Heq as -> ->. exists (R i). split_and!; [done..|].
      rewrite filter_seq_S, decide_True by done.
      rewrite ListFacts.filter_none; [done|].
      intros j [_ Hj]%elem_of_seq Hjr. apply Hget. rewrite <-Hjr.
      apply Hkeys. lia.
    + by apply Hold.
Qed.

Lemma group_tracks_spec fuel elements : ∀ finder i tracks tracks' o,
  Inv n finder R →
  (∀ x, x < n → UnionFind.node_mapper finder !! x = Some x) →
  i + length elements = n →
  Tracked i tracks →
  group_tracks fuel finder i elements tracks = (tracks', o) →
  (∃ i', i' ≤ n ∧ Tracked i' tracks') ∧ (o = OutOfFuel → fuel < n) ∧
  (∀ ex, o ≠ Raise ex).
Proof.
  induction elements as [|e rest IH];
    intros finder i tracks tracks' o HI Hmap Hlen HT; simpl.
  - intros [= <- <-]. split_and!; [|done..]. exists i. split; [simpl in *; lia|done].
  - simpl in Hlen. assert (Hi : i < n) by lia.
    pose proof (find_root_spec n R fuel finder i i HI (Hmap i Hi)) as Hf.
    destruct (UnionFind.find_root fuel finder i) as [[f1 r]| |]; [|done|].
    + destruct Hf as (->&HI1&Hfr). apply IH; [done| |lia|].
      * intros x Hx. destruct Hfr as (_&_&_&->&_). auto.
      * apply Tracked_append; [done|by apply (inv_R_lt HI)|].
        by apply (Inv_R_idem n R finder).
    + intros [= <- <-]. split_and!; [|lia|done]. exists i. split; [lia|done].
Qed.

End build.

(** After [build] on a fresh builder the tracks have unique keys and at most
    [max_track_length] elements each, whatever the call did. *)
Lemma build_spec fuel min_len max_len elements pairs tb o :
  build fuel (new min_len max_len) elements pairs = (tb, o) →
  min_track_length tb = min_len ∧ max_track_length tb = max_len ∧
  OrdDict.wf (consistent_tracks tb) ∧
  (∀ key l, (key, l) ∈ consistent_tracks tb →
     (Z.of_nat (length l) ≤ max_len)%Z) ∧
  (length elements < fuel → o ≠ OutOfFuel).
Proof.
  unfold build. simpl. set (n := length elements).
  pose proof (UnionFindProofs.unions_spec_any n fuel pairs _ _
                (init_Inv n (Some max_len))) as Hu.
  assert (Hnil : OrdDict.wf (@nil (Z * list TrackElement))) by apply NoDup_nil_2.
  destruct (UnionFind.unions fuel _ pairs) as [f1| |]; cbn.
  2:{ intros [= <- <-]. simpl. split_and!; [done..|by intros ?? ?%elem_of_nil|done]. }
  2:{ intros [= <- <-]. simpl. split_and!; [done..|by intros ?? ?%elem_of_nil|lia]. }
  destruct Hu as (R&HI&_&Hmax&Hmap&_).
  pose proof (validate_spec n R fuel f1 HI) as Hv.
  destruct (UnionFind.validate fuel f1) as [f2| |].
  2:{ intros [= <- <-]. simpl. split_and!; [done..|by intros ?? ?%elem_of_nil|done]. }
  2:{ intros [= <- <-]. simpl. split_and!; [done..|by intros ?? ?%elem_of_nil|lia]. }
  destruct Hv as (HI2&Hfr&HC).
  destruct (group_tracks fuel f2 0 elements []) as [tracks o'] eqn:Hg.
  intros [= <- <-]. simpl.
  assert (Hmap2 : ∀ x, x < n → UnionFind.node_mapper f2 !! x = Some x).
  { intros x Hx. destruct Hfr as (_&_&_&->&_).
    rewrite Hmap, init_mapper. by rewrite decide_True. }
  destruct (group_tracks_spec n R fuel elements f2 0 [] tracks o' HI2 Hmap2
              eq_refl (Tracked_nil n R) Hg) as ((i'&Hi'&[Hwf Hent _])&Hfuel&Hraise).
  split_and!; [done..| |].
  - intros key l Hin. destruct (Hent _ _ Hin) as (r&->&Hr&HRr&->).
    pose proof (filter_seq_prefix n R r i' Hi').
    assert (Z.of_nat (count n R r) ≤ max_len)%Z; [|lia].
    apply HC; [|done..]. by rewrite Hmax.
  - intros Hlt. destruct o' as [f3| |]; cbn.
    + unfold mean_track_length. by case_decide.
    + done.
    + specialize (Hfuel eq_refl). unfold n in Hfuel. lia.
Qed.

(** *** [filter] *)

Lemma dedup_spec l : ∀ seen,
  NoDup (image_id <$> dedup seen l) ∧
  (∀ e, e ∈ dedup seen l → image_id e ∉ seen) ∧
  length (dedup seen l) ≤ length l ∧
  (length (dedup seen l) = length l → dedup seen l = l).
Proof.
  induction l as [|e l IH]; intros seen; simpl.
  - split_and!; [apply NoDup_nil_2|by intros ? ?%elem_of_nil|done..].
  - case_decide as Hin.
    + destruct (IH seen) as (?&?&?&?). split_and!; [done..|lia|lia].
    + destruct (IH ({[image_id e]} ∪ seen)) as (Hnd&Hfresh&Hle&Heq).
      split_and!.
      * rewrite fmap_cons. apply NoDup_cons. split; [|done].
        intros [e' [He' Hin']]%list_elem_of_fmap.
        apply Hfresh in Hin'. set_solver.
      * intros e' [->|Hin']%elem_of_cons; [done|].
        apply Hfresh in Hin'. set_solver.
      * simpl. lia.
      * simpl. intros [= Hl]. f_equal. auto.
Qed.

Section filter.
Context (min_len max_len : Z).

(** What [filter] establishes for a track. *)
Definition good_track (l : list TrackElement) : Prop :=
  NoDup (image_id <$> l) ∧
  (min_len ≤ Z.of_nat (length l))%Z ∧ (Z.of_nat (length l) ≤ max_len)%Z.

(** The loop invariant of [filter], with the keys [todo] still to visit. *)
Record Filtering (todo : list Z) (tracks : list (Z * list TrackElement))
  : Prop := {
  filtering_wf : OrdDict.wf tracks;
  filtering_todo : ∀ k, k ∈ todo → k ∈ OrdDict.keys tracks;
  filtering_max : ∀ k l, (k, l) ∈ tracks → (Z.of_nat (length l) ≤ max_len)%Z;
  filtering_done : ∀ k l, (k, l) ∈ tracks → k ∉ todo → good_track l
}.

Lemma filter_step_spec root_id todo tracks :
  root_id ∉ todo → Filtering (root_id :: todo) tracks →
  ∃ tracks', filter_step min_len tracks root_id = Ret tracks' ∧
             Filtering todo tracks'.
Proof.
  intros Hni [Hwf Htodo Hmax Hdone]. unfold filter_step.
  assert (Hpop : Filtering todo (OrdDict.pop root_id tracks)).
  { split.
    - by apply OrdDictFacts.wf_pop.
    - intros k Hk. apply OrdDictFacts.get_is_Some.
      rewrite OrdDictFacts.get_pop by done.
      rewrite decide_False by (intros ->; done).
      apply OrdDictFacts.get_is_Some. apply Htodo. by right.
    - intros k l Hin. eapply Hmax, OrdDictFacts.elem_pop, Hin.
    - intros k l Hin Hk. 
      assert (k ≠ root_id).
      { intros ->. apply OrdDictFacts.elem_get in Hin;
          [|by apply OrdDictFacts.wf_pop].
        rewrite OrdDictFacts.get_pop in Hin by done.
        by rewrite decide_True in Hin. }
      eapply Hdone; [eapply OrdDictFacts.elem_pop, Hin|].
      by intros [?|?]%elem_of_cons. }
  destruct (OrdDict.get root_id tracks) as [cand|] eqn:Hget.
  2:{ apply OrdDictFacts.get_None in Hget. destruct Hget. apply Htodo. left. }
  apply OrdDictFacts.get_Some_elem in Hget as Hin.
  case_decide as Hshort; [by eexists|].
  destruct (dedup_spec cand ∅) as (Hnd&_&Hle&Heq).
  case_decide as Hlen.
  - case_decide as Hmin; [|by eexists].
    eexists. split; [done|]. destruct Hpop as [Hwf' Htodo' Hmax' Hdone'].
    split.
    + by apply OrdDictFacts.wf_set.
    + intros k Hk. by apply OrdDictFacts.keys_set_subseteq, Htodo'.
    + intros k l Hin'.
      destruct (OrdDictFacts.elem_set _ _ _ _ Hwf' Hin') as [[= -> ->]|[? ?]].
      * pose proof (Hmax _ _ Hin). lia.
      * eauto.
    + intros k l Hin' Hk.
      destruct (OrdDictFacts.elem_set _ _ _ _ Hwf' Hin') as [[= -> ->]|[? ?]].
      * split_and!; [done..|]. pose proof (Hmax _ _ Hin). lia.
      * eauto.
  - eexists. split; [done|]. split; [done| | done |].
    + intros k Hk. apply Htodo. by right.
    + intros k l Hin' Hk. destruct (decide (k = root_id)) as [->|Hne].
      * pose proof (OrdDictFacts.elem_get _ _ _ Hwf Hin') as Hget'.
        rewrite Hget in Hget'. injection Hget' as <-.
        assert (dedup ∅ cand = cand) as Hd by (apply Heq; lia).
        rewrite Hd in Hnd. split_and!; [done|lia|by eapply Hmax].
      * eapply Hdone; [done|]. by intros [?|?]%elem_of_cons.
Qed.

Lemma filter_loop_spec todo : ∀ tracks,
  NoDup todo → Filtering todo tracks →
  ∃ tracks', filter_loop min_len todo tracks = (tracks', Ret ()) ∧
             Filtering [] tracks'.
Proof.
  induction todo as [|root_id todo IH]; intros tracks Hnd HF; simpl.
  - eauto.
  - apply NoDup_cons in Hnd as [Hni Hnd].
    destruct (filter_step_spec root_id todo tracks Hni HF) as (t1&->&HF1).
    by apply IH.
Qed.

End filter.

(** C3. On a fresh builder, after [build] followed by [filter], every track
    of [consistent_tracks] has pairwise distinct image ids and between
    [min_track_length] and [max_track_length] elements; [build] does not run
    out of fuel when given more than the number of elements. *)
Theorem build_filter_invariant (min_len max_len : Z)
    (elements : list TrackElement) (pairs : list (nat * nat)) (fuel : nat) :
  length elements < fuel →
  (build fuel (new min_len max_len) elements pairs).2 ≠ OutOfFuel ∧
  ∀ key track,
    (key, track) ∈ consistent_tracks
      (filter (build fuel (new min_len max_len) elements pairs).1).1 →
    NoDup (image_id <$> track) ∧
    (min_len ≤ Z.of_nat (length track))%Z ∧
    (Z.of_nat (length track) ≤ max_len)%Z.
Proof.
  intros Hfuel.
  destruct (build fuel (new min_len max_len) elements pairs) as [tb o] eqn:Hb.
  destruct (build_spec _ _ _ _ _ _ _ Hb) as (Hmin&Hmax&Hwf&Hlen&Ho).
  split; [by apply Ho|]. simpl. unfold filter.
  assert (HF : Filtering (min_track_length tb) max_len
                 (OrdDict.keys (consistent_tracks tb)) (consistent_tracks tb)).
  { split; [done..|].
    intros k l Hin Hk. destruct Hk. apply list_elem_of_fmap. by exists (k, l). }
  destruct (filter_loop_spec (min_track_length tb) max_len _ _ Hwf HF)
    as (tracks'&->&[_ _ _ Hdone]).
  simpl. intros key track Hin. rewrite <-Hmin.
  apply (Hdone key track Hin). apply not_elem_of_nil.
Qed.

Lemma build_filter_invariant_witness :
  (build 5 (new 3 40) example_elements example_pairs).2 ≠ OutOfFuel ∧
  ∀ key track,
    (key, track) ∈ consistent_tracks
      (filter (build 5 (new 3 40) example_elements example_pairs).1).1 →
    NoDup (image_id <$> track) ∧
    (3 ≤ Z.of_nat (length track))%Z ∧
    (Z.of_nat (length track) ≤ 40)%Z.
Proof.
  apply (build_filter_invariant 3 40 example_elements example_pairs 5).
  simpl. lia.
Defined.

(** *** The track file *)

#[local] Arguments String.append !_ _ : simpl nomatch.

Fixpoint has_char (c : ascii) (s : string) : bool :=
  match s with
  | EmptyString => false
  | String c' s' => bool_decide (c' = c) || has_char c s'
  end.

Lemma has_char_app c s1 s2 :
  has_char c (s1 +:+ s2) = has_char c s1 || has_char c s2.
Proof.
  induction s1 as [|c' s1 IH]; simpl; [done|]. by rewrite IH, orb_assoc.
Qed.

Lemma append_assoc (s1 s2 s3 : string) :
  (s1 +:+ s2) +:+ s3 = s1 +:+ (s2 +:+ s3).
Proof. induction s1 as [|c s1 IH]; simpl; [done|]. by rewrite IH. Qed.

Lemma append_nil_r (s : string) : s +:+ "" = s.
Proof. induction s as [|c s IH]; simpl; [done|]. by rewrite IH. Qed.

Lemma readline_line l r :
  has_char LF l = false →
  readline ((l +:+ String LF "") +:+ r) = (l +:+ String LF "", r).
Proof.
  induction l as [|c l IH]; simpl.
  - done.
  - intros [Hc Hl]%orb_false_elim. apply bool_decide_eq_false in Hc.
    rewrite decide_False by done. by rewrite IH.
Qed.

Lemma rstrip_LF_line l :
  has_char LF l = false → rstrip_LF (l +:+ String LF "") = l.
Proof.
  induction l as [|c l IH]; simpl.
  - done.
  - intros [Hc Hl]%orb_false_elim. apply bool_decide_eq_false in Hc.
    rewrite IH by done. destruct l; [|done]. by rewrite decide_False.
Qed.

Lemma split_SP_word a :
  has_char SP a = false → split_SP a = [a].
Proof.
  induction a as [|c a IH]; simpl; [done|].
  intros [Hc Ha]%orb_false_elim. apply bool_decide_eq_false in Hc.
  rewrite decide_False by done. by rewrite IH.
Qed.

Lemma split_SP_cons a r :
  has_char SP a = false →
  split_SP (a +:+ String SP r) = a :: split_SP r.
Proof.
  induction a as [|c a IH]; simpl.
  - done.
  - intros [Hc Ha]%orb_false_elim. apply bool_decide_eq_false in Hc.
    rewrite decide_False by done. by rewrite IH.
Qed.

(** The decimal text of an integer holds digits and a sign only. *)
Lemma has_char_uint c d :
  c = SP ∨ c = LF → has_char c (NilEmpty.string_of_uint d) = false.
Proof.
  intros Hc. induction d; simpl; rewrite ?IHd; try done;
    rewrite orb_false_r; apply bool_decide_eq_false;
    destruct Hc as [-> | ->]; done.
Qed.

Lemma has_char_str c z : c = SP ∨ c = LF → has_char c (str z) = false.
Proof.
  intros Hc. unfold str.
  assert (Hu : ∀ d, has_char c (NilZero.string_of_uint d) = false).
  { intros d. destruct d; try apply (has_char_uint c _ Hc).
    simpl. destruct Hc as [-> | ->]; done. }
  destruct (Z.to_int z) as [d|d]; simpl; [apply Hu|].
  rewrite Hu, orb_false_r. apply bool_decide_eq_false.
  destruct Hc as [-> | ->]; done.
Qed.

Lemma py_int_str z : py_int (str z) = Ret z.
Proof.
  unfold py_int, str.
  assert (Hisi : NilZero.int_of_string (NilZero.string_of_int (Z.to_int z))
                 = Some (Z.to_int z)).
  { apply NilZero.isi; destruct z; simpl; try done;
      intros [= H]; by apply Unsigned.to_uint_nonnil in H. }
  destruct (NilZero.string_of_int (Z.to_int z)) as [|c s] eqn:Hs; [done|].
  rewrite decide_False.
  - rewrite Hisi. by rewrite DecimalZ.of_to.
  - intros ->. destruct (Z.to_int z) as [d|d]; [|done].
    destruct d; done.
Qed.

Lemma int_at_str line i z : line !! i = Some (str z) → int_at line i = Ret z.
Proof.
  intros H. unfold int_at, list_get. rewrite H. cbn. apply py_int_str.
Qed.

(** The tokens of the line of elements of a track. *)
Definition tokens (track : list TrackElement) : list string :=
  track ≫= λ e, [str (image_id e); str (point2D_idx e)].

Lemma join_cons x l : join (x :: l) = x +:+ join l.
Proof. done. Qed.

Lemma has_char_LF_element e : has_char LF (write_element e) = false.
Proof.
  unfold write_element. rewrite has_char_app. simpl. rewrite has_char_app.
  simpl. by rewrite !has_char_str by (by right).
Qed.

Lemma has_char_LF_elements track :
  has_char LF (join (write_element <$> track)) = false.
Proof.
  induction track as [|e track IH]; [done|].
  by rewrite fmap_cons, join_cons, has_char_app, IH, has_char_LF_element.
Qed.

Lemma split_SP_elements track :
  split_SP (join (write_element <$> track)) = tokens track ++ [""].
Proof.
  induction track as [|e track IH]; [done|].
  rewrite fmap_cons, join_cons. unfold write_element.
  rewrite append_assoc. simpl.
  rewrite split_SP_cons by (apply has_char_str; by left).
  rewrite append_assoc. simpl.
  rewrite split_SP_cons by (apply has_char_str; by left).
  do 2 f_equal. exact IH.
Qed.

Lemma next_line_header key track r :
  next_line (write_track key track +:+ r) =
  ([str key; str (Z.of_nat (length track))],
   (join (write_element <$> track) +:+ String LF "") +:+ r).
Proof.
  unfold next_line, write_track. rewrite append_assoc.
  assert (Hh : has_char LF (write_header key track) = false).
  { unfold write_header. rewrite has_char_app. simpl.
    by rewrite !has_char_str by (by right). }
  rewrite readline_line by done. rewrite rstrip_LF_line by done.
  unfold write_header.
  rewrite split_SP_cons by (apply has_char_str; by left).
  by rewrite split_SP_word by (apply has_char_str; by left).
Qed.

Lemma next_line_elements track r :
  next_line ((join (write_element <$> track) +:+ String LF "") +:+ r) =
  (tokens track ++ [""], r).
Proof.
  unfold next_line.
  rewrite readline_line by apply has_char_LF_elements.
  rewrite rstrip_LF_line by apply has_char_LF_elements.
  by rewrite split_SP_elements.
Qed.

Lemma read_elements_all track_id rest : ∀ i pre acc tracks,
  length pre = 2 * i →
  OrdDict.get track_id tracks = Some acc →
  read_elements (length rest) i (pre ++ tokens rest ++ [""]) None track_id
    tracks =
  (OrdDict.set track_id (acc ++ rest) tracks, Ret ()).
Proof.
  induction rest as [|e rest IH]; intros i pre acc tracks Hpre Hget; simpl.
  - by rewrite app_nil_r, OrdDictFacts.set_get_id.
  - assert (H0 : (pre ++ str (image_id e) :: str (point2D_idx e)
                    :: tokens rest ++ [""]) !! (i + (i + 0) + 0)
                 = Some (str (image_id e))).
    { rewrite lookup_app_r by lia.
      by replace (i + (i + 0) + 0 - length pre) with 0 by lia. }
    assert (H1 : (pre ++ str (image_id e) :: str (point2D_idx e)
                    :: tokens rest ++ [""]) !! (i + (i + 0) + 1)
                 = Some (str (point2D_idx e))).
    { rewrite lookup_app_r by lia.
      by replace (i + (i + 0) + 1 - length pre) with 1 by lia. }
    rewrite (int_at_str _ _ _ H0). cbn. rewrite (int_at_str _ _ _ H1). cbn.
    rewrite Hget.
    specialize (IH (S i) (pre ++ [str (image_id e); str (point2D_idx e)])
                  (acc ++ [e]) (OrdDict.set track_id (acc ++ [e]) tracks)).
    rewrite <-app_assoc in IH. simpl in IH.
    destruct e as [img pt]. simpl in *. rewrite IH.
    + rewrite OrdDictFacts.set_set. by rewrite <-app_assoc.
    + rewrite length_app. simpl. lia.
    + rewrite OrdDictFacts.get_set. by rewrite decide_True.
Qed.

Lemma read_loop_written rest : ∀ fuel acc,
  NoDup (OrdDict.keys (acc ++ rest)) →
  length rest < fuel →
  let '(line, r) :=
    next_line (join ((λ kt, write_track kt.1 kt.2) <$> rest)) in
  read_loop fuel None acc line r = (acc ++ rest, Ret ()).
Proof.
  induction rest as [|[key track] rest IH]; intros fuel acc Hnd Hfuel.
  - simpl. destruct fuel as [|fuel]; [simpl in Hfuel; lia|].
    simpl. by rewrite app_nil_r.
  - destruct fuel as [|fuel]; [simpl in Hfuel; lia|].
    rewrite fmap_cons. simpl join. simpl fst. simpl snd.
    rewrite next_line_header. cbn [read_loop length].
    rewrite decide_True by lia.
    unfold int_at at 1 2, list_get. cbn. rewrite !py_int_str. cbn.
    rewrite next_line_elements. rewrite Nat2Z.id.
    assert (Hfresh : key ∉ OrdDict.keys acc).
    { unfold OrdDict.keys in *. rewrite fmap_app in Hnd.
      apply NoDup_app in Hnd as (_&Hdisj&_). intros Hin.
      apply (Hdisj key Hin). left. }
    pose proof (read_elements_all key track 0 [] [] (OrdDict.set key [] acc)
                  eq_refl) as Hre.
    rewrite OrdDictFacts.get_set, decide_True in Hre by done.
    specialize (Hre eq_refl). simpl in Hre. rewrite Hre.
    rewrite OrdDictFacts.set_set.
    rewrite (OrdDictFacts.set_fresh key track acc Hfresh).
    specialize (IH fuel (acc ++ [(key, track)])).
    rewrite <-app_assoc in IH. simpl in IH.
    specialize (IH Hnd ltac:(simpl in Hfuel; lia)).
    destruct (next_line _) as [line r]. exact IH.
Qed.

(** C7. Whatever the tracks of a builder (a dict: its keys are unique),
    reading the file it writes into a fresh builder, with no image-id filter,
    returns and gives the same dict: the same root ids, each with the same
    elements (in the same order). *)
Theorem write_read_roundtrip (tb : TrackBuilder) (min_len max_len : Z)
    (fuel : nat) :
  OrdDict.wf (consistent_tracks tb) →
  length (consistent_tracks tb) < fuel →
  read_from_file fuel (new min_len max_len) (write_to_file tb) None =
  (mkTrackBuilder min_len max_len (consistent_tracks tb), Ret ()).
Proof.
  intros Hwf Hfuel. unfold read_from_file, write_to_file.
  pose proof (read_loop_written (consistent_tracks tb) fuel [] Hwf Hfuel) as H.
  destruct (next_line _) as [line r]. simpl. by rewrite H.
Qed.

Lemma write_read_roundtrip_witness :
  read_from_file 2 (new 3 40) (write_to_file example_filtered) None =
  (mkTrackBuilder 3 40 (consistent_tracks example_filtered), Ret ()).
Proof.
  apply (write_read_roundtrip example_filtered 3 40 2).
  - vm_compute. repeat constructor. intros H. inversion H.
  - vm_compute. lia.
Defined.

(** C10. [read_from_file] checks no length.  The builder [example_filtered]
    comes out of [build] and [filter] with one track of three elements and a
    minimum length of 3; read back from its file with the allow-list [[1]]
    the track has one element, and with the empty allow-list the key is
    there with an empty list of elements. *)
Theorem read_from_file_keeps_short_tracks :
  min_track_length example_filtered = 3%Z ∧
  consistent_tracks example_filtered =
    [(0%Z, [mkTrackElement 1 10; mkTrackElement 2 20; mkTrackElement 3 30])] ∧
  read_from_file 2 (new 3 40) (write_to_file example_filtered) (Some [1%Z]) =
    (mkTrackBuilder 3 40 [(0%Z, [mkTrackElement 1 10])], Ret ()) ∧
  read_from_file 2 (new 3 40) (write_to_file example_filtered) (Some []) =
    (mkTrackBuilder 3 40 [(0%Z, [])], Ret ()).
Proof. vm_compute. done. Qed.

End TrackProofs.

(** ** More on the track builder: what [build] returns and raises, what
    [filter] keeps, and reading a track file for a list of images *)

Module TrackMore.
Import Track.
Import UnionFindProofs.
Import TrackProofs.

#[local] Arguments String.append !_ _ : simpl nomatch.

(** *** [build] *)

Lemma set_append_perm (k : Z) (l : list TrackElement) e tracks :
  OrdDict.get k tracks = Some l →
  concat (OrdDict.set k (l ++ [e]) tracks).*2 ≡ₚ e :: concat tracks.*2.
Proof.
  induction tracks as [|[k' v] tracks IH]; simpl; [done|].
  destruct (decide (k = k')) as [->|Hne].
  - intros [= ->]. simpl. rewrite <-app_assoc. simpl.
    symmetry. apply Permutation_middle.
  - intros Hg. simpl. rewrite (IH Hg). symmetry. apply Permutation_middle.
Qed.

Lemma tracks_append_perm k e tracks :
  concat (tracks_append k e tracks).*2 ≡ₚ e :: concat tracks.*2.
Proof.
  unfold tracks_append. destruct (OrdDict.get k tracks) as [l|] eqn:Hg.
  - by apply set_append_perm.
  - apply OrdDictFacts.get_None in Hg. rewrite OrdDictFacts.set_fresh by done.
    rewrite fmap_app, concat_app. simpl.
    rewrite <-Permutation_cons_append. done.
Qed.

Lemma elem_set_weak (k : Z) (v : list TrackElement) d x :
  x ∈ OrdDict.set k v d → x = (k, v) ∨ x ∈ d.
Proof.
  induction d as [|[k' v'] d IH]; simpl.
  - intros ->%list_elem_of_singleton. by left.
  - destruct (decide (k = k')) as [->|Hne].
    + intros [->|?]%elem_of_cons; [by left|right; by right].
    + intros [->|Hin]%elem_of_cons; [right; left|].
      destruct (IH Hin) as [->|?]; [by left|right; by right].
Qed.

Lemma tracks_append_nonempty k e tracks :
  (∀ k' l, (k', l) ∈ tracks → l ≠ []) →
  ∀ k' l, (k', l) ∈ tracks_append k e tracks → l ≠ [].
Proof.
  intros Hne k' l. unfold tracks_append.
  destruct (OrdDict.get k tracks) as [l0|];
    intros [[= -> ->]|Hin]%elem_set_weak; eauto.
  by destruct l0.
Qed.

Lemma group_tracks_Ret fuel elements : ∀ finder i tracks tracks' f,
  group_tracks fuel finder i elements tracks = (tracks', Ret f) →
  concat tracks'.*2 ≡ₚ concat tracks.*2 ++ elements ∧
  ((∀ k l, (k, l) ∈ tracks → l ≠ []) → ∀ k l, (k, l) ∈ tracks' → l ≠ []).
Proof.
  induction elements as [|e rest IH]; intros finder i tracks tracks' f; simpl.
  - intros [= <- <-]. by rewrite app_nil_r.
  - destruct (UnionFind.find_root fuel finder i) as [[f1 r]| |]; [|done..].
    intros Hg. destruct (IH _ _ _ _ _ Hg) as [Hp Hn]. split.
    + rewrite Hp, tracks_append_perm. simpl. apply Permutation_middle.
    + intros Hne. apply Hn. by apply tracks_append_nonempty.
Qed.

Lemma valid_pairs_init n cap pairs :
  Forall (λ p : nat * nat, p.1 < n ∧ p.2 < n) pairs →
  Forall (valid_pair (UnionFind.node_mapper (UnionFind.init n cap))) pairs.
Proof.
  intros H. eapply Forall_impl; [done|]. intros [x y] [? ?]. unfold valid_pair.
  rewrite !init_mapper, !decide_True by done. eauto.
Qed.

(** [build] returns on valid input, and what it leaves. *)
Lemma build_total (min_len max_len : Z)
    (elements : list TrackElement) (pairs : list (nat * nat)) (fuel : nat) :
  (1 ≤ max_len)%Z → elements ≠ [] →
  Forall (λ p, p.1 < length elements ∧ p.2 < length elements) pairs →
  length elements < fuel →
  ∃ tracks,
    build fuel (new min_len max_len) elements pairs =
      (mkTrackBuilder min_len max_len tracks, Ret ()) ∧
    concat tracks.*2 ≡ₚ elements ∧
    ∀ k l, (k, l) ∈ tracks → l ≠ [].
Proof.
  intros Hmax Hne Hv Hfuel.
  unfold build. simpl. set (n := length elements).
  pose proof (unions_spec n fuel pairs _ _ (init_Inv n (Some max_len))
                (valid_pairs_init n _ pairs Hv)) as Hu.
  destruct (UnionFind.unions fuel _ pairs) as [f1| |]; [|done|unfold n in *; lia].
  cbn. destruct Hu as (R&HI&HC&Hmaxeq&Hmap&_).
  specialize (HC (init_Capped n max_len (λ _, Hmax))).
  pose proof (validate_spec n R fuel f1 HI) as Hval.
  destruct (UnionFind.validate fuel f1) as [f2|ex|];
    [| |unfold n in *; lia].
  2:{ destruct Hval as [[Hnone _]|[Hnc _]]; [|done].
      rewrite Hmaxeq in Hnone. done. }
  destruct Hval as (HI2&Hfr&_).
  destruct (group_tracks fuel f2 0 elements []) as [tracks o'] eqn:Hg.
  assert (Hmap2 : ∀ x, x < n → UnionFind.node_mapper f2 !! x = Some x).
  { intros x Hx. destruct Hfr as (_&_&_&->&_).
    rewrite Hmap, init_mapper. by rewrite decide_True. }
  destruct (group_tracks_spec n R fuel elements f2 0 [] tracks o' HI2 Hmap2
              eq_refl (Tracked_nil n R) Hg) as (_&Hof&Hraise).
  destruct o' as [f3|ex|]; [|by destruct (Hraise ex)|
                            specialize (Hof eq_refl); unfold n in *; lia].
  destruct (group_tracks_Ret _ _ _ _ _ _ _ Hg) as [Hperm Hnonempty].
  simpl in Hperm. exists tracks. split_and!; [|done|].
  - unfold set_tracks, mean_track_length. simpl. rewrite decide_False; [done|].
    destruct tracks; [|done]. simpl in Hperm.
    apply Permutation_nil in Hperm. done.
  - apply Hnonempty. by intros ?? ?%elem_of_nil.
Qed.

(** X9. [build] on a fresh builder, with a cap of at least 1, at least one
    element and pairs of valid indices, returns normally, and the tracks it
    leaves partition the elements: every element is in one track, once; no
    track is empty or longer than the cap, and no key is repeated. *)
Theorem build_partitions (min_len max_len : Z)
    (elements : list TrackElement) (pairs : list (nat * nat)) (fuel : nat) :
  (1 ≤ max_len)%Z → elements ≠ [] →
  Forall (λ p, p.1 < length elements ∧ p.2 < length elements) pairs →
  length elements < fuel →
  ∃ tracks,
    build fuel (new min_len max_len) elements pairs =
      (mkTrackBuilder min_len max_len tracks, Ret ()) ∧
    OrdDict.wf tracks ∧
    concat tracks.*2 ≡ₚ elements ∧
    ∀ k l, (k, l) ∈ tracks →
      l ≠ [] ∧ (Z.of_nat (length l) ≤ max_len)%Z.
Proof.
  intros Hmax Hne Hv Hfuel.
  destruct (build_total min_len max_len elements pairs fuel Hmax Hne Hv Hfuel)
    as (tracks&Hb&Hperm&Hnonempty).
  destruct (build_spec _ _ _ _ _ _ _ Hb) as (_&_&Hwf&Hlen&_).
  exists tracks. split_and!; [done..|].
  intros k l Hin. split; [by eapply Hnonempty|by eapply Hlen].
Qed.

Lemma build_partitions_witness :
  ∃ tracks,
    build 5 (new 3 40) example_elements example_pairs =
      (mkTrackBuilder 3 40 tracks, Ret ()) ∧
    OrdDict.wf tracks ∧
    concat tracks.*2 ≡ₚ example_elements ∧
    ∀ k l, (k, l) ∈ tracks → l ≠ [] ∧ (Z.of_nat (length l) ≤ 40)%Z.
Proof.
  apply (build_partitions 3 40 example_elements example_pairs 5).
  - lia.
  - discriminate.
  - repeat constructor; simpl; lia.
  - simpl. lia.
Defined.

Lemma unions_invalid n fuel pairs : ∀ R s,
  Inv n s R → n < fuel →
  ¬ Forall (valid_pair (UnionFind.node_mapper s)) pairs →
  UnionFind.unions fuel s pairs = Raise KeyError.
Proof.
  induction pairs as [|[x y] pairs IH]; intros R s HI Hfuel Hnv; simpl.
  - destruct Hnv. constructor.
  - destruct (UnionFind.node_mapper s !! x) as [ix|] eqn:Hx.
    2:{ unfold UnionFind.union. destruct fuel as [|fuel]; [lia|].
        cbn [UnionFind.find_root]. unfold map_get. by rewrite Hx. }
    destruct (UnionFind.node_mapper s !! y) as [iy|] eqn:Hy.
    2:{ unfold UnionFind.union.
        destruct (find_root_total n R fuel s x ix HI Hx ltac:(lia))
          as (s1&->&_&Hfr).
        cbn. destruct fuel as [|fuel]; [lia|].
        cbn [UnionFind.find_root]. unfold map_get.
        destruct Hfr as (_&_&_&->&_). by rewrite Hy. }
    destruct (UnionFindMore.union_outcome n R fuel s x y ix iy HI Hx Hy
                ltac:(lia)) as (s'&R'&->&HI'&_&Hmap&_).
    cbn. apply (IH R' s' HI' Hfuel). rewrite Hmap. intros HF. apply Hnv.
    constructor; [|done]. split; simpl; eauto.
Qed.

(** X10. A pair that names an index outside the list of elements makes [build]
    raise [KeyError], from [union], before any track is stored. *)
Theorem build_invalid_pair (min_len max_len : Z)
    (elements : list TrackElement) (pairs : list (nat * nat)) (fuel : nat) :
  Exists (λ p, length elements ≤ p.1 ∨ length elements ≤ p.2) pairs →
  length elements < fuel →
  build fuel (new min_len max_len) elements pairs =
    (new min_len max_len, Raise KeyError).
Proof.
  intros Hex Hfuel. unfold build. simpl.
  rewrite (unions_invalid (length elements) fuel pairs _ _
             (init_Inv _ _) Hfuel); [done|].
  intros HF. apply Exists_exists in Hex as ([x y]&Hin&Hbad).
  rewrite Forall_forall in HF. destruct (HF _ Hin) as [[ix Hx] [iy Hy]].
  cbn [fst snd] in Hx, Hy, Hbad. rewrite init_mapper in Hx, Hy.
  destruct Hbad; [rewrite decide_False in Hx by lia
                 |rewrite decide_False in Hy by lia]; done.
Qed.

Lemma build_invalid_pair_witness :
  build 5 (new 3 40) example_elements [(0, 1); (1, 4)] =
    (new 3 40, Raise KeyError).
Proof.
  apply (build_invalid_pair 3 40 example_elements [(0, 1); (1, 4)] 5).
  - right. left. right. simpl. lia.
  - simpl. lia.
Defined.

(** X11. With a cap below 1 and at least one element, [build] stops at the
    assertion of [validate], whatever the (valid) pairs. *)
Theorem build_cap_below_one (min_len max_len : Z)
    (elements : list TrackElement) (pairs : list (nat * nat)) (fuel : nat) :
  (max_len < 1)%Z → elements ≠ [] →
  Forall (λ p, p.1 < length elements ∧ p.2 < length elements) pairs →
  length elements < fuel →
  build fuel (new min_len max_len) elements pairs =
    (new min_len max_len, Raise AssertionError).
Proof.
  intros Hmax Hne Hv Hfuel. unfold build. simpl. set (n := length elements).
  assert (Hn : 0 < n) by (unfold n; destruct elements; [done|simpl; lia]).
  pose proof (unions_spec n fuel pairs _ _ (init_Inv n (Some max_len))
                (valid_pairs_init n _ pairs Hv)) as Hu.
  destruct (UnionFind.unions fuel _ pairs) as [f1| |]; [|done|unfold n in *; lia].
  cbn. destruct Hu as (R&HI&_&Hmaxeq&_).
  pose proof (validate_spec n R fuel f1 HI) as Hval.
  destruct (UnionFind.validate fuel f1) as [f2|ex|];
    [| |unfold n in *; lia].
  - destruct Hval as (_&_&HC). exfalso.
    pose proof (inv_R_lt HI 0 Hn) as Hr.
    pose proof (Inv_R_idem n R f1 0 HI Hn) as Hid.
    pose proof (inv_rank_size HI _ Hr Hid).
    specialize (HC max_len (R 0)). rewrite Hmaxeq in HC.
    specialize (HC eq_refl Hr Hid). lia.
  - destruct Hval as [[Hnone _]|[_ ->]]; [|done].
    rewrite Hmaxeq in Hnone. done.
Qed.

Lemma build_cap_below_one_witness :
  build 5 (new 3 0) example_elements example_pairs =
    (new 3 0, Raise AssertionError).
Proof.
  apply (build_cap_below_one 3 0 example_elements example_pairs 5).
  - lia.
  - discriminate.
  - repeat constructor; simpl; lia.
  - simpl. lia.
Defined.

(** X12. [build] with no element never returns normally: with no pair the mean
    track length divides by zero, and any pair is a [KeyError]. *)
Theorem build_without_elements (min_len max_len : Z)
    (pairs : list (nat * nat)) (fuel : nat) :
  0 < fuel →
  build fuel (new min_len max_len) [] pairs =
    (new min_len max_len,
     Raise (match pairs with [] => ZeroDivisionError | _ => KeyError end)).
Proof.
  intros Hfuel. destruct pairs as [|[x y] pairs]; [done|].
  unfold build. simpl length.
  rewrite (unions_invalid 0 fuel ((x, y) :: pairs) _ _
             (init_Inv _ _) Hfuel); [done|].
  intros [[[ix Hx] _] _]%Forall_cons. cbn [fst] in Hx.
  by rewrite init_mapper in Hx.
Qed.

Lemma build_without_elements_witness :
  build 1 (new 3 40) [] [(0, 0)] = (new 3 40, Raise KeyError).
Proof. apply (build_without_elements 3 40 [(0, 0)] 1). lia. Defined.

(** *** [filter] *)

(** What [filter] leaves under a key: the first element of each image, when
    these are at least [min_len]. *)
Definition filtered (min_len : Z) (tracks : list (Z * list TrackElement))
    (k : Z) : option (list TrackElement) :=
  match OrdDict.get k tracks with
  | Some l =>
      if decide (min_len ≤ Z.of_nat (length (dedup ∅ l)))%Z
      then Some (dedup ∅ l) else None
  | None => None
  end.

Lemma filter_step_get min_len tracks0 root_id todo tracks :
  root_id ∉ todo → OrdDict.wf tracks →
  is_Some (OrdDict.get root_id tracks0) →
  (∀ k, OrdDict.get k tracks =
        if decide (k ∈ root_id :: todo) then OrdDict.get k tracks0
        else filtered min_len tracks0 k) →
  ∃ tracks', filter_step min_len tracks root_id = Ret tracks' ∧
    OrdDict.wf tracks' ∧
    ∀ k, OrdDict.get k tracks' =
         if decide (k ∈ todo) then OrdDict.get k tracks0
         else filtered min_len tracks0 k.
Proof.
  intros Hni Hwf [cand Hc] Hget. unfold filter_step.
  rewrite (Hget root_id), decide_True by left. rewrite Hc.
  destruct (dedup_spec cand ∅) as (Hnd&_&Hle&Heq).
  assert (Hother : ∀ k, k ≠ root_id →
    OrdDict.get k tracks =
    if decide (k ∈ todo) then OrdDict.get k tracks0
    else filtered min_len tracks0 k).
  { intros k Hk. rewrite Hget.
    destruct (decide (k ∈ root_id :: todo)) as [[?|?]%elem_of_cons|Hn];
      [done|by rewrite decide_True|].
    rewrite decide_False; [done|]. intros ?. apply Hn. by right. }
  assert (Hroot : filtered min_len tracks0 root_id =
    if decide (min_len ≤ Z.of_nat (length (dedup ∅ cand)))%Z
    then Some (dedup ∅ cand) else None).
  { unfold filtered. by rewrite Hc. }
  assert (Hpop : ∀ k, ¬ (min_len ≤ Z.of_nat (length (dedup ∅ cand)))%Z →
    OrdDict.get k (OrdDict.pop root_id tracks) =
    if decide (k ∈ todo) then OrdDict.get k tracks0
    else filtered min_len tracks0 k).
  { intros k Hshort. rewrite OrdDictFacts.get_pop by done.
    destruct (decide (k = root_id)) as [->|Hne]; [|by apply Hother].
    rewrite decide_False by done. rewrite Hroot. by rewrite decide_False. }
  destruct (decide (Z.of_nat (length cand) < min_len)%Z) as [Hshort|Hshort].
  { eexists. split; [done|]. split; [by apply OrdDictFacts.wf_pop|].
    intros k. apply Hpop. lia. }
  destruct (decide (length cand ≠ length (dedup ∅ cand))) as [Hlen|Hlen].
  - destruct (decide (min_len ≤ Z.of_nat (length (dedup ∅ cand)))%Z)
      as [Hmin|Hmin].
    + eexists. split; [done|].
      split; [by apply OrdDictFacts.wf_set, OrdDictFacts.wf_pop|].
      intros k. rewrite OrdDictFacts.get_set.
      destruct (decide (k = root_id)) as [->|Hne].
      * rewrite decide_False by done. by rewrite Hroot.
      * rewrite OrdDictFacts.get_pop by done. rewrite decide_False by done.
        by apply Hother.
    + eexists. split; [done|]. split; [by apply OrdDictFacts.wf_pop|].
      intros k. by apply Hpop.
  - eexists. split; [done|]. split; [done|]. intros k.
    destruct (decide (k = root_id)) as [->|Hne]; [|by apply Hother].
    rewrite Hget, decide_True by left. rewrite decide_False by done.
    rewrite Hroot, Hc. rewrite Heq by lia. rewrite decide_True by lia. done.
Qed.

Lemma filter_loop_get min_len tracks0 todo : ∀ tracks,
  NoDup todo → OrdDict.wf tracks →
  (∀ k, k ∈ todo → is_Some (OrdDict.get k tracks0)) →
  (∀ k, OrdDict.get k tracks =
        if decide (k ∈ todo) then OrdDict.get k tracks0
        else filtered min_len tracks0 k) →
  ∃ tracks', filter_loop min_len todo tracks = (tracks', Ret ()) ∧
    OrdDict.wf tracks' ∧
    ∀ k, OrdDict.get k tracks' = filtered min_len tracks0 k.
Proof.
  induction todo as [|root_id todo IH]; intros tracks Hnd Hwf Hsome Hget;
    simpl.
  - exists tracks. split_and!; [done..|]. intros k. rewrite Hget.
    rewrite decide_False; [done|]. apply not_elem_of_nil.
  - apply NoDup_cons in Hnd as [Hni Hnd].
    destruct (filter_step_get min_len tracks0 root_id todo tracks Hni Hwf)
      as (t1&->&Hwf1&Hget1); [apply Hsome; left|done|].
    apply IH; [done..| |done]. intros k Hk. apply Hsome. by right.
Qed.

Lemma filter_result tb :
  OrdDict.wf (consistent_tracks tb) →
  ∃ tracks',
    filter tb = (set_tracks tb tracks',
                 if decide (tracks' = []) then Raise ZeroDivisionError
                 else Ret ()) ∧
    OrdDict.wf tracks' ∧
    ∀ k, OrdDict.get k tracks' =
         filtered (min_track_length tb) (consistent_tracks tb) k.
Proof.
  intros Hwf. unfold filter.
  destruct (filter_loop_get (min_track_length tb) (consistent_tracks tb)
              (OrdDict.keys (consistent_tracks tb)) (consistent_tracks tb))
    as (tracks'&->&Hwf'&Hget); [done|done| | |].
  - intros k Hk. by apply OrdDictFacts.get_is_Some.
  - intros k. case_decide as Hk; [done|].
    apply OrdDictFacts.get_None in Hk. unfold filtered. by rewrite Hk.
  - exists tracks'. split_and!; [|done..]. cbn. f_equal.
    unfold mean_track_length. simpl.
    destruct tracks'; [done|]. by rewrite decide_False.
Qed.

(** X13. [filter] decides track by track: a track stays, under its key, exactly
    when the first elements of its images are at least [min_track_length],
    and then these elements are the track; the call returns normally when a
    track stays and divides by zero when none does. *)
Theorem filter_characterisation (tb : TrackBuilder) :
  OrdDict.wf (consistent_tracks tb) →
  ∃ tracks',
    filter tb = (set_tracks tb tracks',
                 if decide (tracks' = []) then Raise ZeroDivisionError
                 else Ret ()) ∧
    OrdDict.wf tracks' ∧
    ∀ k l', (k, l') ∈ tracks' ↔
      ∃ l, (k, l) ∈ consistent_tracks tb ∧ l' = dedup ∅ l ∧
           (min_track_length tb ≤ Z.of_nat (length l'))%Z.
Proof.
  intros Hwf. destruct (filter_result tb Hwf) as (tracks'&Hf&Hwf'&Hget).
  exists tracks'. split_and!; [done..|]. intros k l'. split.
  - intros Hin%(OrdDictFacts.elem_get _ _ _ Hwf'). rewrite Hget in Hin.
    unfold filtered in Hin.
    destruct (OrdDict.get k (consistent_tracks tb)) as [l|] eqn:Hl; [|done].
    case_decide; [|done]. injection Hin as <-. exists l.
    split_and!; [|done..]. by apply OrdDictFacts.get_Some_elem.
  - intros (l&Hin%(OrdDictFacts.elem_get _ _ _ Hwf)&->&Hmin).
    apply OrdDictFacts.get_Some_elem. rewrite Hget. unfold filtered.
    rewrite Hin. by rewrite decide_True.
Qed.

Lemma filter_characterisation_witness :
  ∃ tracks',
    filter example_built =
      (set_tracks example_built tracks',
       if decide (tracks' = []) then Raise ZeroDivisionError else Ret ()) ∧
    OrdDict.wf tracks' ∧
    ∀ k l', (k, l') ∈ tracks' ↔
      ∃ l, (k, l) ∈ consistent_tracks example_built ∧ l' = dedup ∅ l ∧
           (min_track_length example_built ≤ Z.of_nat (length l'))%Z.
Proof.
  apply (filter_characterisation example_built).
  vm_compute. repeat constructor. set_solver.
Defined.

Lemma dedup_id l : ∀ seen,
  NoDup (image_id <$> l) → (∀ e, e ∈ l → image_id e ∉ seen) →
  dedup seen l = l.
Proof.
  induction l as [|e l IH]; intros seen Hnd Hseen; simpl; [done|].
  rewrite fmap_cons in Hnd. apply NoDup_cons in Hnd as [Hni Hnd].
  rewrite decide_False by (apply Hseen; left). f_equal.
  apply IH; [done|]. intros e' He'.
  intros [Heq%elem_of_singleton|Hin]%elem_of_union.
  - apply Hni. rewrite <-Heq. apply list_elem_of_fmap. by exists e'.
  - apply (Hseen e'); [by right|done].
Qed.

Lemma filter_loop_good min_len todo : ∀ tracks,
  (∀ k, k ∈ todo → ∃ l, OrdDict.get k tracks = Some l ∧
     (min_len ≤ Z.of_nat (length l))%Z ∧ NoDup (image_id <$> l)) →
  filter_loop min_len todo tracks = (tracks, Ret ()).
Proof.
  induction todo as [|k todo IH]; intros tracks Hgood; simpl; [done|].
  destruct (Hgood k) as (l&Hl&Hmin&Hnd); [left|].
  unfold filter_step. rewrite Hl. rewrite decide_False by lia.
  rewrite (dedup_id l ∅ Hnd) by (intros; apply not_elem_of_empty).
  rewrite decide_False by (intros H; by apply H).
  apply IH. intros k' Hk'. apply Hgood. by right.
Qed.

(** X14. [filter] is idempotent: a second call changes nothing and ends as the
    first did. *)
Theorem filter_idempotent (tb : TrackBuilder) :
  OrdDict.wf (consistent_tracks tb) →
  filter (filter tb).1 = filter tb.
Proof.
  intros Hwf. destruct (filter_result tb Hwf) as (tracks'&Hf&Hwf'&Hget).
  rewrite Hf. cbn [fst]. unfold filter at 1. cbn.
  rewrite filter_loop_good.
  - unfold set_tracks, mean_track_length. simpl. f_equal.
    destruct tracks'; [done|]. by rewrite decide_False.
  - intros k [l Hl]%OrdDictFacts.get_is_Some. exists l. split; [done|].
    rewrite Hget in Hl. unfold filtered in Hl.
    destruct (OrdDict.get k (consistent_tracks tb)) as [l0|]; [|done].
    case_decide; [|done]. injection Hl as <-. split; [done|].
    by destruct (dedup_spec l0 ∅) as (?&_).
Qed.

Lemma filter_idempotent_witness :
  filter (filter example_built).1 = filter example_built.
Proof.
  apply (filter_idempotent example_built).
  vm_compute. repeat constructor. set_solver.
Defined.

Lemma dedup_sublist l : ∀ seen, sublist (dedup seen l) l.
Proof.
  induction l as [|e l IH]; intros seen; simpl; [done|].
  case_decide; [by apply sublist_cons|by apply sublist_skip].
Qed.

Lemma dedup_first l : ∀ seen e,
  e ∈ dedup seen l ↔
  image_id e ∉ seen ∧
  ∃ i, l !! i = Some e ∧
       ∀ j e', j < i → l !! j = Some e' → image_id e' ≠ image_id e.
Proof.
  induction l as [|a l IH]; intros seen e; simpl.
  - split; [by intros ?%elem_of_nil|]. by intros (_&i&?&_).
  - destruct (decide (image_id a ∈ seen)) as [Ha|Ha].
    + rewrite IH. split.
      * intros (Hns&i&Hi&Hfirst). split; [done|]. exists (S i).
        split; [done|]. intros [|j] e' Hj He'.
        -- injection He' as <-. intros Heq. by rewrite Heq in Ha.
        -- apply (Hfirst j); [lia|done].
      * intros (Hns&[|i]&Hi&Hfirst).
        -- injection Hi as ->. done.
        -- split; [done|]. exists i. split; [done|].
           intros j e' Hj He'. apply (Hfirst (S j)); [lia|done].
    + rewrite elem_of_cons, IH. split.
      * intros [->|(Hns&i&Hi&Hfirst)].
        -- split; [done|]. exists 0. split; [done|]. intros; lia.
        -- apply not_elem_of_union in Hns as [Hne%not_elem_of_singleton Hns].
           split; [done|]. exists (S i). split; [done|].
           intros [|j] e' Hj He'.
           ++ injection He' as <-. congruence.
           ++ apply (Hfirst j); [lia|done].
      * intros (Hns&[|i]&Hi&Hfirst).
        -- injection Hi as ->. by left.
        -- right. split.
           ++ apply not_elem_of_union. split; [|done].
              apply not_elem_of_singleton. intros Heq.
              apply (Hfirst 0 a); [lia|done|done].
           ++ exists i. split; [done|].
              intros j e' Hj He'. apply (Hfirst (S j)); [lia|done].
Qed.

(** X15. The inner loop of [filter] keeps, in their order, the elements that no
    earlier element of the track shares its image with, and nothing else. *)
Theorem dedup_keeps_first (l : list TrackElement) :
  sublist (dedup ∅ l) l ∧
  ∀ e, e ∈ dedup ∅ l ↔
       ∃ i, l !! i = Some e ∧
            ∀ j e', j < i → l !! j = Some e' → image_id e' ≠ image_id e.
Proof.
  split; [apply dedup_sublist|]. intros e. rewrite dedup_first.
  split; [by intros [_ ?]|]. intros ?. split; [apply not_elem_of_empty|done].
Qed.

(** *** [read_from_file] with a list of images *)

(** The elements [read_from_file] stores for a track of the file. *)
Definition keep (image_ids : option (list Z)) (l : list TrackElement)
  : list TrackElement :=
  match image_ids with
  | None => l
  | Some ids => base.filter (λ e, image_id e ∈ ids) l
  end.

Lemma keep_cons image_ids e l :
  keep image_ids (e :: l) =
  (if match image_ids with
      | Some ids => bool_decide (image_id e ∉ ids)
      | None => false
      end then [] else [e]) ++ keep image_ids l.
Proof.
  destruct image_ids as [ids|]; simpl; [|done].
  destruct (decide (image_id e ∈ ids)) as [Hin|Hni].
  - rewrite filter_cons_True by done.
    rewrite bool_decide_eq_false_2; [done|]. by intros ?.
  - rewrite filter_cons_False by done. by rewrite bool_decide_eq_true_2.
Qed.

Lemma read_elements_keep image_ids track_id rest : ∀ i pre acc tracks,
  length pre = 2 * i →
  OrdDict.get track_id tracks = Some acc →
  read_elements (length rest) i (pre ++ tokens rest ++ [""]) image_ids
    track_id tracks =
  (OrdDict.set track_id (acc ++ keep image_ids rest) tracks, Ret ()).
Proof.
  induction rest as [|e rest IH]; intros i pre acc tracks Hpre Hget.
  - destruct image_ids; simpl;
      by rewrite ?filter_nil, app_nil_r, OrdDictFacts.set_get_id.
  - rewrite keep_cons. simpl.
    assert (H0 : (pre ++ str (image_id e) :: str (point2D_idx e)
                    :: tokens rest ++ [""]) !! (i + (i + 0) + 0)
                 = Some (str (image_id e))).
    { rewrite lookup_app_r by lia.
      by replace (i + (i + 0) + 0 - length pre) with 0 by lia. }
    assert (H1 : (pre ++ str (image_id e) :: str (point2D_idx e)
                    :: tokens rest ++ [""]) !! (i + (i + 0) + 1)
                 = Some (str (point2D_idx e))).
    { rewrite lookup_app_r by lia.
      by replace (i + (i + 0) + 1 - length pre) with 1 by lia. }
    rewrite (int_at_str _ _ _ H0). cbn. rewrite (int_at_str _ _ _ H1). cbn.
    destruct (match image_ids with
              | Some ids => bool_decide (image_id e ∉ ids)
              | None => false
              end).
    + specialize (IH (S i) (pre ++ [str (image_id e); str (point2D_idx e)])
                    acc tracks).
      rewrite <-app_assoc in IH. simpl in IH. rewrite IH; [done| |done].
      rewrite length_app. simpl. lia.
    + rewrite Hget.
      specialize (IH (S i) (pre ++ [str (image_id e); str (point2D_idx e)])
                    (acc ++ [e]) (OrdDict.set track_id (acc ++ [e]) tracks)).
      rewrite <-app_assoc in IH. simpl in IH.
      destruct e as [img pt]. simpl in *. rewrite IH.
      * rewrite OrdDictFacts.set_set. by rewrite <-app_assoc.
      * rewrite length_app. simpl. lia.
      * rewrite OrdDictFacts.get_set. by rewrite decide_True.
Qed.

Definition keep_track (image_ids : option (list Z))
    (kt : Z * list TrackElement) : Z * list TrackElement :=
  (kt.1, keep image_ids kt.2).

Lemma read_loop_keep image_ids rest : ∀ fuel acc,
  NoDup (OrdDict.keys (acc ++ rest)) →
  length rest < fuel →
  let '(line, r) :=
    next_line (join ((λ kt, write_track kt.1 kt.2) <$> rest)) in
  read_loop fuel image_ids acc line r =
    (acc ++ (keep_track image_ids <$> rest), Ret ()).
Proof.
  induction rest as [|[key track] rest IH]; intros fuel acc Hnd Hfuel.
  - simpl. destruct fuel as [|fuel]; [simpl in Hfuel; lia|].
    simpl. by rewrite app_nil_r.
  - destruct fuel as [|fuel]; [simpl in Hfuel; lia|].
    rewrite !fmap_cons. simpl join. simpl fst. simpl snd.
    rewrite next_line_header. cbn [read_loop length].
    rewrite decide_True by lia.
    unfold int_at at 1 2, list_get. cbn. rewrite !py_int_str. cbn.
    rewrite next_line_elements. rewrite Nat2Z.id.
    assert (Hfresh : key ∉ OrdDict.keys acc).
    { unfold OrdDict.keys in *. rewrite fmap_app in Hnd.
      apply NoDup_app in Hnd as (_&Hdisj&_). intros Hin.
      apply (Hdisj key Hin). left. }
    pose proof (read_elements_keep image_ids key track 0 [] []
                  (OrdDict.set key [] acc) eq_refl) as Hre.
    rewrite OrdDictFacts.get_set, decide_True in Hre by done.
    specialize (Hre eq_refl). simpl in Hre. rewrite Hre.
    rewrite OrdDictFacts.set_set.
    rewrite (OrdDictFacts.set_fresh key _ acc Hfresh).
    specialize (IH fuel (acc ++ [(key, keep image_ids track)])).
    rewrite <-app_assoc in IH. simpl in IH.
    assert (Hnd' : NoDup (OrdDict.keys
                     (acc ++ (key, keep image_ids track) :: rest))).
    { unfold OrdDict.keys in *. rewrite fmap_app in Hnd |- *. done. }
    specialize (IH Hnd' ltac:(simpl in Hfuel; lia)).
    destruct (next_line _) as [line r]. rewrite IH.
    by rewrite <-app_assoc.
Qed.

(** X16. Reading a written file into a builder whose keys differ from those
    of the file adds the tracks of the file after the tracks already there,
    each under its key and in the order of the file, with the elements whose
    image is in [image_ids]; a track none of whose images is listed is added
    as an empty track.  Without a list every element is kept. *)
Theorem read_from_file_image_ids (tb0 tb : TrackBuilder)
    (image_ids : option (list Z)) (fuel : nat) :
  OrdDict.wf (consistent_tracks tb0 ++ consistent_tracks tb) →
  length (consistent_tracks tb) < fuel →
  read_from_file fuel tb0 (write_to_file tb) image_ids =
  (set_tracks tb0
     (consistent_tracks tb0 ++
      ((λ kt, (kt.1, keep image_ids kt.2)) <$> consistent_tracks tb)),
   Ret ()).
Proof.
  intros Hwf Hfuel. unfold read_from_file, write_to_file.
  pose proof (read_loop_keep image_ids (consistent_tracks tb) fuel
                (consistent_tracks tb0) Hwf Hfuel) as H.
  destruct (next_line _) as [line r]. simpl. by rewrite H.
Qed.

Lemma read_from_file_image_ids_witness :
  read_from_file 2 (new 3 40) (write_to_file example_filtered)
    (Some [1; 3]%Z) =
  (set_tracks (new 3 40)
     (consistent_tracks (new 3 40) ++
      ((λ kt, (kt.1, keep (Some [1; 3]%Z) kt.2)) <$>
         consistent_tracks example_filtered)),
   Ret ()).
Proof.
  apply (read_from_file_image_ids (new 3 40) example_filtered
           (Some [1; 3]%Z) 2).
  - vm_compute. repeat constructor. set_solver.
  - vm_compute. lia.
Defined.

(** *** A file whose header does not give the number of elements *)

(** The two lines of a track, with [count] in the header. *)
Definition track_text (key count : Z) (track : list TrackElement) : string :=
  ((str key +:+ String SP (str count)) +:+ String LF "") +:+
  (join (write_element <$> track) +:+ String LF "").

Lemma next_line_track_text key count track :
  next_line (track_text key count track) =
  ([str key; str count], join (write_element <$> track) +:+ String LF "").
Proof.
  unfold next_line, track_text.
  assert (Hh : has_char LF (str key +:+ String SP (str count)) = false).
  { rewrite has_char_app. simpl.
    by rewrite !has_char_str by (by right). }
  rewrite readline_line by done. rewrite rstrip_LF_line by done.
  rewrite split_SP_cons by (apply has_char_str; by left).
  by rewrite split_SP_word by (apply has_char_str; by left).
Qed.

Lemma read_elements_prefix track_id count : ∀ rest i pre acc tracks,
  length pre = 2 * i →
  OrdDict.get track_id tracks = Some acc →
  count ≤ length rest →
  read_elements count i (pre ++ tokens rest ++ [""]) None track_id tracks =
  (OrdDict.set track_id (acc ++ take count rest) tracks, Ret ()).
Proof.
  induction count as [|count IH]; intros rest i pre acc tracks Hpre Hget Hle.
  - simpl. by rewrite take_0, app_nil_r, OrdDictFacts.set_get_id.
  - destruct rest as [|e rest]; [simpl in Hle; lia|]. simpl.
    assert (H0 : (pre ++ str (image_id e) :: str (point2D_idx e)
                    :: tokens rest ++ [""]) !! (i + (i + 0) + 0)
                 = Some (str (image_id e))).
    { rewrite lookup_app_r by lia.
      by replace (i + (i + 0) + 0 - length pre) with 0 by lia. }
    assert (H1 : (pre ++ str (image_id e) :: str (point2D_idx e)
                    :: tokens rest ++ [""]) !! (i + (i + 0) + 1)
                 = Some (str (point2D_idx e))).
    { rewrite lookup_app_r by lia.
      by replace (i + (i + 0) + 1 - length pre) with 1 by lia. }
    rewrite (int_at_str _ _ _ H0). cbn. rewrite (int_at_str _ _ _ H1). cbn.
    rewrite Hget.
    specialize (IH rest (S i) (pre ++ [str (image_id e); str (point2D_idx e)])
                  (acc ++ [e]) (OrdDict.set track_id (acc ++ [e]) tracks)).
    rewrite <-app_assoc in IH. simpl in IH.
    destruct e as [img pt]. simpl in *. rewrite IH.
    + rewrite OrdDictFacts.set_set. by rewrite <-app_assoc.
    + rewrite length_app. simpl. lia.
    + rewrite OrdDictFacts.get_set. by rewrite decide_True.
    + lia.
Qed.

Lemma read_elements_overrun track_id rest : ∀ count i pre acc tracks,
  length pre = 2 * i →
  OrdDict.get track_id tracks = Some acc →
  length rest < count →
  read_elements count i (pre ++ tokens rest ++ [""]) None track_id tracks =
  (OrdDict.set track_id (acc ++ rest) tracks, Raise ValueError).
Proof.
  induction rest as [|e rest IH]; intros count i pre acc tracks Hpre Hget Hlt;
    (destruct count as [|count]; [simpl in Hlt; lia|]); simpl.
  - assert (H0 : (pre ++ [""]) !! (i + (i + 0) + 0) = Some ""%string).
    { rewrite lookup_app_r by lia.
      by replace (i + (i + 0) + 0 - length pre) with 0 by lia. }
    unfold int_at, list_get. rewrite H0. cbn.
    by rewrite app_nil_r, OrdDictFacts.set_get_id.
  - assert (H0 : (pre ++ str (image_id e) :: str (point2D_idx e)
                    :: tokens rest ++ [""]) !! (i + (i + 0) + 0)
                 = Some (str (image_id e))).
    { rewrite lookup_app_r by lia.
      by replace (i + (i + 0) + 0 - length pre) with 0 by lia. }
    assert (H1 : (pre ++ str (image_id e) :: str (point2D_idx e)
                    :: tokens rest ++ [""]) !! (i + (i + 0) + 1)
                 = Some (str (point2D_idx e))).
    { rewrite lookup_app_r by lia.
      by replace (i + (i + 0) + 1 - length pre) with 1 by lia. }
    rewrite (int_at_str _ _ _ H0). cbn. rewrite (int_at_str _ _ _ H1). cbn.
    rewrite Hget.
    specialize (IH count (S i)
                  (pre ++ [str (image_id e); str (point2D_idx e)])
                  (acc ++ [e]) (OrdDict.set track_id (acc ++ [e]) tracks)).
    rewrite <-app_assoc in IH. simpl in IH.
    destruct e as [img pt]. simpl in *. rewrite IH.
    + rewrite OrdDictFacts.set_set. by rewrite <-app_assoc.
    + rewrite length_app. simpl. lia.
    + rewrite OrdDictFacts.get_set. by rewrite decide_True.
    + lia.
Qed.

(** X29. [read_from_file] trusts the count of the header line: on a file
    of one track whose header gives [count], it keeps the first [count]
    elements of the line when the line has at least that many (none when
    [count] is not positive) and ignores the others; when the line has
    fewer, [int('')] raises [ValueError] after the elements of the line
    have been stored. *)
Theorem read_from_file_header_count (key count : Z)
    (track : list TrackElement) (min_len max_len : Z) (fuel : nat) :
  1 < fuel →
  read_from_file fuel (new min_len max_len) (track_text key count track)
    None =
  if decide (count ≤ Z.of_nat (length track))%Z
  then (mkTrackBuilder min_len max_len
          [(key, take (Z.to_nat count) track)], Ret ())
  else (mkTrackBuilder min_len max_len [(key, track)], Raise ValueError).
Proof.
  intros Hfuel. unfold read_from_file.
  rewrite next_line_track_text.
  destruct fuel as [|[|fuel]]; [lia..|].
  cbn [read_loop length consistent_tracks new].
  rewrite decide_True by lia.
  unfold int_at at 1 2, list_get. cbn. rewrite !py_int_str. cbn.
  assert (Htext : join (write_element <$> track) +:+ String LF "" =
                  (join (write_element <$> track) +:+ String LF "") +:+ "")
    by (by rewrite append_nil_r).
  rewrite Htext, next_line_elements.
  destruct (decide (count ≤ Z.of_nat (length track))%Z) as [Hle|Hgt].
  - pose proof (read_elements_prefix key (Z.to_nat count) track 0 [] []
                  [(key, [])] eq_refl) as Hre.
    simpl in Hre. rewrite decide_True in Hre by done.
    rewrite (Hre eq_refl) by lia. simpl.
    by rewrite decide_True by done.
  - pose proof (read_elements_overrun key track (Z.to_nat count) 0 [] []
                  [(key, [])] eq_refl) as Hre.
    simpl in Hre. rewrite decide_True in Hre by done.
    rewrite (Hre eq_refl) by lia. simpl.
    by rewrite decide_True by done.
Qed.

Lemma read_from_file_header_count_witness :
  read_from_file 2 (new 3 40) (track_text 7 3 [mkTrackElement 1 10]) None =
  if decide (3 ≤ Z.of_nat (length [mkTrackElement 1 10]))%Z
  then (mkTrackBuilder 3 40 [(7%Z, take (Z.to_nat 3) [mkTrackElement 1 10])],
        Ret ())
  else (mkTrackBuilder 3 40 [(7%Z, [mkTrackElement 1 10])], Raise ValueError).
Proof.
  apply (read_from_file_header_count 7 3 [mkTrackElement 1 10] 3 40 2). lia.
Defined.

(** X17. The whole pipeline: the tracks left by [build] and [filter] on a fresh
    builder, written to a file and read back into a fresh builder with the
    same bounds, give the same builder. *)
Theorem build_filter_write_read (min_len max_len : Z)
    (elements : list TrackElement) (pairs : list (nat * nat))
    (fuel fuel' : nat) :
  let tb := (filter (build fuel (new min_len max_len) elements pairs).1).1 in
  length (consistent_tracks tb) < fuel' →
  read_from_file fuel' (new min_len max_len) (write_to_file tb) None =
    (tb, Ret ()).
Proof.
  destruct (build fuel (new min_len max_len) elements pairs) as [tb0 o] eqn:Hb.
  destruct (build_spec _ _ _ _ _ _ _ Hb) as (Hmin&Hmax&Hwf&_).
  destruct (filter_result tb0 Hwf) as (tracks'&Hf&Hwf'&_).
  simpl. rewrite Hf. simpl. intros Hfuel.
  unfold read_from_file, write_to_file. simpl.
  pose proof (read_loop_written tracks' fuel' [] Hwf' Hfuel) as H.
  destruct (next_line _) as [line r]. simpl. rewrite H.
  unfold set_tracks. by rewrite Hmin, Hmax.
Qed.

Lemma build_filter_write_read_witness :
  read_from_file 2 (new 3 40)
    (write_to_file
       (filter (build 5 (new 3 40) example_elements example_pairs).1).1)
    None =
  ((filter (build 5 (new 3 40) example_elements example_pairs).1).1, Ret ()).
Proof.
  apply (build_filter_write_read 3 40 example_elements example_pairs 5 2).
  vm_compute. lia.
Defined.

End TrackMore.

(** ** Edge classification and view-graph construction *)

Module ViewGraphProofs.
Import ViewGraph.

(** An error below 5.0 is not above 15.0, so the second mask assignment
    leaves the inliers alone. *)
Lemma below_low_not_above_high (x : spec_float) :
  Float64.ltb x thresh_rot_low = true → Float64.ltb thresh_rot_high x = false.
Proof.
  unfold Float64.ltb, SFltb, thresh_rot_low, thresh_rot_high,
    Float64.f5_0, Float64.f15_0.
  destruct x as [[]|[]| |[] m e]; cbn [SFcompare];
    try (intros; discriminate); try reflexivity.
  destruct (Z.compare_spec e (-50)); destruct (Z.compare_spec (-49) e);
    try (intros; discriminate); try reflexivity; exfalso; lia.
Qed.

(** The classification of one rotation error. *)
Definition classify (x : spec_float) : spec_float :=
  if Float64.ltb x thresh_rot_low then Float32.f1_0
  else if Float64.ltb thresh_rot_high x then Float32.f0_0
  else Float32.f0_5.

Lemma classify_edges_lookup (rot_deg : list spec_float) (i : nat) :
  classify_edges rot_deg !! i = classify <$> rot_deg !! i.
Proof.
  unfold classify_edges, mask_assign.
  rewrite !lookup_zip_with, !list_lookup_fmap.
  destruct (rot_deg !! i) as [x|] eqn:Hx; simpl.
  - rewrite lookup_replicate_2 by (by eapply lookup_lt_Some). simpl.
    unfold classify.
    destruct (Float64.ltb x thresh_rot_low) eqn:Hlow.
    + by rewrite below_low_not_above_high.
    + done.
  - by destruct (replicate _ _ !! i).
Qed.

Lemma classify_edges_length (rot_deg : list spec_float) :
  length (classify_edges rot_deg) = length rot_deg.
Proof.
  unfold classify_edges, mask_assign.
  rewrite !length_zip_with, !length_fmap, length_replicate. lia.
Qed.

(** X18. The mask of the edge of index [i] is 1.0 when its rotation error is
    below 5.0, 0.0 when it is above 15.0 and 0.5 otherwise; an error of
    exactly 5.0 or exactly 15.0 gives 0.5. *)
Theorem classify_edges_spec (rot_deg : list spec_float) (i : nat)
    (x : spec_float) :
  rot_deg !! i = Some x →
  classify_edges rot_deg !! i =
    Some (if Float64.ltb x Float64.f5_0 then Float32.f1_0
          else if Float64.ltb Float64.f15_0 x then Float32.f0_0
          else Float32.f0_5) ∧
  (x = Float64.f5_0 ∨ x = Float64.f15_0 →
   classify_edges rot_deg !! i = Some Float32.f0_5).
Proof.
  intros Hx. rewrite classify_edges_lookup, Hx. simpl. split; [done|].
  by intros [-> | ->].
Qed.

Lemma classify_edges_spec_witness :
  classify_edges [Float64.f15_0; Float64.f5_0; Float64.f1_0] !! 1 =
    Some (if Float64.ltb Float64.f5_0 Float64.f5_0 then Float32.f1_0
          else if Float64.ltb Float64.f15_0 Float64.f5_0 then Float32.f0_0
          else Float32.f0_5) ∧
  (Float64.f5_0 = Float64.f5_0 ∨ Float64.f5_0 = Float64.f15_0 →
   classify_edges [Float64.f15_0; Float64.f5_0; Float64.f1_0] !! 1 =
     Some Float32.f0_5).
Proof.
  apply (classify_edges_spec
           [Float64.f15_0; Float64.f5_0; Float64.f1_0] 1 Float64.f5_0).
  reflexivity.
Defined.

(** *** The loop that fills the dict and the graph *)

Section load.
Context {Pose : Type} (rot_deg_of : nat * nat → Pose → spec_float).
Context (matches : gmap (nat * nat) Z).
Implicit Types (tvg : list ((nat * nat) * TwoViewGeometry (Pose := Pose)))
  (graph : list (nat * list (nat * Z))).

(** What holds of the dict and the graph once the pairs [seen] have been
    visited. *)
Record Loaded (seen : list (nat * nat)) tvg graph : Prop := {
  loaded_canonical : ∀ p, p ∈ seen → p.1 < p.2;
  loaded_keys : ∀ p, is_Some (OrdDict.get p tvg) → is_Some (matches !! p);
  loaded_adj : ∀ a b w, GraphFacts.adj graph a b = Some w →
    matches !! (a, b) = Some w ∨ matches !! (b, a) = Some w;
  loaded_adj_lt : ∀ a b, a < b → is_Some (GraphFacts.adj graph a b) →
    is_Some (matches !! (a, b));
  loaded_adj_gt : ∀ a b, a < b → is_Some (GraphFacts.adj graph b a) →
    is_Some (matches !! (a, b));
  loaded_seen : ∀ p c, p ∈ seen → matches !! p = Some c →
    (∃ g, OrdDict.get p tvg = Some g ∧ num_matches g = c) ∧
    GraphFacts.adj graph p.1 p.2 = Some c ∧
    GraphFacts.adj graph p.2 p.1 = Some c
}.

Lemma Loaded_nil : Loaded [] [] Graph.empty.
Proof.
  split; try done.
  - by intros p ?%elem_of_nil.
  - by intros p [? ?].
  - by intros a b _ [? ?].
  - by intros a b _ [? ?].
  - by intros p c ?%elem_of_nil.
Qed.

Lemma Loaded_skip seen tvg graph p :
  p.1 < p.2 → matches !! p = None → Loaded seen tvg graph →
  Loaded (seen ++ [p]) tvg graph.
Proof.
  intros Hlt Hp [H0 H1 H2 H3 H4 H5]. split; try done.
  { intros p' [Hin| ->%list_elem_of_singleton]%elem_of_app; eauto. }
  intros p' c [Hin| ->%list_elem_of_singleton]%elem_of_app Hc; [eauto|].
  congruence.
Qed.

Lemma Loaded_insert seen tvg graph p c pose mask :
  p.1 < p.2 → matches !! p = Some c → Loaded seen tvg graph →
  Loaded (seen ++ [p])
    (OrdDict.set p (mkTwoViewGeometry pose c mask) tvg)
    (Graph.add_edge p.1 p.2 c graph).
Proof.
  destruct p as [u v]. simpl. intros Huv Hc [H0 H1 H2 H3 H4 H5]. split.
  - intros p' [Hin| ->%list_elem_of_singleton]%elem_of_app; eauto.
  - intros p'. rewrite OrdDictFacts.get_set. case_decide; subst; eauto.
  - intros a b w. rewrite GraphFacts.adj_add_edge.
    case_decide as Hd; [|by apply H2].
    intros [= <-]. destruct Hd as [[-> ->]|[-> ->]]; eauto.
  - intros a b Hab. rewrite GraphFacts.adj_add_edge.
    case_decide as Hd; [|by apply H3].
    intros _. destruct Hd as [[-> ->]|[-> ->]]; [eauto|lia].
  - intros a b Hab. rewrite GraphFacts.adj_add_edge.
    case_decide as Hd; [|by apply H4].
    intros _. destruct Hd as [[-> ->]|[-> ->]]; [lia|eauto].
  - intros p' c' Hin Hc'. rewrite OrdDictFacts.get_set.
    rewrite !GraphFacts.adj_add_edge.
    destruct (decide (p' = (u, v))) as [->|Hne].
    + simpl. rewrite Hc in Hc'. injection Hc' as <-.
      split; [by eexists|]. by rewrite !decide_True by tauto.
    + apply elem_of_app in Hin as [Hin|Hin%list_elem_of_singleton]; [|done].
      destruct (H5 p' c' Hin Hc') as (Hg&Ha&Hb). split; [done|].
      pose proof (H0 p' Hin) as Hab.
      destruct p' as [a b]. simpl in *.
      split; case_decide as Hd; try done.
      * destruct Hd as [[-> ->]|[-> ->]]; [done|lia].
      * destruct Hd as [[-> ->]|[-> ->]]; [lia|done].
Qed.

Lemma insert_edges_spec edges : ∀ i seen tvg graph poses inliers,
  Forall (λ p, p.1 < p.2) edges →
  i + length edges ≤ length poses →
  i + length edges ≤ length inliers →
  Loaded seen tvg graph →
  ∃ tvg' graph',
    insert_edges i edges poses inliers matches tvg graph = Ret (tvg', graph') ∧
    Loaded (seen ++ edges) tvg' graph'.
Proof.
  induction edges as [|p edges IH];
    intros i seen tvg graph poses inliers Hcan Hposes Hinl HL; simpl.
  - rewrite app_nil_r. eauto.
  - apply Forall_cons in Hcan as [Hp Hcan]. simpl in *.
    replace (seen ++ p :: edges) with ((seen ++ [p]) ++ edges)
      by by rewrite <-app_assoc.
    destruct (matches !! p) as [c|] eqn:Hc.
    + destruct (lookup_lt_is_Some_2 poses i ltac:(lia)) as [pose Hpose].
      destruct (lookup_lt_is_Some_2 inliers i ltac:(lia)) as [mask Hmask].
      unfold list_get. rewrite Hpose, Hmask. cbn.
      apply IH; [done|lia..|]. by apply Loaded_insert.
    + apply IH; [done|lia..|]. by apply Loaded_skip.
Qed.

End load.

(** X19. [_load_view_graph] returns; a pair without match count gets no
    record and no graph edge; every pair of the relative-pose set with a
    match count (in the direction kept, [a < b]) has a record with that
    count and a graph edge weighted by it, in both directions. *)
Theorem load_view_graph_spec {Pose : Type}
    (rot_deg_of : nat * nat → Pose → spec_float)
    (edge_index : list (nat * nat)) (relative_poses : list Pose)
    (matches : gmap (nat * nat) Z) :
  ∃ tvg graph,
    load_view_graph rot_deg_of edge_index relative_poses matches
      = Ret (tvg, graph) ∧
    (∀ a b, a < b → matches !! (a, b) = None →
       OrdDict.get (a, b) tvg = None ∧
       Graph.weight graph a b = Raise KeyError ∧
       Graph.weight graph b a = Raise KeyError) ∧
    (∀ a b pose c,
       ((a, b), pose) ∈ zip edge_index relative_poses → a < b →
       matches !! (a, b) = Some c →
       (∃ g, OrdDict.get (a, b) tvg = Some g ∧ num_matches g = c) ∧
       Graph.weight graph a b = Ret c ∧
       Graph.weight graph b a = Ret c).
Proof.
  unfold load_view_graph.
  set (kept := filter (λ ep, ep.1.1 < ep.1.2) (zip edge_index relative_poses)).
  destruct (insert_edges_spec rot_deg_of matches (kept.*1) 0 [] [] Graph.empty (kept.*2)
              (classify_edges ((λ ep, rot_deg_of ep.1 ep.2) <$> kept)))
    as (tvg&graph&Hrun&[H0 H1 H2 H3 H4 H5]).
  - apply Forall_forall. intros p [[p' pose] [-> Hin]]%list_elem_of_fmap.
    by apply list_elem_of_filter in Hin as [? _].
  - by rewrite !length_fmap.
  - by rewrite classify_edges_length, !length_fmap.
  - apply Loaded_nil.
  - exists tvg, graph. split; [done|]. split.
    + intros a b Hab Hnone. rewrite !GraphFacts.weight_adj. split_and!.
      * destruct (OrdDict.get (a, b) tvg) eqn:Hg; [|done].
        destruct (H1 (a, b)) as [c Hc]; [by eexists|]. congruence.
      * destruct (GraphFacts.adj graph a b) eqn:Hg; [|done].
        destruct (H3 a b Hab) as [c Hc]; [by eexists|]. congruence.
      * destruct (GraphFacts.adj graph b a) eqn:Hg; [|done].
        destruct (H4 a b Hab) as [c Hc]; [by eexists|]. congruence.
    + intros a b pose c Hin Hab Hc. rewrite !GraphFacts.weight_adj.
      destruct (H5 (a, b) c) as (Hg&Ha&Hb); [|done|].
      * simpl. apply list_elem_of_fmap. exists ((a, b), pose). split; [done|].
        by apply list_elem_of_filter.
      * simpl in *. by rewrite Ha, Hb.
Qed.

End ViewGraphProofs.

(** ** Nearby-view selection *)

Module NearbyViewsProofs.
Import NearbyViews.

(** The priority level the source computes for the edge to neighbour [j]. *)
Definition level_of (graph : list (nat * list (nat * Z))) (target j : nat)
  : outcome Z :=
  w ← Graph.weight graph target j; Float64.priority_level w.

(** The neighbours that have a dataset index. *)
Definition eligible (node_id_to_idx : gmap nat nat) (neighbors : list nat)
  : list nat :=
  filter (λ j, is_Some (node_id_to_idx !! j)) neighbors.

Section select.
Context (graph : list (nat * list (nat * Z))) (target : nat)
  (node_id_to_idx : gmap nat nat).

(** The queue entry of a neighbour. *)
Definition entry (j : nat) : Z * nat :=
  (match level_of graph target j with Ret p => p | _ => 0%Z end, j).

Lemma enqueue_neighbors_spec neighbors : ∀ qu,
  (∀ j, j ∈ eligible node_id_to_idx neighbors →
     is_Ret (level_of graph target j)) →
  StronglySorted (PriorityQueueFacts.le PriorityQueue.lt_node) qu →
  ∃ qu',
    enqueue_neighbors graph target node_id_to_idx neighbors qu = Ret qu' ∧
    StronglySorted (PriorityQueueFacts.le PriorityQueue.lt_node) qu' ∧
    qu' ≡ₚ (entry <$> eligible node_id_to_idx neighbors) ++ qu.
Proof.
  unfold eligible.
  induction neighbors as [|j neighbors IH]; intros qu Hlev Hs; simpl.
  - eauto.
  - destruct (node_id_to_idx !! j) as [idx|] eqn:Hj.
    + rewrite filter_cons_True in Hlev |- * by (by rewrite Hj).
      destruct (Hlev j ltac:(left)) as [p Hp].
      assert (Hentry : entry j = (p, j)) by (unfold entry; by rewrite Hp).
      unfold level_of in Hp.
      destruct (Graph.weight graph target j) as [w| |]; [|done..].
      cbn in Hp |- *. rewrite Hp. cbn.
      destruct (IH (PriorityQueue.put PriorityQueue.lt_node (p, j) qu))
        as (qu'&Hrun&Hs'&Hperm).
      * intros j' Hj'. apply Hlev. by right.
      * apply PriorityQueueFacts.put_sorted;
          [apply PriorityQueueFacts.lt_node_asym
          |apply PriorityQueueFacts.le_node_trans|done].
      * exists qu'. split_and!; [done..|].
        rewrite Hperm, PriorityQueueFacts.put_perm, Hentry.
        by rewrite Permutation_middle.
    + rewrite filter_cons_False in Hlev |- * by (rewrite Hj; by intros [? ?]).
      by apply IH.
Qed.

Lemma select_spec num_select qu : ∀ k,
  Forall (λ e, is_Some (node_id_to_idx !! e.2)) qu →
  ∃ idxs,
    select node_id_to_idx num_select k qu = Ret idxs ∧
    Forall2 (λ e idx, node_id_to_idx !! e.2 = Some idx)
      (take (Z.to_nat (num_select - Z.of_nat k)) qu) idxs.
Proof.
  induction qu as [|e qu IH]; intros k Hdom; simpl.
  - exists []. split; [done|]. rewrite take_nil. constructor.
  - apply Forall_cons in Hdom as [[idx He] Hdom].
    case_decide as Hk.
    + unfold map_get. rewrite He. cbn.
      destruct (IH (S k) Hdom) as (idxs&->&Hall). cbn.
      exists (idx :: idxs). split; [done|].
      replace (Z.to_nat (num_select - Z.of_nat k))
        with (S (Z.to_nat (num_select - Z.of_nat (S k)))) by lia.
      simpl. by constructor.
    + exists []. split; [done|].
      replace (Z.to_nat (num_select - Z.of_nat k)) with 0 by lia.
      constructor.
Qed.

End select.

(** X20. For a target with a node id and a node of the graph,
    when the priority level of every eligible neighbour (one that is a key of
    [node_id_to_idx]) can be computed, [get_nearby_view_ids] returns the
    dataset indices of [min(num_select, number of eligible neighbours)] of
    them, and no selected neighbour comes after an unselected one in the
    order of [(priority level, node id)]. *)
Theorem get_nearby_view_ids_spec (target_id : nat)
    (graph : list (nat * list (nat * Z)))
    (idx_to_node_id node_id_to_idx : gmap nat nat) (num_select : Z)
    (target_node_id : nat) (neighbors : list nat) :
  idx_to_node_id !! target_id = Some target_node_id →
  Graph.neighbors graph target_node_id = Ret neighbors →
  (∀ j, j ∈ eligible node_id_to_idx neighbors →
     is_Ret (level_of graph target_node_id j)) →
  ∃ selected rest idxs,
    get_nearby_view_ids target_id graph idx_to_node_id node_id_to_idx
      num_select = Ret idxs ∧
    Forall2 (λ j idx, node_id_to_idx !! j = Some idx) selected idxs ∧
    selected ++ rest ≡ₚ eligible node_id_to_idx neighbors ∧
    length selected =
      Z.to_nat num_select `min` length (eligible node_id_to_idx neighbors) ∧
    ∀ s u ps pu, s ∈ selected → u ∈ rest →
      level_of graph target_node_id s = Ret ps →
      level_of graph target_node_id u = Ret pu →
      (ps < pu)%Z ∨ (ps = pu ∧ s ≤ u).
Proof.
  intros Htarget Hnbrs Hlev. unfold get_nearby_view_ids, map_get.
  rewrite Htarget. cbn. rewrite Hnbrs. cbn.
  destruct (enqueue_neighbors_spec graph target_node_id node_id_to_idx
              neighbors [] Hlev ltac:(constructor)) as (qu&->&Hsorted&Hperm).
  cbn. rewrite app_nil_r in Hperm.
  set (el := eligible node_id_to_idx neighbors) in *.
  assert (Hdom : Forall (λ e, is_Some (node_id_to_idx !! e.2)) qu).
  { rewrite Hperm. apply Forall_fmap, Forall_forall. intros j Hj. simpl.
    by apply list_elem_of_filter in Hj as [? _]. }
  destruct (select_spec node_id_to_idx num_select qu 0 Hdom) as (idxs&->&Hall).
  replace (num_select - Z.of_nat 0)%Z with num_select in Hall by lia.
  set (n := Z.to_nat num_select) in *.
  exists ((take n qu).*2), ((drop n qu).*2), idxs.
  assert (Hsnd : qu.*2 ≡ₚ el).
  { rewrite Hperm, <-list_fmap_compose. rewrite <-(list_fmap_id el) at 2.
    by erewrite list_fmap_ext. }
  split_and!.
  - done.
  - by apply Forall2_fmap_l.
  - by rewrite <-fmap_app, take_drop.
  - rewrite length_fmap, length_take. rewrite <-Hsnd, length_fmap. done.
  - intros s u ps pu Hs Hu Hps Hpu.
    assert (Hentry : ∀ e, e ∈ qu → e = entry graph target_node_id e.2).
    { intros e He. rewrite Hperm in He.
      by apply list_elem_of_fmap in He as [j [-> _]]. }
    apply list_elem_of_fmap in Hs as [es [-> Hes]].
    apply list_elem_of_fmap in Hu as [eu [-> Heu]].
    rewrite <-(take_drop n qu) in Hsorted.
    pose proof (StronglySorted_app_1_elem_of _ _ _ es eu Hsorted Hes Heu)
      as Hle.
    clear Hsorted. rename Hle into Hsorted.
    apply PriorityQueueFacts.le_node_spec in Hsorted.
    rewrite (Hentry es) in Hsorted by (by eapply subseteq_take).
    rewrite (Hentry eu) in Hsorted by (by eapply subseteq_drop).
    unfold entry in Hsorted. simpl in Hsorted.
    by rewrite Hps, Hpu in Hsorted.
Qed.

(** The example of the specification: neighbours A, B, C are the nodes
    1, 2, 3, the target is node 0. *)
Definition abc_graph : list (nat * list (nat * Z)) :=
  Graph.add_edge 0 3 20%Z
    (Graph.add_edge 0 2 5%Z (Graph.add_edge 0 1 50%Z Graph.empty)).

Definition identity4 : gmap nat nat :=
  list_to_map [(0, 0); (1, 1); (2, 2); (3, 3)].

Example abc_top_2 :
  get_nearby_view_ids 0 abc_graph identity4 identity4 2 = Ret [1; 3].
Proof. vm_compute. reflexivity. Qed.

Example abc_all_available :
  get_nearby_view_ids 0 abc_graph identity4 identity4 5 = Ret [1; 3; 2].
Proof. vm_compute. reflexivity. Qed.

Lemma get_nearby_view_ids_spec_witness :
  ∃ selected rest idxs,
    get_nearby_view_ids 0 abc_graph identity4 identity4 2 = Ret idxs ∧
    Forall2 (λ j idx, identity4 !! j = Some idx) selected idxs ∧
    selected ++ rest ≡ₚ eligible identity4 [1; 2; 3] ∧
    length selected = Z.to_nat 2 `min` length (eligible identity4 [1; 2; 3]) ∧
    ∀ s u ps pu, s ∈ selected → u ∈ rest →
      level_of abc_graph 0 s = Ret ps →
      level_of abc_graph 0 u = Ret pu →
      (ps < pu)%Z ∨ (ps = pu ∧ s ≤ u).
Proof.
  apply (get_nearby_view_ids_spec 0 abc_graph identity4 identity4 2 0
           [1; 2; 3]).
  - reflexivity.
  - reflexivity.
  - intros j Hj. vm_compute in Hj.
    repeat (apply elem_of_cons in Hj as [->|Hj]; [vm_compute; by eexists|]).
    by apply elem_of_nil in Hj.
Defined.

(** Two weights that fall on the same priority level are ordered by node
    id, not by weight: with neighbours 1 and 2 of weights 700 and 701 (both
    of level 142) and [num_select = 1], the neighbour of weight 700 is
    returned. *)
Definition tie_graph : list (nat * list (nat * Z)) :=
  Graph.add_edge 0 2 701%Z (Graph.add_edge 0 1 700%Z Graph.empty).

Lemma highest_weight_counterexample :
  Graph.neighbors tie_graph 0 = Ret [1; 2] ∧
  Graph.weight tie_graph 0 1 = Ret 700%Z ∧
  Graph.weight tie_graph 0 2 = Ret 701%Z ∧
  get_nearby_view_ids 0 tie_graph identity4 identity4 1 = Ret [1].
Proof. vm_compute. done. Qed.

End NearbyViewsProofs.

(** ** Relative poses of the views selected in a loaded view graph *)

Module RelativePosesProofs.
Import ViewGraph.
Import NearbyViews.
Import RelativePoses.
Import NearbyViewsProofs.

Lemma view_pair_comm (a b : nat) : view_pair a b = view_pair b a.
Proof.
  unfold view_pair. destruct (decide (a < b)), (decide (b < a)); try done;
    try lia. f_equal; lia.
Qed.

(** X21. The pose of a pair is returned as stored whichever of its two views is
    the target: asking for view [s] from target [t] and for view [t] from
    target [s] gives the same result (the same error, when there is one). *)
Theorem get_relative_poses_direction {Pose Vec : Type} (zeros6 : Vec)
    (to_vec : Pose → Vec)
    (two_view_geometries : list ((nat * nat) * @TwoViewGeometry Pose))
    (idx_to_node_id : gmap nat nat) (t s : nat) :
  get_relative_poses zeros6 to_vec t two_view_geometries idx_to_node_id [s] =
  get_relative_poses zeros6 to_vec s two_view_geometries idx_to_node_id [t].
Proof.
  unfold get_relative_poses, collect, map_get.
  destruct (idx_to_node_id !! t) as [nt|], (idx_to_node_id !! s) as [ns|];
    cbn; try done.
  unfold rel_pose_of. rewrite (view_pair_comm nt ns).
  destruct (decide (ns = nt)) as [->|Hne].
  - by rewrite decide_True.
  - rewrite decide_False by done.
    by destruct (OrdDict.get (view_pair ns nt) two_view_geometries).
Qed.

(** Every edge of the graph has its pair among the keys of the dict, and no
    node is its own neighbour. *)
Definition Keyed {Pose : Type}
    (tvg : list ((nat * nat) * @TwoViewGeometry Pose))
    (graph : list (nat * list (nat * Z))) : Prop :=
  ∀ a b, is_Some (GraphFacts.adj graph a b) →
    a ≠ b ∧ is_Some (OrdDict.get (view_pair a b) tvg).

Lemma Keyed_insert {Pose : Type}
    (tvg : list ((nat * nat) * @TwoViewGeometry Pose)) graph p g c :
  p.1 < p.2 → Keyed tvg graph →
  Keyed (OrdDict.set p g tvg) (Graph.add_edge p.1 p.2 c graph).
Proof.
  intros Hp HK a b. rewrite GraphFacts.adj_add_edge.
  rewrite OrdDictFacts.get_set. destruct p as [p1 p2]. simpl in *.
  case_decide as Hab.
  - intros _. split; [lia|]. rewrite decide_True; [done|].
    unfold view_pair. destruct Hab as [[-> ->]|[-> ->]].
    + by rewrite decide_True.
    + by rewrite decide_False by lia.
  - intros [Hne Hk]%HK. split; [done|]. by case_decide.
Qed.

Lemma insert_edges_Keyed {Pose : Type} edges :
  ∀ i (tvg : list ((nat * nat) * @TwoViewGeometry Pose)) graph poses
    inliers matches tvg' graph',
  Forall (λ p : nat * nat, p.1 < p.2) edges → Keyed tvg graph →
  insert_edges i edges poses inliers matches tvg graph = Ret (tvg', graph') →
  Keyed tvg' graph'.
Proof.
  induction edges as [|p edges IH];
    intros i tvg graph poses inliers matches tvg' graph' Hcan HK; simpl.
  - by intros [= <- <-].
  - apply Forall_cons in Hcan as [Hp Hcan].
    destruct (matches !! p) as [c|]; [|by apply IH].
    destruct (list_get poses i) as [pose| |]; cbn; [|done..].
    destruct (list_get inliers i) as [mask| |]; cbn; [|done..].
    apply IH; [done|]. by apply Keyed_insert.
Qed.

Lemma load_view_graph_Keyed {Pose : Type}
    (rot_deg_of : nat * nat → Pose → spec_float) edge_index relative_poses
    matches tvg graph :
  load_view_graph rot_deg_of edge_index relative_poses matches
    = Ret (tvg, graph) →
  Keyed tvg graph.
Proof.
  unfold load_view_graph. apply insert_edges_Keyed.
  - apply Forall_forall. intros p [[p' pose] [-> Hin]]%list_elem_of_fmap.
    by apply list_elem_of_filter in Hin as [? _].
  - by intros a b [? ?].
Qed.

Lemma collect_spec {Pose Vec : Type} (zeros6 : Vec) (to_vec : Pose → Vec)
    (tvg : list ((nat * nat) * @TwoViewGeometry Pose)) idx_to_node_id t idxs :
  Forall (λ idx, ∃ j, idx_to_node_id !! idx = Some j ∧ j ≠ t ∧
            is_Some (OrdDict.get (view_pair t j) tvg)) idxs →
  ∃ vs, collect zeros6 to_vec t tvg idx_to_node_id idxs = Ret vs ∧
    Forall2 (λ idx v, ∃ j g, idx_to_node_id !! idx = Some j ∧
               OrdDict.get (view_pair t j) tvg = Some g ∧
               v = to_vec (rel_pose g)) idxs vs.
Proof.
  induction 1 as [|idx idxs (j&Hj&Hne&[g Hg]) _ (vs&IH&Hall)]; simpl.
  - exists []. split; [done|constructor].
  - unfold map_get. rewrite Hj. cbn. unfold rel_pose_of.
    rewrite decide_False by done. rewrite Hg. cbn. rewrite IH. cbn.
    exists (to_vec (rel_pose g) :: vs). split; [done|].
    constructor; [|done]. by exists j, g.
Qed.

(** X22. The views [get_nearby_view_ids] selects in a view graph built by
    [_load_view_graph] all have a stored relative pose, and the target is
    not among them: when the two index maps agree, the target is a node and
    the priority levels can be computed, [get_nearby_view_ids] returns, and
    [get_relative_poses] on its result returns one converted stored pose
    per selected view, without reaching its assertion; when no view was
    selected, [np.stack] raises [ValueError]. *)
Theorem nearby_views_have_relative_poses {Pose Vec : Type} (zeros6 : Vec)
    (to_vec : Pose → Vec) (rot_deg_of : nat * nat → Pose → spec_float)
    (edge_index : list (nat * nat)) (relative_poses : list Pose)
    (matches : gmap (nat * nat) Z)
    (tvg : list ((nat * nat) * @TwoViewGeometry Pose))
    (graph : list (nat * list (nat * Z)))
    (idx_to_node_id node_id_to_idx : gmap nat nat)
    (target_id target_node_id : nat) (neighbors : list nat)
    (num_select : Z) :
  load_view_graph rot_deg_of edge_index relative_poses matches
    = Ret (tvg, graph) →
  (∀ j i, node_id_to_idx !! j = Some i → idx_to_node_id !! i = Some j) →
  idx_to_node_id !! target_id = Some target_node_id →
  Graph.neighbors graph target_node_id = Ret neighbors →
  (∀ j, j ∈ eligible node_id_to_idx neighbors →
     is_Ret (level_of graph target_node_id j)) →
  ∃ idxs,
    get_nearby_view_ids target_id graph idx_to_node_id node_id_to_idx
      num_select = Ret idxs ∧
    target_id ∉ idxs ∧
    match idxs with
    | [] =>
        get_relative_poses zeros6 to_vec target_id tvg idx_to_node_id idxs
          = Raise ValueError
    | _ =>
        ∃ vs,
          get_relative_poses zeros6 to_vec target_id tvg idx_to_node_id idxs
            = Ret vs ∧
          Forall2 (λ idx v, ∃ j g, idx_to_node_id !! idx = Some j ∧
                     OrdDict.get (view_pair target_node_id j) tvg = Some g ∧
                     v = to_vec (rel_pose g)) idxs vs
    end.
Proof.
  intros Hload Hinv Htarget Hnbrs Hlev.
  pose proof (load_view_graph_Keyed _ _ _ _ _ _ Hload) as HK.
  unfold get_nearby_view_ids, get_relative_poses, map_get.
  rewrite Htarget. cbn. rewrite Hnbrs. cbn.
  destruct (enqueue_neighbors_spec graph target_node_id node_id_to_idx
              neighbors [] Hlev ltac:(constructor)) as (qu&->&_&Hperm).
  cbn. rewrite app_nil_r in Hperm.
  assert (Hqu : ∀ e, e ∈ qu → is_Some (node_id_to_idx !! e.2) ∧
                              e.2 ∈ neighbors).
  { intros e He. rewrite Hperm in He.
    apply list_elem_of_fmap in He as [j [-> Hj]]. simpl.
    apply list_elem_of_filter in Hj as [? ?]. done. }
  assert (Hdom : Forall (λ e, is_Some (node_id_to_idx !! e.2)) qu).
  { apply Forall_forall. intros e He. by apply Hqu. }
  destruct (select_spec node_id_to_idx num_select qu 0 Hdom) as (idxs&->&Hall).
  exists idxs. split; [done|].
  assert (Hgood : Forall (λ idx, ∃ j, idx_to_node_id !! idx = Some j ∧
                    j ≠ target_node_id ∧
                    is_Some (OrdDict.get (view_pair target_node_id j) tvg))
                    idxs).
  { eapply Forall2_Forall_r; [exact Hall|]. apply Forall_forall.
    intros e He idx Hidx. exists e.2. split; [by apply Hinv|].
    apply subseteq_take in He. destruct (Hqu e He) as [_ Hn].
    destruct (HK target_node_id e.2) as [Hne Hk];
      [by eapply GraphFacts.neighbors_adj|]. done. }
  split.
  - intros Hin. rewrite Forall_forall in Hgood.
    destruct (Hgood _ Hin) as (j&Hj&Hne&_). congruence.
  - destruct (collect_spec zeros6 to_vec tvg idx_to_node_id target_node_id
                idxs Hgood) as (vs&->&HF). cbn.
    destruct idxs as [|idx idxs].
    + by apply Forall2_nil_inv_l in HF as ->.
    + exists vs. split; [|done]. by inversion HF.
Qed.

(** The view graph of three pairs around view 0, with poses named by
    numbers. *)
Definition example_matches : gmap (nat * nat) Z :=
  list_to_map [((0, 1), 50%Z); ((0, 2), 5%Z); ((0, 3), 20%Z)].

Definition example_tvg : list ((nat * nat) * @TwoViewGeometry nat) :=
  [((0, 1), mkTwoViewGeometry 10 50 Float32.f1_0);
   ((0, 2), mkTwoViewGeometry 12 5 Float32.f1_0);
   ((0, 3), mkTwoViewGeometry 13 20 Float32.f1_0)].

Lemma nearby_views_have_relative_poses_witness :
  ∃ idxs,
    get_nearby_view_ids 0 abc_graph identity4 identity4 2 = Ret idxs ∧
    0 ∉ idxs ∧
    match idxs with
    | [] =>
        get_relative_poses 0 (λ p : nat, p) 0 example_tvg identity4 idxs
          = Raise ValueError
    | _ =>
        ∃ vs,
          get_relative_poses 0 (λ p : nat, p) 0 example_tvg identity4 idxs
            = Ret vs ∧
          Forall2 (λ idx v, ∃ j g, identity4 !! idx = Some j ∧
                     OrdDict.get (view_pair 0 j) example_tvg = Some g ∧
                     v = rel_pose g) idxs vs
    end.
Proof.
  apply (nearby_views_have_relative_poses 0 (λ p : nat, p)
           (λ _ _, Float64.f1_0) [(0, 1); (1, 0); (0, 2); (0, 3)]
           [10; 11; 12; 13] example_matches example_tvg abc_graph
           identity4 identity4 0 0 [1; 2; 3] 2).
  - vm_compute. reflexivity.
  - intros j i H. unfold identity4 in H. apply elem_of_list_to_map_2 in H.
    repeat (apply elem_of_cons in H as [[= -> ->]|H]; [reflexivity|]).
    by apply elem_of_nil in H.
  - reflexivity.
  - reflexivity.
  - intros j Hj. vm_compute in Hj.
    repeat (apply elem_of_cons in Hj as [->|Hj]; [vm_compute; by eexists|]).
    by apply elem_of_nil in Hj.
Defined.

End RelativePosesProofs.

(** ** The number of track elements *)

Module PoseInitializerProofs.
Import Track.
Import PoseInitializer.
Import TrackMore.

Lemma total_track_elements_concat {A : Type} (tracks : list (Z * list A)) :
  total_track_elements tracks = length (concat tracks.*2).
Proof.
  unfold total_track_elements.
  assert (H : ∀ n, foldl (λ m (kt : Z * list A), m + length kt.2) n tracks =
                   n + length (concat tracks.*2)); [|by rewrite H].
  induction tracks as [|[k l] tracks IH]; intros n; simpl; [lia|].
  rewrite IH, length_app. unfold fmap. lia.
Qed.

(** X23. [build] neither loses nor repeats an element: when it returns normally
    on a fresh builder, the lengths of its tracks add up to the number of
    elements it was given. *)
Theorem total_track_elements_build (min_len max_len : Z)
    (elements : list TrackElement) (pairs : list (nat * nat)) (fuel : nat)
    (tb : TrackBuilder) :
  build fuel (new min_len max_len) elements pairs = (tb, Ret ()) →
  total_track_elements (consistent_tracks tb) = length elements.
Proof.
  rewrite total_track_elements_concat. unfold build. simpl.
  destruct (UnionFind.unions fuel _ pairs) as [f1| |]; cbn; [|done..].
  destruct (UnionFind.validate fuel f1) as [f2| |]; [|done..].
  destruct (group_tracks fuel f2 0 elements []) as [tracks o'] eqn:Hg.
  destruct o' as [f3| |]; cbn; [|done..].
  destruct (group_tracks_Ret _ _ _ _ _ _ _ Hg) as [Hperm _].
  intros [= <- _]. simpl. by rewrite Hperm.
Qed.

Lemma total_track_elements_build_witness :
  total_track_elements
    (consistent_tracks (mkTrackBuilder 3 40 [(0%Z, example_elements)])) =
  length example_elements.
Proof.
  apply (total_track_elements_build 3 40 example_elements example_pairs 5).
  vm_compute. reflexivity.
Defined.

End PoseInitializerProofs.

(** ** The ids [load_track_elements] gives to the keypoints *)

Module TrackLoadingProofs.
Import Track.
Import TrackLoading.

Section load.
Context (track_key : Z → Z → string).

Definition key_of (e : TrackElement) : string :=
  track_key (image_id e) (point2D_idx e).

(** The dict holds the keys of the elements, in their order, and maps the
    key of the element of index [i] to [i + 1]. *)
Record Numbered (st : State) : Prop := {
  numbered_keys : (track_key_to_id st).*1 = key_of <$> track_elements st;
  numbered_ids :
    (track_key_to_id st).*2 = seq 1 (length (track_elements st));
  numbered_wf : OrdDict.wf (track_key_to_id st);
  numbered_pairs : ∀ p, p ∈ track_element_pairs st →
    p.1 ≤ length (track_elements st) ∧ p.2 ≤ length (track_elements st)
}.

Lemma Numbered_length st :
  Numbered st → length (track_key_to_id st) = length (track_elements st).
Proof.
  intros [Hk _ _ _]. apply (f_equal length) in Hk.
  by rewrite !length_fmap in Hk.
Qed.

Lemma track_id_spec img pt st :
  Numbered st →
  let r := track_id (track_key img pt) (mkTrackElement img pt) st in
  Numbered r.2 ∧ r.1 ≤ length (track_elements r.2) ∧
  length (track_elements st) ≤ length (track_elements r.2).
Proof.
  intros HN. pose proof (Numbered_length st HN) as Hlen.
  destruct HN as [Hk Hi Hwf Hp]. unfold track_id.
  destruct (OrdDict.get _ _) as [id|] eqn:Hget; simpl.
  - split_and!; [done| |done].
    apply OrdDictFacts.get_Some_elem in Hget.
    assert (Hin : id ∈ (track_key_to_id st).*2).
    { apply list_elem_of_fmap. by eexists (_, _). }
    rewrite Hi in Hin. apply elem_of_seq in Hin. lia.
  - apply OrdDictFacts.get_None in Hget.
    rewrite OrdDictFacts.set_fresh by done. rewrite length_app. simpl.
    split_and!; [|lia..]. split; simpl.
    + rewrite !fmap_app. simpl. by rewrite Hk.
    + rewrite !fmap_app, length_app. simpl. rewrite Hi, Hlen.
      rewrite Nat.add_1_r at 2. rewrite seq_S. do 2 f_equal. lia.
    + unfold OrdDict.wf, OrdDict.keys. rewrite fmap_app. simpl.
      apply NoDup_app. split_and!; [done| |apply NoDup_singleton].
      intros k Hin ->%list_elem_of_singleton. done.
    + intros p Hin. rewrite length_app. simpl.
      destruct (Hp p Hin). lia.
Qed.

Lemma add_match_spec img1 img2 st m :
  Numbered st → Numbered (add_match track_key img1 img2 st m).
Proof.
  intros HN. unfold add_match.
  pose proof (track_id_spec img1 m.1 st HN) as H1.
  destruct (track_id _ _ st) as [id1 st1]. simpl in H1.
  destruct H1 as (HN1&Hid1&Hle1).
  pose proof (track_id_spec img2 m.2 st1 HN1) as H2.
  destruct (track_id _ _ st1) as [id2 st2]. simpl in H2.
  destruct H2 as ([Hk Hi Hwf Hp]&Hid2&Hle2).
  split; simpl; [done..|].
  intros p [Hin| ->%list_elem_of_singleton]%elem_of_app; [by apply Hp|].
  simpl. lia.
Qed.

Lemma add_row_spec st row :
  Numbered st → Numbered (add_row track_key st row).
Proof.
  intros HN. unfold add_row. destruct (row_matches row) as [ms|]; [|done].
  revert st HN. induction ms as [|m ms IH]; intros st HN; simpl; [done|].
  by apply IH, add_match_spec.
Qed.

Lemma load_Numbered rows : Numbered (load track_key rows).
Proof.
  unfold load.
  assert (H0 : Numbered (mkState [] [] [])).
  { split; simpl; [done|done|apply NoDup_nil_2|by intros p ?%elem_of_nil]. }
  revert H0. generalize (mkState [] [] []).
  induction rows as [|row rows IH]; intros st HN; simpl; [done|].
  by apply IH, add_row_spec.
Qed.

End load.

(** X24. When the loop of [load_track_elements] ends, the dict has one entry per
    element, and it maps the key of the element of index [i] to [i + 1],
    one more than the id the element was paired under when it was first
    seen; so a keypoint seen again is paired under the index of the element
    after its own, and the ids of the pairs are bounded by the number of
    elements, not below it. *)
Theorem load_track_elements_ids (track_key : Z → Z → string)
    (rows : list Row) :
  let st := load track_key rows in
  length (track_key_to_id st) = length (track_elements st) ∧
  (∀ i e, track_elements st !! i = Some e →
     OrdDict.get (track_key (image_id e) (point2D_idx e))
       (track_key_to_id st) = Some (i + 1)) ∧
  (∀ i e m, track_elements st !! i = Some e →
     (track_id (track_key (image_id e) (point2D_idx e)) m st).1
       = i + 1) ∧
  ∀ p, p ∈ (load_track_elements track_key rows).2 →
    p.1 ≤ length (load_track_elements track_key rows).1 ∧
    p.2 ≤ length (load_track_elements track_key rows).1.
Proof.
  intros st. pose proof (load_Numbered track_key rows) as HN. fold st in HN.
  pose proof (Numbered_length track_key st HN) as Hlen.
  destruct HN as [Hk Hi Hwf Hp].
  assert (Hget : ∀ i e, track_elements st !! i = Some e →
     OrdDict.get (track_key (image_id e) (point2D_idx e))
       (track_key_to_id st) = Some (i + 1)).
  { intros i e He. apply OrdDictFacts.elem_get; [done|].
    apply lookup_lt_Some in He as Hlt.
    destruct (lookup_lt_is_Some_2 (track_key_to_id st) i ltac:(lia))
      as [[k v] Hkv].
    assert (H1 : (track_key_to_id st).*1 !! i = Some k)
      by (by rewrite list_lookup_fmap, Hkv).
    assert (H2 : (track_key_to_id st).*2 !! i = Some v)
      by (by rewrite list_lookup_fmap, Hkv).
    rewrite Hk, list_lookup_fmap, He in H1. injection H1 as <-.
    rewrite Hi, lookup_seq_lt in H2 by done. injection H2 as <-.
    replace (i + 1) with (1 + i) by lia.
    by eapply list_elem_of_lookup_2. }
  split_and!; [done|done| |done].
  intros i e m He. unfold track_id. by rewrite (Hget i e He).
Qed.

(** X28. [load_track_elements] followed by [build], as in the preprocessing
    script, with a cap of at least 1: when some pair carries the id
    [len(track_elements)], which a keypoint seen again gets when it is the
    last element, [build] raises [KeyError]; when the database has no match
    it raises [ZeroDivisionError]; otherwise it returns normally and its
    tracks partition the elements. *)
Theorem load_then_build (track_key : Z → Z → string) (rows : list Row)
    (min_len max_len : Z) (fuel : nat) :
  let elements := (load_track_elements track_key rows).1 in
  let pairs := (load_track_elements track_key rows).2 in
  (1 ≤ max_len)%Z → length elements < fuel →
  (Exists (λ p, p.1 = length elements ∨ p.2 = length elements) pairs ∧
   build fuel (new min_len max_len) elements pairs =
     (new min_len max_len, Raise KeyError)) ∨
  (elements = [] ∧ pairs = [] ∧
   build fuel (new min_len max_len) elements pairs =
     (new min_len max_len, Raise ZeroDivisionError)) ∨
  (elements ≠ [] ∧
   ∃ tracks,
     build fuel (new min_len max_len) elements pairs =
       (mkTrackBuilder min_len max_len tracks, Ret ()) ∧
     concat tracks.*2 ≡ₚ elements).
Proof.
  intros elements pairs Hmax Hfuel.
  assert (Hp : ∀ p, p ∈ pairs →
            p.1 ≤ length elements ∧ p.2 ≤ length elements).
  { by destruct (load_Numbered track_key rows) as [_ _ _ Hp]. }
  destruct (decide (Exists (λ p : nat * nat,
              p.1 = length elements ∨ p.2 = length elements) pairs))
    as [Hex|Hnex].
  { left. split; [done|]. unfold build. simpl.
    rewrite (TrackMore.unions_invalid (length elements) fuel pairs _ _
               (UnionFindProofs.init_Inv _ _) Hfuel); [done|].
    intros HF. apply Exists_exists in Hex as ([x y]&Hin&Hbad).
    rewrite Forall_forall in HF. destruct (HF _ Hin) as [[ix Hx] [iy Hy]].
    cbn [fst snd] in Hx, Hy, Hbad.
    rewrite UnionFindProofs.init_mapper in Hx, Hy.
    destruct Hbad; [rewrite decide_False in Hx by lia
                   |rewrite decide_False in Hy by lia]; done. }
  right.
  assert (Hvalid : Forall (λ p : nat * nat,
            p.1 < length elements ∧ p.2 < length elements) pairs).
  { apply Forall_forall. intros p Hin. destruct (Hp p Hin) as [H1 H2].
    assert (¬ (p.1 = length elements ∨ p.2 = length elements)); [|lia].
    intros Hbad. apply Hnex, Exists_exists. by exists p. }
  destruct elements as [|e elements'] eqn:He.
  - left. destruct pairs as [|p pairs'] eqn:Hpairs.
    + done.
    + apply Forall_cons in Hvalid as [[? _] _]. simpl in *. lia.
  - right. split; [done|].
    destruct (TrackMore.build_total min_len max_len (e :: elements') pairs
                fuel Hmax ltac:(done) Hvalid Hfuel)
      as (tracks&Hb&Hperm&_).
    by exists tracks.
Qed.

(** Three keypoints matched round a triangle of images: the third match
    finds both its keypoints in the dict and pairs them under the ids 1 and
    3. *)
Definition example_key (image_id point2d_idx : Z) : string :=
  (str image_id +:+ "_" +:+ str point2d_idx)%string.

Definition example_rows : list Row :=
  [mkRow 1 2 (Some [(5, 7)%Z]); mkRow 2 3 (Some [(7, 9)%Z]);
   mkRow 1 3 (Some [(5, 9)%Z])].

Example example_rows_loaded :
  load_track_elements example_key example_rows =
  ([mkTrackElement 0 5; mkTrackElement 1 7; mkTrackElement 2 9],
   [(0, 1); (2, 2); (1, 3)]).
Proof. vm_compute. reflexivity. Qed.

Lemma load_then_build_witness :
  let elements := (load_track_elements example_key example_rows).1 in
  let pairs := (load_track_elements example_key example_rows).2 in
  (Exists (λ p, p.1 = length elements ∨ p.2 = length elements) pairs ∧
   build 4 (new 3 40) elements pairs = (new 3 40, Raise KeyError)) ∨
  (elements = [] ∧ pairs = [] ∧
   build 4 (new 3 40) elements pairs = (new 3 40, Raise ZeroDivisionError)) ∨
  (elements ≠ [] ∧
   ∃ tracks,
     build 4 (new 3 40) elements pairs =
       (mkTrackBuilder 3 40 tracks, Ret ()) ∧
     concat tracks.*2 ≡ₚ elements).
Proof.
  apply (load_then_build example_key example_rows 3 40 4).
  - lia.
  - vm_compute. lia.
Defined.

End TrackLoadingProofs.

(** ** Rotations from the minimum spanning tree *)

Module PropagationProofs.
Import Graph.
Import GraphFacts.
Import Propagation.

(** *** More facts on graphs: weights and the number of adjacency entries *)

Section weights.
Context {W : Type}.
Implicit Types (g : list (nat * list (nat * W))) (w : W) (a b u v : nat).

(** Every weight stored in the graph satisfies [P]. *)
Definition AllWeights (P : W → Prop) g : Prop :=
  ∀ a nbrs b w, (a, nbrs) ∈ g → (b, w) ∈ nbrs → P w.

(** The number of adjacency entries. *)
Definition total g : nat := sum_list (length <$> g.*2).

(** The adjacency entries of the nodes that are not visited yet. *)
Definition unvisited_degree (visited : list bool) g : nat :=
  sum_list ((λ e : nat * list (nat * W),
               match visited !! e.1 with
               | Some false => length e.2
               | _ => 0
               end) <$> g).

Lemma elem_set_or {K V : Type} `{EqDecision K} (k : K) (v : V) d x :
  x ∈ OrdDict.set k v d → x = (k, v) ∨ x ∈ d.
Proof.
  induction d as [|[k' v'] d IH]; simpl.
  - intros ->%list_elem_of_singleton. by left.
  - destruct (decide (k = k')) as [->|Hne].
    + intros [->|?]%elem_of_cons; [by left|right; by right].
    + intros [->|Hin]%elem_of_cons; [right; left|].
      destruct (IH Hin) as [->|?]; [by left|right; by right].
Qed.

Lemma length_set_le {K V : Type} `{EqDecision K} (k : K) (v : V) d :
  length (OrdDict.set k v d) ≤ S (length d).
Proof.
  induction d as [|[k' v'] d IH]; simpl; [done|].
  destruct (decide (k = k')); simpl; lia.
Qed.

Lemma adj_elem g a b w :
  adj g a b = Some w → ∃ nbrs, (a, nbrs) ∈ g ∧ (b, w) ∈ nbrs.
Proof.
  unfold adj. destruct (OrdDict.get a g) as [nbrs|] eqn:Ha; [|done]. simpl.
  intros Hb. exists nbrs. split; by apply OrdDictFacts.get_Some_elem.
Qed.

Lemma adj_is_node g a b : is_Some (adj g a b) → is_node g a.
Proof.
  unfold adj, is_node. destruct (OrdDict.get a g); [by eexists|].
  by intros [? ?].
Qed.

Lemma total_cons k l g : total ((k, l) :: g) = length l + total g.
Proof. done. Qed.

Lemma unvisited_degree_cons visited k l g :
  unvisited_degree visited ((k, l) :: g) =
  match visited !! k with Some false => length l | _ => 0 end +
  unvisited_degree visited g.
Proof. done. Qed.

Lemma total_set_Some g u nbrs nbrs' :
  OrdDict.get u g = Some nbrs →
  total (OrdDict.set u nbrs' g) + length nbrs = total g + length nbrs'.
Proof.
  induction g as [|[k l] g IH]; simpl; [done|].
  destruct (decide (u = k)) as [->|Hne]; rewrite !total_cons.
  - intros [= ->]. lia.
  - intros Hg. specialize (IH Hg). lia.
Qed.

Lemma total_set_None g u nbrs' :
  OrdDict.get u g = None →
  total (OrdDict.set u nbrs' g) = total g + length nbrs'.
Proof.
  induction g as [|[k l] g IH]; simpl.
  - intros _. rewrite total_cons. unfold total. simpl. lia.
  - destruct (decide (u = k)) as [->|Hne]; [done|]. rewrite !total_cons.
    intros Hg. specialize (IH Hg). lia.
Qed.

Lemma total_add_node g u : total (add_node u g) = total g.
Proof.
  unfold add_node. destruct (OrdDict.get u g) eqn:Hg; [done|].
  rewrite total_set_None by done. simpl. lia.
Qed.

Lemma total_set_adj g u v w : total (set_adj u v w g) ≤ S (total g).
Proof.
  unfold set_adj. destruct (OrdDict.get u g) as [nbrs|] eqn:Hg; [|lia].
  pose proof (total_set_Some g u nbrs (OrdDict.set v w nbrs) Hg).
  pose proof (length_set_le v w nbrs). lia.
Qed.

Lemma total_add_edge g u v w : total (add_edge u v w g) ≤ total g + 2.
Proof.
  unfold add_edge.
  pose proof (total_set_adj (set_adj u v w (add_node v (add_node u g)))
                v u w).
  pose proof (total_set_adj (add_node v (add_node u g)) u v w).
  rewrite !total_add_node in *. lia.
Qed.

Lemma total_add_edges_from (es : list (nat * nat * W)) : ∀ g,
  total (add_edges_from es g) ≤ total g + 2 * length es.
Proof.
  unfold add_edges_from.
  induction es as [|[[u v] w] es IH]; intros g; cbn [foldl length fst snd];
    [lia|].
  specialize (IH (add_edge u v w g)).
  pose proof (total_add_edge g u v w). lia.
Qed.

Lemma total_nodes_only g : total (nodes_only g) = 0.
Proof.
  induction g as [|[k l] g IH]; [done|].
  unfold nodes_only. rewrite fmap_cons, total_cons. exact IH.
Qed.

Lemma length_edges_from seen g : length (edges_from seen g) ≤ total g.
Proof.
  revert seen.
  induction g as [|[k l] g IH]; intros seen; [done|].
  cbn [edges_from]. rewrite total_cons, length_app, length_fmap.
  specialize (IH (k :: seen)).
  pose proof (length_filter (λ nw : nat * W, nw.1 ∉ seen) l). lia.
Qed.

Lemma AllWeights_add_node P g u :
  AllWeights P g → AllWeights P (add_node u g).
Proof.
  intros HA. unfold add_node. destruct (OrdDict.get u g); [done|].
  intros a nbrs b w [[= -> ->]|Hin]%elem_set_or Hb.
  - by apply elem_of_nil in Hb.
  - by eapply HA.
Qed.

Lemma AllWeights_set_adj P g u v w :
  P w → AllWeights P g → AllWeights P (set_adj u v w g).
Proof.
  intros Hw HA. unfold set_adj.
  destruct (OrdDict.get u g) as [nbrs0|] eqn:Hg; [|done].
  apply OrdDictFacts.get_Some_elem in Hg.
  intros a nbrs b w' [[= -> ->]|Hin]%elem_set_or Hb.
  - apply elem_set_or in Hb as [[= -> ->]|Hb]; [done|by eapply HA].
  - by eapply HA.
Qed.

Lemma AllWeights_add_edge P g u v w :
  P w → AllWeights P g → AllWeights P (add_edge u v w g).
Proof.
  intros Hw HA. unfold add_edge.
  by do 2 (apply AllWeights_set_adj; [done|]); do 2 apply AllWeights_add_node.
Qed.

Lemma AllWeights_add_edges_from P (es : list (nat * nat * W)) : ∀ g,
  (∀ e, e ∈ es → P e.2) → AllWeights P g →
  AllWeights P (add_edges_from es g).
Proof.
  induction es as [|[[u v] w] es IH]; intros g Hes HA; simpl; [done|].
  apply IH.
  - intros e He. apply Hes. by right.
  - apply AllWeights_add_edge; [|done]. apply (Hes (u, v, w)). left.
Qed.

Lemma AllWeights_nodes_only P g : AllWeights P (nodes_only g).
Proof.
  intros a nbrs b w Hin Hb.
  apply list_elem_of_fmap in Hin as [[k l] [[= -> ->] _]].
  by apply elem_of_nil in Hb.
Qed.

Lemma is_node_add_edges_from (es : list (nat * nat * W)) : ∀ g a,
  is_node (add_edges_from es g) a →
  is_node g a ∨ ∃ e, e ∈ es ∧ (a = e.1.1 ∨ a = e.1.2).
Proof.
  induction es as [|[[u v] w] es IH]; intros g a; simpl; [by left|].
  intros [Hn|(e&He&Ha)]%IH.
  - apply is_node_add_edge in Hn as [->|[->|Hn]]; [| |by left].
    + right. exists (u, v, w). split; [left|by left].
    + right. exists (u, v, w). split; [left|by right].
  - right. exists e. split; [by right|done].
Qed.

Lemma unvisited_degree_le visited g : unvisited_degree visited g ≤ total g.
Proof.
  induction g as [|[k l] g IH]; [done|].
  rewrite unvisited_degree_cons, total_cons.
  destruct (visited !! k) as [[|]|]; lia.
Qed.

Lemma unvisited_degree_insert_notin visited g j :
  j ∉ OrdDict.keys g →
  unvisited_degree (<[j := true]> visited) g = unvisited_degree visited g.
Proof.
  induction g as [|[k l] g IH]; [done|].
  intros Hj. apply not_elem_of_cons in Hj as [Hne Hj].
  rewrite !unvisited_degree_cons.
  rewrite list_lookup_insert_ne by done. by rewrite IH.
Qed.

(** Visiting a node takes its adjacency entries out of the count. *)
Lemma unvisited_degree_visit visited g j nbrs :
  OrdDict.wf g → OrdDict.get j g = Some nbrs → visited !! j = Some false →
  unvisited_degree visited g =
  length nbrs + unvisited_degree (<[j := true]> visited) g.
Proof.
  intros Hwf Hg Hv. induction g as [|[k l] g IH]; [done|].
  apply NoDup_cons in Hwf as [Hk Hwf]. rewrite !unvisited_degree_cons.
  simpl in Hg. destruct (decide (j = k)) as [->|Hne].
  - injection Hg as ->. rewrite Hv.
    rewrite list_lookup_insert_eq by (by eapply lookup_lt_Some).
    rewrite (unvisited_degree_insert_notin visited g k Hk). lia.
  - specialize (IH Hwf Hg).
    rewrite list_lookup_insert_ne by done. lia.
Qed.

End weights.

(** *** Kruskal on weights that are not NaN *)

(** A weight the traversal can use: not a NaN, and with a priority level. *)
Definition Good (w : spec_float) : Prop :=
  is_nan w = false ∧ is_Ret (Float64.level w).

Lemma priority_level_Good c :
  is_Ret (Float64.priority_level c) →
  ∃ w, Float64.inverse c = Ret w ∧ Good w.
Proof.
  unfold Float64.priority_level.
  destruct (Float64.inverse c) as [w| |]; cbn; [|by intros [? ?]..].
  intros Hl. exists w. split; [done|]. split; [|done].
  destruct w; try done. destruct Hl as [p Hp]. vm_compute in Hp. done.
Qed.

Lemma minimum_spanning_tree_total g :
  OrdDict.wf g → closed g → AllWeights Good g →
  ∃ mst, minimum_spanning_tree g = Ret mst ∧
    OrdDict.wf mst ∧ closed mst ∧
    (∀ a, is_node mst a ↔ is_node g a) ∧
    (∀ a b, is_Some (adj mst a b) →
       is_Some (adj g a b) ∨ is_Some (adj g b a)) ∧
    AllWeights Good mst ∧ total mst ≤ 2 * total g.
Proof.
  intros Hwf Hc HA.
  assert (Hnan : existsb (λ e : nat * nat * spec_float, is_nan e.2) (edges g)
                 = false).
  { apply not_true_iff_false. intros [[[a b] w] [Hin Hw]]%existsb_exists.
    apply list_elem_of_In in Hin.
    apply elem_of_edges_from in Hin as (nbrs&?&?).
    destruct (HA a nbrs b w) as [Hn _]; [done..|]. simpl in Hw. congruence. }
  destruct (minimum_spanning_tree g) as [mst| |] eqn:Hm.
  2,3: unfold minimum_spanning_tree, kruskal_mst_edges in Hm;
       rewrite Hnan in Hm; done.
  exists mst.
  destruct (minimum_spanning_tree_spec g mst Hwf Hm) as (Hwf'&Hc'&Hn&Ha).
  unfold minimum_spanning_tree, kruskal_mst_edges in Hm.
  rewrite Hnan in Hm. cbn in Hm. injection Hm as <-.
  split_and!; [done..| |done| |].
  - intros a. split; [|apply Hn].
    intros [Hna|(e&He&Hae)]%is_node_add_edges_from.
    + by apply is_node_nodes_only.
    + apply elem_of_kruskal in He. rewrite elem_of_sort_by_weight in He.
      destruct e as [[u v] w].
      pose proof (elem_of_edges g u v w Hwf He) as Huv. simpl in Hae.
      destruct Hae as [-> | ->]; [by eapply adj_is_node|by eapply Hc].
  - apply AllWeights_add_edges_from; [|apply AllWeights_nodes_only].
    intros [[u v] w] He.
    apply elem_of_kruskal in He. rewrite elem_of_sort_by_weight in He.
    apply elem_of_edges_from in He as (nbrs&?&?). simpl. by eapply HA.
  - pose proof (total_add_edges_from
                  (kruskal ∅ (sort_by_weight (edges g))) (nodes_only g)).
    rewrite total_nodes_only in *.
    pose proof (length_kruskal (sort_by_weight (edges g)) ∅).
    rewrite length_sort_by_weight in *.
    pose proof (length_edges_from [] g). unfold edges in *. lia.
Qed.

(** *** Kruskal's algorithm spans every component *)

(** An edge of the tree, in one direction or the other. *)
Definition tree_edge (T : list (nat * nat * spec_float)) (a b : nat) : Prop :=
  ∃ w, (a, b, w) ∈ T ∨ (b, a, w) ∈ T.

(** Every label is the label of itself. *)
Definition Rep (labels : gmap nat nat) : Prop :=
  ∀ a l, labels !! a = Some l → labels !! l = Some l.

Lemma lookup_join_subtrees labels u v a :
  join_subtrees labels u v !! a =
  (λ l, if decide (l = subtree labels v) then subtree labels u else l) <$>
    (if decide (a = u) then Some (subtree labels u)
     else if decide (a = v) then Some (subtree labels v)
     else labels !! a).
Proof.
  unfold join_subtrees. rewrite lookup_fmap.
  destruct (decide (a = u)) as [->|Hu]; [by rewrite lookup_insert_eq|].
  rewrite lookup_insert_ne by done.
  destruct (decide (a = v)) as [->|Hv]; [by rewrite lookup_insert_eq|].
  by rewrite lookup_insert_ne by done.
Qed.

Lemma subtree_unlabelled labels v a :
  Rep labels → labels !! a = None → a ≠ v → a ≠ subtree labels v.
Proof.
  intros HR Ha Hv. unfold subtree.
  destruct (labels !! v) as [l|] eqn:Hl; simpl; [|done].
  intros ->. apply HR in Hl. congruence.
Qed.

Lemma subtree_join_subtrees labels u v a :
  Rep labels → subtree labels u ≠ subtree labels v →
  subtree (join_subtrees labels u v) a =
  if decide (subtree labels a = subtree labels v) then subtree labels u
  else subtree labels a.
Proof.
  intros HR Hne. unfold subtree at 1. rewrite lookup_join_subtrees.
  destruct (decide (a = u)) as [->|Hu].
  { simpl. repeat case_decide; congruence. }
  destruct (decide (a = v)) as [->|Hv].
  { simpl. repeat case_decide; congruence. }
  destruct (labels !! a) as [l|] eqn:Hl; simpl.
  - assert (Ha : subtree labels a = l) by (unfold subtree; by rewrite Hl).
    rewrite Ha. by destruct (decide (l = subtree labels v)).
  - assert (Ha : subtree labels a = a) by (unfold subtree; by rewrite Hl).
    rewrite Ha. rewrite decide_False; [done|]. by apply subtree_unlabelled.
Qed.

Lemma subtree_Rep labels u : Rep labels → ∀ l, labels !! u = Some l →
  labels !! subtree labels u = Some (subtree labels u).
Proof. intros HR l Hl. unfold subtree. rewrite Hl. simpl. by eapply HR. Qed.

Lemma Rep_join_subtrees labels u v :
  Rep labels → subtree labels u ≠ subtree labels v →
  Rep (join_subtrees labels u v).
Proof.
  intros HR Hne.
  set (lu := subtree labels u) in *. set (lv := subtree labels v) in *.
  (* the label [lu] is its own label afterwards *)
  assert (Hlu : join_subtrees labels u v !! lu = Some lu).
  { rewrite lookup_join_subtrees. fold lu lv.
    destruct (decide (lu = u)) as [Hu|Hu].
    { simpl. by rewrite decide_False by done. }
    assert (Hlab : labels !! lu = Some lu).
    { unfold lu, subtree in *. destruct (labels !! u) as [l|] eqn:Hl;
        simpl in *; [by eapply HR|done]. }
    destruct (decide (lu = v)) as [Hv|Hv].
    { exfalso. apply Hne. unfold lv, subtree. rewrite <-Hv, Hlab. done. }
    rewrite Hlab. simpl. by rewrite decide_False by done. }
  (* so is every other label that is not [lv] *)
  assert (Hother : ∀ l, labels !! l = Some l → l ≠ lv →
                   join_subtrees labels u v !! l = Some l).
  { intros l Hl Hlv. destruct (decide (l = lu)) as [->|Hllu]; [done|].
    rewrite lookup_join_subtrees. fold lu lv.
    destruct (decide (l = u)) as [->|Hu].
    { exfalso. apply Hllu. unfold lu, subtree. by rewrite Hl. }
    destruct (decide (l = v)) as [->|Hv].
    { exfalso. apply Hlv. unfold lv, subtree. by rewrite Hl. }
    rewrite Hl. simpl. by rewrite decide_False by done. }
  intros a l. rewrite lookup_join_subtrees. fold lu lv.
  destruct (decide (a = u)) as [->|Hu].
  { simpl. rewrite decide_False by done. by intros [= <-]. }
  destruct (decide (a = v)) as [->|Hv].
  { simpl. rewrite decide_True by done. by intros [= <-]. }
  destruct (labels !! a) as [l0|] eqn:Hl0; simpl; [|done].
  destruct (decide (l0 = lv)) as [->|Hl0v]; intros [= <-]; [done|].
  apply Hother; [by eapply HR|done].
Qed.

Lemma rtc_into {A : Type} (R R' : relation A) x y :
  (∀ a b, R a b → rtc R' a b) → rtc R x y → rtc R' x y.
Proof.
  intros H. induction 1 as [|a b c Hab _ IH]; [done|].
  etrans; [by apply H|done].
Qed.

Lemma tree_edge_sym T a b : tree_edge T a b → tree_edge T b a.
Proof. intros (w&[?|?]); exists w; tauto. Qed.

Lemma rtc_sym {A : Type} (R : relation A) x y :
  (∀ a b, R a b → R b a) → rtc R x y → rtc R y x.
Proof.
  intros H. induction 1 as [|a b c Hab _ IH]; [done|].
  eapply rtc_r; [done|by apply H].
Qed.

Lemma kruskal_spans E : ∀ labels, Rep labels →
  ∀ u v w, (u, v, w) ∈ E →
    rtc (λ a b, subtree labels a = subtree labels b ∨
                tree_edge (kruskal labels E) a b) u v.
Proof.
  induction E as [|[[u0 v0] w0] E IH]; intros labels HR u v w Hin.
  - by apply elem_of_nil in Hin.
  - cbn [kruskal]. destruct (decide (subtree labels u0 ≠ subtree labels v0))
      as [Hne|Heq].
    + apply elem_of_cons in Hin as [[= -> -> ->]|Hin].
      { apply rtc_once. right. exists w0. left. left. }
      specialize (IH (join_subtrees labels u0 v0)
                    (Rep_join_subtrees _ _ _ HR Hne) u v w Hin).
      eapply rtc_into; [|exact IH]. clear IH. intros a b [Hs|(w'&Ht)].
      * rewrite !subtree_join_subtrees in Hs by done.
        assert (Huv : tree_edge ((u0, v0, w0) :: kruskal
                        (join_subtrees labels u0 v0) E) u0 v0).
        { exists w0. left. left. }
        destruct (decide (subtree labels a = subtree labels v0)) as [Ha|Ha],
                 (decide (subtree labels b = subtree labels v0)) as [Hb|Hb].
        -- apply rtc_once. left. congruence.
        -- eapply rtc_l; [left; exact Ha|].
           eapply rtc_l; [right; by apply tree_edge_sym|].
           apply rtc_once. by left.
        -- eapply rtc_l; [left; exact Hs|].
           eapply rtc_l; [right; exact Huv|].
           apply rtc_once. left. congruence.
        -- apply rtc_once. by left.
      * apply rtc_once. right. exists w'.
        destruct Ht; [left|right]; by right.
    + apply elem_of_cons in Hin as [[= -> -> ->]|Hin].
      { apply rtc_once. left. by apply dec_stable. }
      by eapply IH.
Qed.

(** [edges] lists every adjacency of a symmetric graph, from one of its two
    ends. *)
Lemma edges_from_complete (G : list (nat * list (nat * spec_float))) g :
  ∀ seen,
  OrdDict.wf g →
  (∀ a, a ∈ seen → a ∉ OrdDict.keys g) →
  (∀ a nbrs, (a, nbrs) ∈ g → OrdDict.get a G = Some nbrs) →
  (∀ a b, is_Some (adj G a b) → is_Some (adj G b a)) →
  ∀ a b, a ∈ OrdDict.keys g → b ∈ OrdDict.keys g → is_Some (adj G a b) →
    ∃ w, (a, b, w) ∈ edges_from seen g ∨ (b, a, w) ∈ edges_from seen g.
Proof.
  induction g as [|[k nbrs] g IH]; intros seen Hwf Hseen HG Hsym a b Ha Hb Hab.
  - by apply elem_of_nil in Ha.
  - apply NoDup_cons in Hwf as [Hk Hwf].
    assert (Hhead : ∀ c, c ∈ OrdDict.keys ((k, nbrs) :: g) →
              is_Some (adj G k c) →
              ∃ w, (k, c, w) ∈ edges_from seen ((k, nbrs) :: g)).
    { intros c Hc [w Hw]. exists w. cbn [edges_from].
      apply elem_of_app. left. apply list_elem_of_fmap. exists (c, w).
      split; [done|]. apply list_elem_of_filter. split.
      - simpl. intros Hs. by apply (Hseen c Hs).
      - unfold adj in Hw. rewrite (HG k nbrs) in Hw by left. simpl in Hw.
        by apply OrdDictFacts.get_Some_elem. }
    destruct (decide (a = k)) as [->|Hak].
    { destruct (Hhead b Hb Hab) as [w Hw]. exists w. by left. }
    destruct (decide (b = k)) as [->|Hbk].
    { destruct (Hhead a Ha (Hsym _ _ Hab)) as [w Hw]. exists w. by right. }
    apply elem_of_cons in Ha as [?|Ha]; [done|].
    apply elem_of_cons in Hb as [?|Hb]; [done|].
    destruct (IH (k :: seen) Hwf) with (a := a) (b := b) as [w Hw];
      [|by intros; apply HG; right|done..|].
    { intros c [->|Hc]%elem_of_cons; [done|].
      intros Hin. apply (Hseen c Hc). by right. }
    exists w. cbn [edges_from]. rewrite !elem_of_app. tauto.
Qed.

Lemma adj_add_edges_from_mono (es : list (nat * nat * spec_float)) : ∀ g a b,
  is_Some (adj g a b) → is_Some (adj (add_edges_from es g) a b).
Proof.
  unfold add_edges_from.
  induction es as [|[[u v] w] es IH]; intros g a b Hab; cbn [foldl]; [done|].
  apply IH. cbn [fst snd]. rewrite adj_add_edge. by case_decide.
Qed.

Lemma adj_add_edges_from_elem (es : list (nat * nat * spec_float)) : ∀ g a b,
  tree_edge es a b → is_Some (adj (add_edges_from es g) a b).
Proof.
  induction es as [|[[u v] w] es IH]; intros g a b (w'&Hin).
  - destruct Hin as [?%elem_of_nil|?%elem_of_nil]; done.
  - rewrite !elem_of_cons in Hin.
    destruct Hin as [[[= -> -> ->]|Hin]|[[= -> -> ->]|Hin]].
    + apply (adj_add_edges_from_mono es (add_edge u v w g)).
      rewrite adj_add_edge. rewrite decide_True; [done|]. by left.
    + apply (IH (add_edge u v w g)). exists w'. by left.
    + apply (adj_add_edges_from_mono es (add_edge u v w g)).
      rewrite adj_add_edge. rewrite decide_True; [done|]. by right.
    + apply (IH (add_edge u v w g)). exists w'. by right.
Qed.

(** Two adjacent nodes of a symmetric graph are joined in its minimum
    spanning tree. *)
Lemma minimum_spanning_tree_spans g mst :
  OrdDict.wf g → closed g →
  (∀ a b, is_Some (adj g a b) → is_Some (adj g b a)) →
  minimum_spanning_tree g = Ret mst →
  ∀ a b, is_Some (adj g a b) → rtc (λ x y, is_Some (adj mst x y)) a b.
Proof.
  intros Hwf Hc Hsym Hm a b Hab.
  unfold minimum_spanning_tree, kruskal_mst_edges in Hm.
  destruct (existsb _ _); [done|]. cbn in Hm. injection Hm as <-.
  assert (Hseen : ∀ c : nat, c ∈ @nil nat → c ∉ OrdDict.keys g)
    by (by intros ? ?%elem_of_nil).
  assert (HG : ∀ c nbrs, (c, nbrs) ∈ g → OrdDict.get c g = Some nbrs)
    by (intros ???; by apply OrdDictFacts.elem_get).
  assert (Ha : a ∈ OrdDict.keys g)
    by (apply OrdDictFacts.get_is_Some; by eapply adj_is_node).
  assert (Hb : b ∈ OrdDict.keys g)
    by (apply OrdDictFacts.get_is_Some; by eapply Hc).
  destruct (edges_from_complete g g [] Hwf Hseen HG Hsym a b Ha Hb Hab)
    as [w Hw].
  assert (Hspan : ∀ u v w, (u, v, w) ∈ edges g →
    rtc (tree_edge (kruskal ∅ (sort_by_weight (edges g)))) u v).
  { intros u v w' Hin.
    assert (HR0 : Rep ∅) by (intros x l H; by rewrite lookup_empty in H).
    eapply rtc_into;
      [|apply (kruskal_spans (sort_by_weight (edges g)) ∅ HR0 u v w');
        by apply elem_of_sort_by_weight].
    intros x y [Hxy|Hxy]; [|by apply rtc_once].
    unfold subtree in Hxy. rewrite !lookup_empty in Hxy. simpl in Hxy.
    by subst. }
  assert (Hinto : ∀ u v, rtc (tree_edge (kruskal ∅ (sort_by_weight (edges g))))
                           u v →
    rtc (λ x y, is_Some (adj (add_edges_from
          (kruskal ∅ (sort_by_weight (edges g))) (nodes_only g)) x y)) u v).
  { intros u v. apply rtc_subrel. intros x y Hxy.
    by apply adj_add_edges_from_elem. }
  destruct Hw as [Hw|Hw].
  - apply Hinto. by eapply Hspan.
  - apply Hinto. apply rtc_sym; [apply tree_edge_sym|]. by eapply Hspan.
Qed.

(** *** The graph of the pairs *)

Lemma build_graph_spec {Rot : Type} (l : list ((nat * nat) * (Rot * Z))) :
  ∀ graph,
  (∀ k d, (k, d) ∈ l → is_Ret (Float64.priority_level d.2)) →
  OrdDict.wf graph → closed graph → AllWeights Good graph →
  ∃ graph', build_graph l graph = Ret graph' ∧
    OrdDict.wf graph' ∧ closed graph' ∧ AllWeights Good graph' ∧
    (∀ a, is_node graph' a ↔
       is_node graph a ∨
       ∃ b, (a, b) ∈ OrdDict.keys l ∨ (b, a) ∈ OrdDict.keys l) ∧
    (∀ a b, is_Some (adj graph' a b) →
       is_Some (adj graph a b) ∨
       (a, b) ∈ OrdDict.keys l ∨ (b, a) ∈ OrdDict.keys l) ∧
    (∀ a b, is_Some (adj graph a b) ∨
       (a, b) ∈ OrdDict.keys l ∨ (b, a) ∈ OrdDict.keys l →
       is_Some (adj graph' a b)) ∧
    total graph' ≤ total graph + 2 * length l.
Proof.
  induction l as [|[[u v] d] l IH]; intros graph Hlev Hwf Hc HA.
  - exists graph. split_and!; [done..| | | |simpl; lia].
    + intros a. split; [by left|].
      by intros [?|(b&[?%elem_of_nil|?%elem_of_nil])].
    + intros a b ?. by left.
    + by intros a b [?|[?%elem_of_nil|?%elem_of_nil]].
  - destruct (priority_level_Good d.2) as (w&Hw&HG).
    { apply (Hlev (u, v)). left. }
    cbn [build_graph fst snd]. rewrite Hw. cbn.
    destruct (IH (add_edge u v w graph))
      as (g'&->&Hwf'&Hc'&HA'&Hn&Ha&Hb&Ht).
    + intros k d' Hin. apply (Hlev k). by right.
    + by apply wf_add_edge.
    + by apply closed_add_edge.
    + by apply AllWeights_add_edge.
    + exists g'. split_and!; [done..| | | |].
      * intros a. rewrite Hn, is_node_add_edge.
        change (OrdDict.keys ((u, v, d) :: l))
          with ((u, v) :: OrdDict.keys l).
        setoid_rewrite elem_of_cons. naive_solver.
      * change (OrdDict.keys ((u, v, d) :: l))
          with ((u, v) :: OrdDict.keys l).
        intros a b [Hab|Hab]%Ha.
        -- rewrite adj_add_edge in Hab. rewrite !elem_of_cons.
           case_decide as Hd; [|by left]. right.
           destruct Hd as [[-> ->]|[-> ->]]; [left|right]; by left.
        -- right. rewrite !elem_of_cons. tauto.
      * change (OrdDict.keys ((u, v, d) :: l))
          with ((u, v) :: OrdDict.keys l).
        intros a b Hab. apply Hb. rewrite adj_add_edge.
        rewrite !elem_of_cons in Hab.
        destruct Hab as [Hab|[[[= -> ->]|Hab]|[[= -> ->]|Hab]]].
        -- left. by case_decide.
        -- left. rewrite decide_True; [done|]. by left.
        -- tauto.
        -- left. rewrite decide_True; [done|]. by right.
        -- tauto.
      * pose proof (total_add_edge graph u v w). simpl length. lia.
Qed.

(** *** The traversal *)

Section traversal.
Context {Rot : Type} (eye : Rot) (matmul : Rot → Rot → Rot)
  (transpose : Rot → Rot).
Context (tvg : list ((nat * nat) * (Rot * Z))) (n : nat).
Context (ref_image_id : nat) (ref_image_rotation : Rot).
Context (mst : list (nat * list (nat * spec_float))).

(** Two views with a pair, in one direction or the other. *)
Definition linked (a b : nat) : Prop :=
  (a, b) ∈ OrdDict.keys tvg ∨ (b, a) ∈ OrdDict.keys tvg.

(** Two views joined by a chain of pairs. *)
Definition connected : nat → nat → Prop := rtc linked.

(** The relative rotation [compute_rotation(i, j)] multiplies by. *)
Definition relative (i j : nat) : option Rot :=
  if decide (i < j) then (λ data : Rot * Z, data.1) <$> OrdDict.get (i, j) tvg
  else (λ data : Rot * Z, transpose data.1) <$> OrdDict.get (j, i) tvg.

(** The rotations obtained from the reference rotation by multiplying the
    relative rotations along a chain of pairs that starts at the reference
    image. *)
Inductive Reaches : nat → Rot → Prop :=
  | reaches_ref : Reaches ref_image_id ref_image_rotation
  | reaches_step i j Ri Rij :
      Reaches i Ri → relative i j = Some Rij →
      Reaches j (matmul Rij Ri).

Hypothesis tvg_canonical : ∀ a b, (a, b) ∈ OrdDict.keys tvg → a < b.
Hypothesis mst_wf : OrdDict.wf mst.
Hypothesis mst_closed : closed mst.
Hypothesis mst_nodes : ∀ a, is_node mst a → a < n.
Hypothesis mst_linked : ∀ a b, is_Some (adj mst a b) → linked a b.
Hypothesis mst_weights : AllWeights Good mst.

Lemma compute_rotation_spec rots i j Ri :
  linked i j → rots !! i = Some Ri → j < length rots →
  ∃ Rij, relative i j = Some Rij ∧
    compute_rotation matmul transpose tvg rots i j =
      Ret (<[j := matmul Rij Ri]> rots).
Proof.
  intros Hl HRi Hj. unfold compute_rotation, relative.
  assert (Hget : ∀ a b, (a, b) ∈ OrdDict.keys tvg →
                 ∃ data, OrdDict.get (a, b) tvg = Some data).
  { intros a b Hin. by apply OrdDictFacts.get_is_Some. }
  destruct (decide (i < j)) as [Hij|Hij].
  - destruct Hl as [Hin|Hin]; [|apply tvg_canonical in Hin; lia].
    destruct (Hget _ _ Hin) as [data Hd]. rewrite Hd. cbn.
    unfold list_get. rewrite HRi. cbn. unfold list_set.
    rewrite decide_True by done. by eexists.
  - destruct Hl as [Hin|Hin]; [apply tvg_canonical in Hin; lia|].
    destruct (Hget _ _ Hin) as [data Hd]. rewrite Hd. cbn.
    unfold list_get. rewrite HRi. cbn. unfold list_set.
    rewrite decide_True by done. by eexists.
Qed.

Lemma push_edges_spec visited image_id neighbors : ∀ qu,
  length visited = n →
  (∀ j, j ∈ neighbors → is_Some (adj mst image_id j)) →
  ∃ qu', push_edges mst visited image_id neighbors qu = Ret qu' ∧
    (∀ e, e ∈ qu' → e ∈ qu ∨ (e.2.1 = image_id ∧ e.2.2 ∈ neighbors)) ∧
    (∀ e, e ∈ qu → e ∈ qu') ∧
    (∀ j, j ∈ neighbors → visited !! j = Some false →
       ∃ p, (p, (image_id, j)) ∈ qu') ∧
    length qu' ≤ length qu + length neighbors.
Proof.
  induction neighbors as [|j neighbors IH]; intros qu Hlen Hadj.
  - exists qu. split_and!; [done|by left|done| |simpl; lia].
    by intros j ?%elem_of_nil.
  - destruct (Hadj j) as [w Hw]; [left|].
    assert (Hj : j < n) by (apply mst_nodes, (mst_closed image_id); by eexists).
    destruct (lookup_lt_is_Some_2 visited j) as [b Hb]; [lia|].
    cbn [push_edges]. unfold list_get. rewrite Hb. cbn.
    assert (Hadj' : ∀ j', j' ∈ neighbors → is_Some (adj mst image_id j')).
    { intros j' Hj'. apply Hadj. by right. }
    destruct b.
    + destruct (IH qu Hlen Hadj') as (qu'&->&Hin&Hmono&Hcomp&Hle).
      exists qu'. split_and!; [done| |done| |simpl; lia].
      * intros e [?|[? ?]]%Hin; [by left|right]. split; [done|by right].
      * intros j0 [->|Hj0]%elem_of_cons Hv; [congruence|by apply Hcomp].
    + rewrite weight_adj, Hw. cbn.
      destruct (adj_elem _ _ _ _ Hw) as (nbrs&Hn1&Hn2).
      destruct (mst_weights _ _ _ _ Hn1 Hn2) as [_ [p Hp]].
      rewrite Hp. cbn.
      destruct (IH (PriorityQueue.put PriorityQueue.lt_edge
                      (p, (image_id, j)) qu) Hlen Hadj')
        as (qu'&->&Hin&Hmono&Hcomp&Hle).
      rewrite PriorityQueueFacts.length_put in Hle.
      exists qu'. split_and!; [done| | | |simpl; lia].
      * intros e [He|[? ?]]%Hin.
        -- rewrite PriorityQueueFacts.put_perm in He.
           apply elem_of_cons in He as [->|?]; [right|by left].
           split; [done|left].
        -- right. split; [done|by right].
      * intros e He. apply Hmono. rewrite PriorityQueueFacts.put_perm.
        by right.
      * intros j0 [->|Hj0]%elem_of_cons Hv; [|by apply Hcomp].
        exists p. apply Hmono. rewrite PriorityQueueFacts.put_perm. left.
Qed.

Lemma add_edges_to_heap_spec visited image_id qu nbrs :
  length visited = n → OrdDict.get image_id mst = Some nbrs →
  ∃ qu', add_edges_to_heap mst visited image_id qu = Ret qu' ∧
    (∀ e, e ∈ qu' →
       e ∈ qu ∨ (e.2.1 = image_id ∧ is_Some (adj mst image_id e.2.2))) ∧
    (∀ e, e ∈ qu → e ∈ qu') ∧
    (∀ j, is_Some (adj mst image_id j) → visited !! j = Some false →
       ∃ p, (p, (image_id, j)) ∈ qu') ∧
    length qu' ≤ length qu + length nbrs.
Proof.
  intros Hlen Hget. unfold add_edges_to_heap, neighbors. rewrite Hget. cbn.
  assert (Hadj : ∀ j, j ∈ OrdDict.keys nbrs ↔ is_Some (adj mst image_id j)).
  { intros j. unfold adj. rewrite Hget. simpl.
    by rewrite OrdDictFacts.get_is_Some. }
  destruct (push_edges_spec visited image_id (OrdDict.keys nbrs) qu Hlen)
    as (qu'&->&Hin&Hmono&Hcomp&Hle).
  { intros j. apply Hadj. }
  exists qu'. split_and!; [done| |done| |].
  - intros e [?|[? ?]]%Hin; [by left|right]. split; [done|by apply Hadj].
  - intros j Hj. apply Hcomp. by apply Hadj.
  - unfold OrdDict.keys in Hle. by rewrite length_fmap in Hle.
Qed.

(** What the loop keeps true of the rotations, the marks and the queue. *)
Record TInv (rots : list Rot) (visited : list bool)
    (qu : list (Z * (nat * nat))) : Prop := {
  tinv_rots : length rots = n;
  tinv_visited : length visited = n;
  tinv_ref_visited : visited !! ref_image_id = Some true;
  tinv_ref : rots !! ref_image_id = Some ref_image_rotation;
  tinv_eye : ∀ k, visited !! k = Some false → rots !! k = Some eye;
  tinv_connected : ∀ k, visited !! k = Some true → connected ref_image_id k;
  tinv_reaches : ∀ k, visited !! k = Some true →
    ∃ R, rots !! k = Some R ∧ Reaches k R;
  tinv_queue : ∀ e, e ∈ qu →
    visited !! e.2.1 = Some true ∧ is_Some (adj mst e.2.1 e.2.2);
  tinv_frontier : ∀ i j, visited !! i = Some true →
    is_Some (adj mst i j) →
    visited !! j = Some true ∨ ∃ p, (p, (i, j)) ∈ qu
}.

(** What is claimed of the rotations returned. *)
Definition Final (rots : list Rot) : Prop :=
  length rots = n ∧ rots !! ref_image_id = Some ref_image_rotation ∧
  (∀ k, k < n → ¬ connected ref_image_id k → rots !! k = Some eye) ∧
  (∀ k, rtc (λ a b, is_Some (adj mst a b)) ref_image_id k →
     ∃ R, rots !! k = Some R ∧ Reaches k R).

Lemma lookup_insert_true (visited : list bool) j k :
  visited !! k = Some true → <[j := true]> visited !! k = Some true.
Proof.
  intros Hk. destruct (decide (j = k)) as [->|Hne].
  - rewrite list_lookup_insert_eq; [done|]. by eapply lookup_lt_Some.
  - by rewrite list_lookup_insert_ne.
Qed.

Lemma traverse_spec fuel : ∀ rots visited qu,
  TInv rots visited qu →
  length qu + unvisited_degree visited mst < fuel →
  ∃ rots',
    traverse matmul transpose fuel tvg mst rots visited qu = Ret rots' ∧
    Final rots'.
Proof.
  induction fuel as [|fuel IH]; intros rots visited qu HT Hfuel; [lia|].
  destruct HT as [Hr Hv Hrv Hrr Heye Hcon Hreach Hqu Hfront].
  destruct qu as [|e qu]; cbn [traverse PriorityQueue.get].
  - exists rots. split; [done|]. split_and!; [done..| |].
    + intros k Hk Hnc. apply Heye.
      destruct (lookup_lt_is_Some_2 visited k) as [[|] Hb]; [lia| |done].
      destruct Hnc. by apply Hcon.
    + intros k Hk. apply Hreach. revert k Hk.
      apply (rtc_ind_r (λ k, visited !! k = Some true)); [done|].
      intros y z _ Hyz Hy.
      destruct (Hfront y z Hy Hyz) as [?|[p ?%elem_of_nil]]; done.
  - destruct (Hqu e) as [Hi Hadj]; [left|].
    destruct e as [p0 [i j]]. cbn [fst snd] in *.
    assert (Hj : j < n) by (by apply mst_nodes, (mst_closed i)).
    destruct (lookup_lt_is_Some_2 visited j) as [b Hb]; [lia|].
    unfold list_get at 1. rewrite Hb. cbn.
    destruct b.
    + apply IH; [|simpl in Hfuel; lia].
      split; [done..| |].
      * intros e' He'. apply Hqu. by right.
      * intros i' j' Hi' Ha'.
        destruct (Hfront i' j' Hi' Ha') as [?|[p Hp]]; [by left|].
        apply elem_of_cons in Hp as [[= -> -> ->]|Hp]; [by left|].
        right. by exists p.
    + destruct (Hreach i Hi) as (Ri&HRi&HreachI).
      destruct (compute_rotation_spec rots i j Ri) as (Rij&Hrel&->);
        [by apply mst_linked|done|lia|].
      cbn. unfold list_set. rewrite decide_True by lia. cbn.
      assert (Hnode : is_node mst j) by (by apply (mst_closed i)).
      destruct Hnode as [nbrs Hnbrs].
      destruct (add_edges_to_heap_spec (<[j := true]> visited) j qu nbrs)
        as (qu'&->&Hin&Hmono&Hcomp&Hle); [by rewrite length_insert|done|].
      cbn. apply IH.
      * assert (Hne : ref_image_id ≠ j) by congruence.
        assert (Hij : i ≠ j) by congruence.
        split.
        -- by rewrite length_insert.
        -- by rewrite length_insert.
        -- by apply lookup_insert_true.
        -- by rewrite list_lookup_insert_ne.
        -- intros k Hk. destruct (decide (j = k)) as [->|Hjk].
           ++ rewrite list_lookup_insert_eq in Hk by lia. done.
           ++ rewrite list_lookup_insert_ne in Hk by done.
              rewrite list_lookup_insert_ne by done. by apply Heye.
        -- intros k Hk. destruct (decide (j = k)) as [<-|Hjk].
           ++ eapply rtc_r; [by apply Hcon|]. by apply mst_linked.
           ++ rewrite list_lookup_insert_ne in Hk by done. by apply Hcon.
        -- intros k Hk. destruct (decide (j = k)) as [<-|Hjk].
           ++ exists (matmul Rij Ri). split.
              ** rewrite list_lookup_insert_eq; [done|lia].
              ** by eapply reaches_step.
           ++ rewrite list_lookup_insert_ne in Hk by done.
              rewrite list_lookup_insert_ne by done. by apply Hreach.
        -- intros e' [He'|[He' Ha']]%Hin.
           ++ destruct (Hqu e') as [? ?]; [by right|].
              split; [by apply lookup_insert_true|done].
           ++ rewrite He'. split; [|done].
              rewrite list_lookup_insert_eq by lia. done.
        -- intros i' j' Hi' Ha'. destruct (decide (j = i')) as [<-|Hji].
           ++ assert (Hj' : j' < n) by (by apply mst_nodes, (mst_closed j)).
              destruct (lookup_lt_is_Some_2 (<[j := true]> visited) j')
                as [[|] Hb']; [by rewrite length_insert; lia|by left|].
              right. by apply Hcomp.
           ++ rewrite list_lookup_insert_ne in Hi' by done.
              destruct (Hfront i' j' Hi' Ha') as [?|[p Hp]].
              ** left. by apply lookup_insert_true.
              ** apply elem_of_cons in Hp as [[= -> -> ->]|Hp].
                 --- left. rewrite list_lookup_insert_eq; [done|lia].
                 --- right. exists p. by apply Hmono.
      * pose proof (unvisited_degree_visit visited mst j nbrs mst_wf Hnbrs Hb).
        simpl in Hfuel. lia.
Qed.

End traversal.

(** What the graph and its spanning tree are, for a dict of pairs with
    usable match counts. *)
Lemma graph_and_mst {Rot : Type} (tvg : list ((nat * nat) * (Rot * Z)))
    (n : nat) :
  (∀ a b, (a, b) ∈ OrdDict.keys tvg → a < b < n) →
  (∀ k d, (k, d) ∈ tvg → is_Ret (Float64.priority_level d.2)) →
  ∃ graph mst,
    build_graph tvg Graph.empty = Ret graph ∧
    minimum_spanning_tree graph = Ret mst ∧
    OrdDict.wf mst ∧ closed mst ∧ AllWeights Good mst ∧
    (∀ a, is_node mst a ↔ ∃ b, linked tvg a b) ∧
    (∀ a b, is_Some (adj mst a b) → linked tvg a b) ∧
    (∀ a b, linked tvg a b → rtc (λ x y, is_Some (adj mst x y)) a b) ∧
    total mst ≤ 4 * length tvg.
Proof.
  intros Hkeys Hlev.
  destruct (build_graph_spec tvg Graph.empty Hlev) as
    (graph&Hg&Hwf&Hc&HA&Hn&Ha&Hb&Ht).
  { apply NoDup_nil_2. }
  { apply closed_empty. }
  { by intros a nbrs b w ?%elem_of_nil. }
  destruct (minimum_spanning_tree_total graph Hwf Hc HA)
    as (mst&Hm&Hmwf&Hmc&Hmn&Hma&HmA&Hmt).
  exists graph, mst. split_and!; [done..| | | |].
  - intros a. rewrite Hmn, Hn. unfold linked. split; [|by right].
    by intros [[? ?]|?].
  - intros a b Hab. unfold linked.
    destruct (Hma a b Hab) as [H|H]; apply Ha in H as [[? H]|H];
      [by cbn in H|tauto|by cbn in H|tauto].
  - intros a b Hl. apply (minimum_spanning_tree_spans graph); [done..| | |].
    + intros x y [[? H]|H]%Ha; [by cbn in H|]. apply Hb. right. tauto.
    + done.
    + apply Hb. by right.
  - change (total (@Graph.empty spec_float)) with 0 in Ht. lia.
Qed.

(** X25. [init_global_rotations_from_mst] on a dict whose keys [(a, b)] have
    [a < b < num_rotations], whose match counts have a priority level, and
    in which the reference image has a pair: the call returns one rotation
    per image; the reference image keeps [ref_image_rotation]; every image
    that no chain of pairs joins to the reference image keeps the identity;
    and every image that such a chain joins to it gets the reference
    rotation multiplied, on the left and step by step, by the relative
    rotations along a chain of pairs from the reference image to it: the
    stored rotation of [(i, j)] on a step from [i] to [j > i], its transpose
    on a step from [j] to [i]. *)
Theorem init_global_rotations_from_mst_spec {Rot : Type} (eye : Rot)
    (matmul : Rot → Rot → Rot) (transpose : Rot → Rot) (fuel : nat)
    (ref_image_id : nat) (ref_image_rotation : Rot)
    (two_view_geometries : list ((nat * nat) * (Rot * Z)))
    (num_rotations : nat) :
  (∀ a b, (a, b) ∈ OrdDict.keys two_view_geometries →
     a < b < num_rotations) →
  (∀ k d, (k, d) ∈ two_view_geometries →
     is_Ret (Float64.priority_level d.2)) →
  (∃ b, linked two_view_geometries ref_image_id b) →
  4 * length two_view_geometries < fuel →
  ∃ rots,
    init_global_rotations_from_mst eye matmul transpose fuel ref_image_id
      ref_image_rotation two_view_geometries num_rotations = Ret rots ∧
    length rots = num_rotations ∧
    rots !! ref_image_id = Some ref_image_rotation ∧
    (∀ k, k < num_rotations →
       ¬ connected two_view_geometries ref_image_id k →
       rots !! k = Some eye) ∧
    (∀ k, connected two_view_geometries ref_image_id k →
       ∃ R, rots !! k = Some R ∧
            Reaches matmul transpose two_view_geometries ref_image_id
              ref_image_rotation k R).
Proof.
  intros Hkeys Hlev Href Hfuel.
  assert (Hrefn : ref_image_id < num_rotations).
  { destruct Href as [b [H|H]]; apply Hkeys in H; lia. }
  destruct (graph_and_mst two_view_geometries num_rotations Hkeys Hlev)
    as (graph&mst&Hg&Hm&Hmwf&Hmc&HmA&Hmn&Hma&Hms&Hmt).
  unfold init_global_rotations_from_mst. unfold list_set at 1.
  rewrite length_replicate, decide_True by done. cbn.
  rewrite Hg. cbn. rewrite Hm. cbn. unfold list_set.
  rewrite length_replicate, decide_True by done. cbn.
  assert (Hnodes : ∀ a, is_node mst a → a < num_rotations).
  { intros a [b [H|H]]%Hmn; apply Hkeys in H; lia. }
  destruct (proj2 (Hmn ref_image_id) Href) as [nbrs Hnbrs].
  assert (Hv0 : replicate num_rotations false !! ref_image_id = Some false).
  { by apply lookup_replicate_2. }
  destruct (add_edges_to_heap_spec num_rotations mst Hmc Hnodes HmA
              (<[ref_image_id := true]> (replicate num_rotations false))
              ref_image_id [] nbrs)
    as (qu&->&Hin&_&Hcomp&Hle).
  { by rewrite length_insert, length_replicate. }
  { done. }
  cbn.
  destruct (traverse_spec eye matmul transpose two_view_geometries
              num_rotations ref_image_id ref_image_rotation mst
              ltac:(intros a b H; apply Hkeys in H; lia)
              Hmwf Hmc Hnodes Hma HmA fuel
              (<[ref_image_id := ref_image_rotation]>
                 (replicate num_rotations eye))
              (<[ref_image_id := true]> (replicate num_rotations false)) qu)
    as (rots&->&Hlen&Hrot&Heye&Hreach).
  - split.
    + by rewrite length_insert, length_replicate.
    + by rewrite length_insert, length_replicate.
    + rewrite list_lookup_insert_eq; [done|]. by rewrite length_replicate.
    + rewrite list_lookup_insert_eq; [done|]. by rewrite length_replicate.
    + intros k Hk. destruct (decide (ref_image_id = k)) as [->|Hne].
      * rewrite list_lookup_insert_eq in Hk; [done|].
        by rewrite length_replicate.
      * rewrite list_lookup_insert_ne by done.
        apply lookup_lt_Some in Hk. rewrite length_insert in Hk.
        rewrite length_replicate in Hk.
        by apply lookup_replicate_2.
    + intros k Hk. destruct (decide (ref_image_id = k)) as [->|Hne].
      * apply rtc_refl.
      * rewrite list_lookup_insert_ne in Hk by done.
        apply lookup_replicate in Hk as [? _]. done.
    + intros k Hk. destruct (decide (ref_image_id = k)) as [<-|Hne].
      * exists ref_image_rotation. split; [|constructor].
        rewrite list_lookup_insert_eq; [done|]. by rewrite length_replicate.
      * rewrite list_lookup_insert_ne in Hk by done.
        apply lookup_replicate in Hk as [? _]. done.
    + intros e [?%elem_of_nil|[-> Ha]]%Hin; [done|]. split; [|done].
      rewrite list_lookup_insert_eq; [done|].
      by rewrite length_replicate.
    + intros i j Hi Ha. destruct (decide (ref_image_id = i)) as [<-|Hne].
      * assert (Hj : j < num_rotations) by (by apply Hnodes, (Hmc ref_image_id)).
        destruct (lookup_lt_is_Some_2
                    (<[ref_image_id := true]> (replicate num_rotations false))
                    j) as [[|] Hb];
          [by rewrite length_insert, length_replicate|by left|].
        right. by apply Hcomp.
      * rewrite list_lookup_insert_ne in Hi by done.
        apply lookup_replicate in Hi as [? _]. done.
  - pose proof (unvisited_degree_visit (replicate num_rotations false) mst
                  ref_image_id nbrs Hmwf Hnbrs Hv0).
    pose proof (unvisited_degree_le (replicate num_rotations false) mst).
    simpl in Hle. lia.
  - exists rots. split_and!; [done..|].
    intros k Hk. apply Hreach.
    eapply rtc_into; [|exact Hk]. intros a b Hab. by apply Hms.
Qed.

(** Three images with a pair each way round the triangle, and a fourth
    image without pair; rotations are named by numbers and multiplied by
    adding them. *)
Definition triangle_pairs : list ((nat * nat) * (nat * Z)) :=
  [((0, 1), (5, 10%Z)); ((1, 2), (7, 5%Z)); ((0, 2), (9, 1%Z))].

(** The spanning tree keeps the pairs of 10 and 5 matches; the rotation of
    image 2 comes through image 1. *)
Example triangle_rotations :
  init_global_rotations_from_mst 0 Nat.add (λ r, r) 13 0 1 triangle_pairs 4
  = Ret [1; 5 + 1; 7 + (5 + 1); 0].
Proof. vm_compute. reflexivity. Qed.

Lemma triangle_keys a b :
  (a, b) ∈ OrdDict.keys triangle_pairs → a < b < 4.
Proof.
  intros H. unfold triangle_pairs, OrdDict.keys in H. simpl in H.
  repeat (apply elem_of_cons in H as [[= -> ->]|H]; [lia|]).
  by apply elem_of_nil in H.
Qed.

Lemma triangle_levels k (d : nat * Z) :
  (k, d) ∈ triangle_pairs → is_Ret (Float64.priority_level d.2).
Proof.
  intros H. unfold triangle_pairs in H.
  repeat (apply elem_of_cons in H as [[= -> ->]|H];
          [vm_compute; by eexists|]).
  by apply elem_of_nil in H.
Qed.

Lemma init_global_rotations_from_mst_spec_witness :
  ∃ rots,
    init_global_rotations_from_mst 0 Nat.add (λ r, r) 13 0 1 triangle_pairs 4
      = Ret rots ∧
    length rots = 4 ∧
    rots !! 0 = Some 1 ∧
    (∀ k, k < 4 → ¬ connected triangle_pairs 0 k → rots !! k = Some 0) ∧
    (∀ k, connected triangle_pairs 0 k →
       ∃ R, rots !! k = Some R ∧
            Reaches Nat.add (λ r, r) triangle_pairs 0 1 k R).
Proof.
  apply (init_global_rotations_from_mst_spec 0 Nat.add (λ r, r) 13 0 1
           triangle_pairs 4).
  - apply triangle_keys.
  - apply triangle_levels.
  - exists 1. left. unfold triangle_pairs, OrdDict.keys. simpl. left.
  - simpl. lia.
Defined.



(** [1.0 / float(c)] returns, or divides by zero, or [c] is too large for
    a float. *)
Lemma inverse_cases (c : Z) :
  is_Ret (Float64.inverse c) ∨
  Float64.inverse c = Raise ZeroDivisionError ∨
  Float64.inverse c = Raise OverflowError.
Proof.
  unfold Float64.inverse, Float64.of_int.
  destruct (binary_normalize Float64.prec Float64.emax c 0 false)
    as [sg|sg| |sg m e].
  - right. by left.
  - right. by right.
  - left. by eexists.
  - left. by eexists.
Qed.

Lemma build_graph_zero {Rot : Type} (l : list ((nat * nat) * (Rot * Z))) :
  ∀ graph,
  (∃ k R, (k, (R, 0%Z)) ∈ l) →
  ∃ e, build_graph l graph = Raise e ∧
       (e = ZeroDivisionError ∨ e = OverflowError).
Proof.
  induction l as [|[[u v] d] l IH]; intros graph (k&R&Hin).
  - by apply elem_of_nil in Hin.
  - cbn [build_graph fst snd].
    destruct (inverse_cases d.2) as [[w Hw]|[Hw|Hw]]; rewrite Hw; cbn.
    + apply elem_of_cons in Hin as [[= -> <-]|Hin].
      * simpl in Hw. vm_compute in Hw. done.
      * apply IH. by exists k, R.
    + eexists. split; [done|by left].
    + eexists. split; [done|by right].
Qed.

(** X27. A pair with zero matches stops the call in the loop that builds
    the graph: [1.0 / float(0)] raises [ZeroDivisionError] (the error is
    [OverflowError] instead when an earlier pair has a count too large for a
    float). *)
Theorem init_global_rotations_zero_matches {Rot : Type} (eye : Rot)
    (matmul : Rot → Rot → Rot) (transpose : Rot → Rot) (fuel : nat)
    (ref_image_id : nat) (ref_image_rotation : Rot)
    (two_view_geometries : list ((nat * nat) * (Rot * Z)))
    (num_rotations : nat) (k : nat * nat) (R : Rot) :
  ref_image_id < num_rotations →
  (k, (R, 0%Z)) ∈ two_view_geometries →
  ∃ e,
    init_global_rotations_from_mst eye matmul transpose fuel ref_image_id
      ref_image_rotation two_view_geometries num_rotations = Raise e ∧
    (e = ZeroDivisionError ∨ e = OverflowError).
Proof.
  intros Hrefn Hin.
  unfold init_global_rotations_from_mst, list_set.
  rewrite (length_replicate num_rotations eye).
  rewrite (decide_True (P := ref_image_id < num_rotations)) by done. cbn.
  destruct (build_graph_zero two_view_geometries Graph.empty)
    as (e&->&He); [by exists k, R|].
  cbn. by exists e.
Qed.

Lemma init_global_rotations_zero_matches_witness :
  ∃ e,
    init_global_rotations_from_mst 0 Nat.add (λ r, r) 13 0 1
      (triangle_pairs ++ [((2, 3), (4, 0%Z))]) 4 = Raise e ∧
    (e = ZeroDivisionError ∨ e = OverflowError).
Proof.
  apply (init_global_rotations_zero_matches 0 Nat.add (λ r, r) 13 0 1
           (triangle_pairs ++ [((2, 3), (4, 0%Z))]) 4 (2, 3) 4).
  - lia.
  - apply elem_of_app. right. left.
Defined.

End PropagationProofs.
